(** * File marks of the regular files source (pkg/cmd/template/regular_input.go)

    A shallow embedding of [applyFileMarks], [fileMarkMatches], [clearNils],
    [Input] and [Output], and the properties of the file-mark subsystem.

    Conventions of the embedding.
    - A Go string is a Rocq [string], one [ascii] for each byte.  Package
      strings works on the bytes; package regexp reads a string as UTF-8,
      rune by rune, and refuses an expression that is not valid UTF-8.
    - A [*files.File] is a pointer into a heap of file records; the nil
      pointer is [None].  Calling a method that reads or writes a field
      through nil panics, as does indexing a slice out of range.
    - A Go function returning [(T, error)] returns an [outcome]: a value, an
      error, or a panic.  Mutations of the heap made before an error are
      kept: the heap is threaded through every outcome. *)

From Stdlib Require Import String Ascii List Bool NArith Lia.
From stdpp Require Import base option list strings.

Open Scope string_scope.
Open Scope list_scope.

(** ** Package strings *)

Module strings.

(** The part of [s] before the first [sep] and the part after it. *)
Fixpoint Cut (sep : ascii) (s : string) : option (string * string) :=
  match s with
  | EmptyString => None
  | String c s' =>
      if Ascii.eqb c sep then Some (EmptyString, s')
      else match Cut sep s' with
           | Some (a, b) => Some (String c a, b)
           | None => None
           end
  end.

(** [strings.SplitN(s, sep, 2)] for a one-byte separator: the slice
    has one element when [sep] does not occur and two otherwise. *)
Definition SplitN2 (s : string) (sep : ascii) : list string :=
  match Cut sep s with
  | Some (a, b) => [a; b]
  | None => [s]
  end.

Fixpoint drop (n : nat) (s : string) : string :=
  match n, s with
  | S n', String _ s' => drop n' s'
  | _, _ => s
  end.

(** [strings.Replace(s, old, new, 1)]: the leftmost occurrence of [old]
    is replaced, the rest of [s] is copied. *)
Fixpoint Replace1 (s old new : string) : string :=
  if String.prefix old s then new +:+ drop (String.length old) s
  else match s with
       | EmptyString => EmptyString
       | String c s' => String c (Replace1 s' old new)
       end.

Fixpoint contains (c : ascii) (s : string) : bool :=
  match s with
  | EmptyString => false
  | String d s' => Ascii.eqb d c || contains c s'
  end.

End strings.

(** ** Package unicode/utf8 *)

Module utf8.

(** A rune is written as the UTF-8 sequence that encodes it.  The decoder
    below accepts the well-formed sequences only, and each code point has
    one, so two runes are equal exactly when their sequences are. *)
Definition rune : Type := string.

(** The rune of a byte below [RuneSelf]. *)
Definition single (c : ascii) : rune := String c EmptyString.

(** [utf8.RuneError], U+FFFD. *)
Definition RuneError : rune :=
  String "239" (String "191" (String "189" EmptyString)).

Definition between (lo hi : N) (c : ascii) : bool :=
  N.leb lo (N_of_ascii c) && N.leb (N_of_ascii c) hi.

(** Bytes below [RuneSelf] are runes of one byte. *)
Definition isASCII (c : ascii) : bool := N.ltb (N_of_ascii c) 128.

(** Continuation bytes, [locb] to [hicb]. *)
Definition isCont (c : ascii) : bool := between 128 191 c.

(** The table [first]: how many bytes the sequence has that a byte
    begins; 0 for a byte that begins none. *)
Definition size (s0 : ascii) : nat :=
  if isASCII s0 then 1
  else if between 194 223 s0 then 2
  else if between 224 239 s0 then 3
  else if between 240 244 s0 then 4
  else 0.

(** The table [acceptRanges]: the second bytes a first byte accepts. *)
Definition second (s0 s1 : ascii) : bool :=
  if between 224 224 s0 then between 160 191 s1
  else if between 237 237 s0 then between 128 159 s1
  else if between 240 240 s0 then between 144 191 s1
  else if between 244 244 s0 then between 128 143 s1
  else isCont s1.

(** What [utf8.DecodeRuneInString] finds at a position: a rune and its
    bytes, or a byte that begins no well-formed sequence, for which it
    returns [(RuneError, 1)]. *)
Inductive piece : Type :=
| Good (r : rune)
| Bad (b : ascii).

(** [utf8.DecodeRuneInString], applied from the left until the string is
    used up. *)
Fixpoint decode (s : string) : list piece :=
  match s with
  | EmptyString => []
  | String s0 t =>
      match size s0, t with
      | 1, _ => Good (single s0) :: decode t
      | 2, String s1 t1 =>
          if second s0 s1
          then Good (String s0 (String s1 EmptyString)) :: decode t1
          else Bad s0 :: decode t
      | 3, String s1 (String s2 t2) =>
          if second s0 s1 && isCont s2
          then Good (String s0 (String s1 (String s2 EmptyString))) :: decode t2
          else Bad s0 :: decode t
      | 4, String s1 (String s2 (String s3 t3)) =>
          if second s0 s1 && isCont s2 && isCont s3
          then Good (String s0 (String s1 (String s2 (String s3 EmptyString))))
                 :: decode t3
          else Bad s0 :: decode t
      | _, _ => Bad s0 :: decode t
      end
  end.

Definition isGood (p : piece) : bool :=
  match p with
  | Good _ => true
  | Bad _ => false
  end.

(** The rune read at a piece: each byte of an ill-formed sequence reads
    as [RuneError]. *)
Definition runeOf (p : piece) : rune :=
  match p with
  | Good r => r
  | Bad _ => RuneError
  end.

(** The bytes of a piece. *)
Definition bytesOf (p : piece) : string :=
  match p with
  | Good r => r
  | Bad b => String b EmptyString
  end.

(** [utf8.ValidString] *)
Definition ValidString (s : string) : bool := forallb isGood (decode s).

(** The runes a reader of the string sees, in order. *)
Definition runes (s : string) : list rune := map runeOf (decode s).

(** Is a string the sequence of one rune? *)
Definition isRune (r : string) : bool :=
  match r with
  | String s0 EmptyString => Nat.eqb (size s0) 1
  | String s0 (String s1 EmptyString) => Nat.eqb (size s0) 2 && second s0 s1
  | String s0 (String s1 (String s2 EmptyString)) =>
      Nat.eqb (size s0) 3 && second s0 s1 && isCont s2
  | String s0 (String s1 (String s2 (String s3 EmptyString))) =>
      Nat.eqb (size s0) 4 && second s0 s1 && isCont s2 && isCont s3
  | _ => false
  end.

End utf8.

(** ** Package regexp, for the regular expressions this program builds *)

Module regexp.

(** The bytes [regexp.QuoteMeta] escapes. *)
Definition special : string := "\.+*?()|[]{}^$".

Definition isSpecial (c : ascii) : bool := strings.contains c special.

Fixpoint QuoteMeta (s : string) : string :=
  match s with
  | EmptyString => EmptyString
  | String c s' =>
      if isSpecial c then String "\" (String c (QuoteMeta s'))
      else String c (QuoteMeta s')
  end.

(** The runes with a meaning in an expression. *)
Definition isSpecialRune (r : utf8.rune) : bool :=
  match r with
  | String c EmptyString => isSpecial c
  | _ => false
  end.

(** One-rune classes: a literal, [.] (any rune but a line feed, the flag
    [s] being off), and a negated class [[^r]]. *)
Inductive cls : Type :=
| CLit (r : utf8.rune)
| CDot
| CNeg (r : utf8.rune).

Inductive lexeme : Type :=
| LAtom (k : cls)
| LPlus
| LBol
| LEol.

(** A regular expression of the fragment: a concatenation of single
    runes, one-or-more repetitions, and the anchors [^] and [$]. *)
Inductive item : Type :=
| One (k : cls)
| Many (k : cls)
| Bol
| Eol.

Definition Regexp : Type := list item.

Definition newline : ascii := "010"%char.

(** The parser reads the expression rune by rune. *)
Fixpoint lex (s : list utf8.rune) : option (list lexeme) :=
  match s with
  | [] => Some []
  | c :: s1 =>
      if String.eqb c "\" then
        match s1 with
        | d :: s2 =>
            if isSpecialRune d then cons (LAtom (CLit d)) <$> lex s2 else None
        | [] => None
        end
      else if String.eqb c "[" then
        match s1 with
        | a :: d :: b :: s4 =>
            if String.eqb a "^" && String.eqb b "]"
               && negb (isSpecialRune d) && negb (String.eqb d "-")
            then cons (LAtom (CNeg d)) <$> lex s4
            else None
        | _ => None
        end
      else if String.eqb c "." then cons (LAtom CDot) <$> lex s1
      else if String.eqb c "+" then cons LPlus <$> lex s1
      else if String.eqb c "^" then cons LBol <$> lex s1
      else if String.eqb c "$" then cons LEol <$> lex s1
      else if isSpecialRune c then None
      else cons (LAtom (CLit c)) <$> lex s1
  end.

Fixpoint items (l : list lexeme) : option Regexp :=
  match l with
  | [] => Some []
  | LAtom k :: l1 =>
      match l1 with
      | LPlus :: l2 => cons (Many k) <$> items l2
      | _ => cons (One k) <$> items l1
      end
  | LBol :: l1 => cons Bol <$> items l1
  | LEol :: l1 => cons Eol <$> items l1
  | LPlus :: _ => None
  end.

(** [regexp.Compile]; [None] is an error: the expression is not valid
    UTF-8 (the parser checks that first), has a syntax error, or lies
    outside the fragment above.  [MustCompile] panics on [None]. *)
Definition Compile (s : string) : option Regexp :=
  if utf8.ValidString s then lex (utf8.runes s) ≫= items else None.

Definition inClass (k : cls) (c : utf8.rune) : bool :=
  match k with
  | CLit a => String.eqb a c
  | CDot => negb (String.eqb c (utf8.single newline))
  | CNeg a => negb (String.eqb a c)
  end.

(** Does [r] match a prefix of [s]?  [atStart] tells whether [s] begins
    at the beginning of the text. *)
Fixpoint matchHere (r : Regexp) (atStart : bool) (s : list utf8.rune) : bool :=
  match r with
  | [] => true
  | Bol :: r' => atStart && matchHere r' atStart s
  | Eol :: r' =>
      match s with
      | [] => matchHere r' atStart s
      | _ :: _ => false
      end
  | One k :: r' =>
      match s with
      | c :: s' => inClass k c && matchHere r' false s'
      | [] => false
      end
  | Many k :: r' =>
      (fix many (s : list utf8.rune) : bool :=
         match s with
         | c :: s' => inClass k c && (matchHere r' false s' || many s')
         | [] => false
         end) s
  end.

Fixpoint matchFrom (r : Regexp) (atStart : bool) (s : list utf8.rune) : bool :=
  matchHere r atStart s
  || match s with
     | _ :: s' => matchFrom r false s'
     | [] => false
     end.

(** [re.MatchString(s)]: does [r] match somewhere in [s]?  The text is
    read rune by rune. *)
Definition MatchString (r : Regexp) (s : string) : bool :=
  matchFrom r true (utf8.runes s).

End regexp.

(** ** The path pattern matcher *)

Definition quotedMultiLevel : string := regexp.QuoteMeta "**/*".
Definition quotedSingleLevel : string := regexp.QuoteMeta "*".

(** The expression [fileMarkMatches] hands to [regexp.MustCompile]. *)
Definition markRegexp (path : string) : string :=
  let path := regexp.QuoteMeta path in
  let path := strings.Replace1 path quotedMultiLevel ".+" in
  let path := strings.Replace1 path quotedSingleLevel "[^/]+" in
  "^" +:+ path +:+ "$".

(** The matcher on a pattern and an original relative path; [None] is the
    panic of [MustCompile]. *)
Definition pathMatches (path original : string) : option bool :=
  re ← regexp.Compile (markRegexp path);
  Some (regexp.MatchString re original).

(** ** Package files *)

Module files.

(** Modelled from the spec: the declaration of [files.Type], which is not
    part of the sources at hand; the four content types of section 3. *)
Inductive Type_ : Type :=
| TypeYAML
| TypeText
| TypeStarlark
| TypeUnknown.

(** Modelled from the spec: the declaration of [files.File], which is not
    part of the sources at hand.  Section 3 gives it an original relative
    path, fixed at ingestion, a marked relative path, a content type, a
    template flag and a for-output flag. *)
Record File : Type := mkFile {
  originalRelativePath : string;
  markedRelativePath : string;
  contentType : Type_;
  templateEnabled : bool;
  forOutput : bool
}.

(** Modelled from the spec: the setters of [files.File]; each one writes
    the field it names and no other. *)
Definition MarkRelativePath (v : string) (f : File) : File :=
  mkFile (originalRelativePath f) v (contentType f) (templateEnabled f) (forOutput f).

Definition MarkType (t : Type_) (f : File) : File :=
  mkFile (originalRelativePath f) (markedRelativePath f) t (templateEnabled f) (forOutput f).

Definition MarkTemplate (b : bool) (f : File) : File :=
  mkFile (originalRelativePath f) (markedRelativePath f) (contentType f) b (forOutput f).

Definition MarkForOutput (b : bool) (f : File) : File :=
  mkFile (originalRelativePath f) (markedRelativePath f) (contentType f) (templateEnabled f) b.

End files.

Import files.

(** ** Memory, errors and the monad of the mark applier *)

(** A [*files.File]: an address in the heap, or nil. *)
Abbreviation FilePtr := (option nat).

(** The memory [applyFileMarks] works on: the file objects, and the array
    behind its argument [filesToProcess], whose slots it clears in place. *)
Record Mem : Type := mkMem {
  heap : list File;
  slots : list FilePtr
}.

(** One constructor for each [fmt.Errorf] of the file, carrying the text
    substituted for [%s]. *)
Inductive error : Type :=
| ErrMarkFormat (mark : string)
| ErrMarkKeyValueFormat (mark : string)
| ErrUnknownValue (mark : string)
| ErrUnknownKey (mark : string)
| ErrNoMatch (mark : string)
| ErrUnknownOutputType (outputType : string)
| ErrMarshaling (cause : error)
| ErrOther (msg : string).

(** The error kinds of section 7 of the specification. *)
Inductive errorKind : Type :=
| MalformedMarkSyntax
| UnmatchedMarkPattern
| UnknownMarkKey
| InvalidMarkValue
| UnknownOutputType
| MarshalError
| CollaboratorError.

Definition kindOf (e : error) : errorKind :=
  match e with
  | ErrMarkFormat _ => MalformedMarkSyntax
  | ErrMarkKeyValueFormat _ => MalformedMarkSyntax
  | ErrUnknownValue _ => InvalidMarkValue
  | ErrUnknownKey _ => UnknownMarkKey
  | ErrNoMatch _ => UnmatchedMarkPattern
  | ErrUnknownOutputType _ => UnknownOutputType
  | ErrMarshaling _ => MarshalError
  | ErrOther _ => CollaboratorError
  end.

Inductive outcome (A : Type) : Type :=
| Ok (a : A)
| Err (e : error)
| Panic.

Arguments Ok {A} a.
Arguments Err {A} e.
Arguments Panic {A}.

(** A computation on the memory; the memory reached is returned with
    every outcome, so what was written before a failure stays written. *)
Definition M (A : Type) : Type := Mem -> Mem * outcome A.

Definition ret {A : Type} (a : A) : M A := fun m => (m, Ok a).

Definition bind {A B : Type} (c : M A) (k : A -> M B) : M B :=
  fun m =>
    match c m with
    | (m', Ok a) => k a m'
    | (m', Err e) => (m', Err e)
    | (m', Panic) => (m', Panic)
    end.

Definition fail {A : Type} (e : error) : M A := fun m => (m, Err e).

Definition panic {A : Type} : M A := fun m => (m, Panic).

Notation "'let*' x ':=' c 'in' k" := (bind c (fun x => k))
  (at level 10, x name, c at level 100, k at level 200).

Notation "c ;; k" := (bind c (fun _ => k))
  (at level 100, k at level 200, right associativity).

(** [filesToProcess[i]] *)
Definition index (i : nat) : M FilePtr :=
  fun m =>
    match slots m !! i with
    | Some p => (m, Ok p)
    | None => (m, Panic)
    end.

(** [filesToProcess[i] = nil] *)
Definition clear (i : nat) : M unit :=
  fun m =>
    match slots m !! i with
    | Some _ => (mkMem (heap m) (<[i := None]> (slots m)), Ok tt)
    | None => (m, Panic)
    end.

(** [len(filesToProcess)] *)
Definition len : M nat := fun m => (m, Ok (length (slots m))).

(** Reading a field of [*file]. *)
Definition load (file : FilePtr) : M File :=
  fun m =>
    match file with
    | Some a =>
        match heap m !! a with
        | Some f => (m, Ok f)
        | None => (m, Panic)
        end
    | None => (m, Panic)
    end.

(** Calling a setter on [file]. *)
Definition store (upd : File -> File) (file : FilePtr) : M unit :=
  fun m =>
    match file with
    | Some a =>
        match heap m !! a with
        | Some f => (mkMem (<[a := upd f]> (heap m)) (slots m), Ok tt)
        | None => (m, Panic)
        end
    | None => (m, Panic)
    end.

Definition MustCompile (s : string) : M regexp.Regexp :=
  match regexp.Compile s with
  | Some re => ret re
  | None => panic
  end.

(** [file.OriginalRelativePath()] *)
Definition OriginalRelativePath (file : FilePtr) : M string :=
  let* f := load file in ret (originalRelativePath f).

(** ** The mark applier *)

Definition fileMarkMatches (file : FilePtr) (path : string) : M bool :=
  let* re := MustCompile (markRegexp path) in
  let* original := OriginalRelativePath file in
  ret (regexp.MatchString re original).

(** Lines 103 to 113: the two splits of a mark. *)
Definition parseMark (mark : string) : outcome (string * string * string) :=
  match strings.SplitN2 mark ":" with
  | [path; rest] =>
      match strings.SplitN2 rest "=" with
      | [key; value] => Ok (path, key, value)
      | _ => Err (ErrMarkKeyValueFormat mark)
      end
  | _ => Err (ErrMarkFormat mark)
  end.

(** Lines 121 to 175: the effect of a mark on a file it matches.  The
    result is the accumulator [exclusiveForOutputFiles]. *)
Definition applyMark (mark key value : string) (i : nat) (file : FilePtr)
    (exclusive : list FilePtr) : M (list FilePtr) :=
  if String.eqb key "path" then
    store (MarkRelativePath value) file ;; ret exclusive
  else if String.eqb key "exclude" then
    if String.eqb value "true" then clear i ;; ret exclusive
    else fail (ErrUnknownValue mark)
  else if String.eqb key "type" then
    if String.eqb value "yaml-template" then
      store (MarkType TypeYAML) file ;; store (MarkTemplate true) file ;; ret exclusive
    else if String.eqb value "yaml-plain" then
      store (MarkType TypeYAML) file ;; store (MarkTemplate false) file ;; ret exclusive
    else if String.eqb value "text-template" then
      store (MarkType TypeText) file ;; store (MarkTemplate true) file ;; ret exclusive
    else if String.eqb value "text-plain" then
      store (MarkType TypeText) file ;; store (MarkTemplate false) file ;; ret exclusive
    else if String.eqb value "starlark" then
      store (MarkType TypeStarlark) file ;; store (MarkTemplate false) file ;; ret exclusive
    else if String.eqb value "data" then
      store (MarkType TypeUnknown) file ;; store (MarkTemplate false) file ;; ret exclusive
    else fail (ErrUnknownValue mark)
  else if String.eqb key "for-output" then
    if String.eqb value "true" then store (MarkForOutput true) file ;; ret exclusive
    else fail (ErrUnknownValue mark)
  else if String.eqb key "exclusive-for-output" then
    if String.eqb value "true" then ret (exclusive ++ [file])%list
    else fail (ErrUnknownValue mark)
  else fail (ErrUnknownKey mark).

(** Lines 117 to 177: the loop over [filesToProcess], on the indices still
    to visit; the result is [matched] and the accumulator. *)
Fixpoint scanFiles (mark path key value : string) (indices : list nat)
    (matched : bool) (exclusive : list FilePtr) : M (bool * list FilePtr) :=
  match indices with
  | [] => ret (matched, exclusive)
  | i :: indices' =>
      let* file := index i in
      let* hit := fileMarkMatches file path in
      if hit then
        let* exclusive' := applyMark mark key value i file exclusive in
        scanFiles mark path key value indices' true exclusive'
      else scanFiles mark path key value indices' matched exclusive
  end.

(** Lines 103 to 181: one turn of the loop over the marks. *)
Definition applyOneMark (mark : string) (exclusive : list FilePtr) : M (list FilePtr) :=
  match parseMark mark with
  | Ok (path, key, value) =>
      let* n := len in
      let* r := scanFiles mark path key value (seq 0 n) false exclusive in
      if fst r then ret (snd r) else fail (ErrNoMatch mark)
  | Err e => fail e
  | Panic => panic
  end.

(** Lines 102 to 182: the loop over [s.opts.fileMarks]. *)
Fixpoint applyMarks (fileMarks : list string) (exclusive : list FilePtr) : M (list FilePtr) :=
  match fileMarks with
  | [] => ret exclusive
  | mark :: fileMarks' =>
      let* exclusive' := applyOneMark mark exclusive in
      applyMarks fileMarks' exclusive'
  end.

Fixpoint clearNils (input : list FilePtr) : list FilePtr :=
  match input with
  | [] => []
  | Some a :: input' => Some a :: clearNils input'
  | None :: input' => clearNils input'
  end.

(** [for _, file := range l { file.MarkForOutput(b) }] *)
Fixpoint markAllForOutput (b : bool) (l : list FilePtr) : M unit :=
  match l with
  | [] => ret tt
  | file :: l' => store (MarkForOutput b) file ;; markAllForOutput b l'
  end.

(** Lines 184 to 197, from the accumulator the loop over the marks left. *)
Definition finish (exclusive : list FilePtr) : M (list FilePtr) :=
  fun m =>
    let filesToProcess := clearNils (slots m) in
    (if Nat.ltb 0 (length exclusive) then
       markAllForOutput false filesToProcess ;;
       markAllForOutput true exclusive ;;
       ret filesToProcess
     else ret filesToProcess) m.

Definition applyFileMarks (fileMarks : list string) : M (list FilePtr) :=
  let* exclusive := applyMarks fileMarks [] in
  finish exclusive.

(** The memory after ingestion: one object for each file, in order, and
    the slice of their addresses. *)
Definition ingest (fs : list File) : Mem :=
  mkMem fs (map Some (seq 0 (length fs))).

(** A file record at a relative path, for the examples; ingestion itself
    lies outside the sources at hand, so the other fields are samples. *)
Definition fileAt (path : string) : File :=
  mkFile path path TypeYAML true true.

(** ** The output step *)

(** The three values [printerFunc] takes in [Output]: nil, the JSON
    printer, and the file position printer in its wrapper. *)
Inductive printerFunc : Type :=
| PrinterNil
| PrinterJSON
| PrinterWrappedFilePosition.

(** What [Output] asks of its collaborators, in order. *)
Inductive event (OutputFile : Type) : Type :=
| EvWriteDirectory (dir : string) (fs : list OutputFile)
| EvAsBytesWithPrinter (p : printerFunc)
| EvDebugf (text : string)
| EvPrintf (bytes : string).

Arguments EvWriteDirectory {OutputFile} dir fs.
Arguments EvAsBytesWithPrinter {OutputFile} p.
Arguments EvDebugf {OutputFile} text.
Arguments EvPrintf {OutputFile} bytes.

(** The fields of [RegularFilesSourceOpts] the output step reads. *)
Record RegularFilesSourceOpts : Type := mkOpts {
  outputDir : string;
  outputType : string
}.

Section OutputStep.

(** The collaborators: output files and document sets, the directory
    writer [files.NewOutputDirectory(dir, fs, ui).Write()] and the
    serializer [DocSet.AsBytesWithPrinter]. *)
Variables OutputFile DocSet : Type.
Variable Write : string -> list OutputFile -> option error.
Variable AsBytesWithPrinter : DocSet -> printerFunc -> string + error.

(** The fields of [TemplateOutput] the output step reads. *)
Record TemplateOutput : Type := mkOut {
  outFiles : list OutputFile;
  outDocSet : DocSet;
  outErr : option error
}.

(** The [switch] on [s.opts.outputType]; [None] is its default branch. *)
Definition selectPrinter (outputType : string) : option printerFunc :=
  if String.eqb outputType "yaml" then Some PrinterNil
  else if String.eqb outputType "json" then Some PrinterJSON
  else if String.eqb outputType "pos" then Some PrinterWrappedFilePosition
  else None.

(** Lines 88 to 96: serializing the combined documents with a printer. *)
Definition serialize (out : TemplateOutput) (p : printerFunc)
    : list (event OutputFile) * option error :=
  match AsBytesWithPrinter (outDocSet out) p with
  | inr err => ([EvAsBytesWithPrinter p], Some (ErrMarshaling err))
  | inl combinedDocBytes =>
      ([EvAsBytesWithPrinter p;
        EvDebugf ("### result" +:+ String regexp.newline EmptyString);
        EvPrintf combinedDocBytes], None)
  end.

(** [Output]: the calls made to the collaborators and the error returned. *)
Definition Output (opts : RegularFilesSourceOpts) (out : TemplateOutput)
    : list (event OutputFile) * option error :=
  match outErr out with
  | Some e => ([], Some e)
  | None =>
      if Nat.ltb 0 (String.length (outputDir opts)) then
        ([EvWriteDirectory (outputDir opts) (outFiles out)],
         Write (outputDir opts) (outFiles out))
      else
        match selectPrinter (outputType opts) with
        | None => ([], Some (ErrUnknownOutputType (outputType opts)))
        | Some p => serialize out p
        end
  end.

End OutputStep.

Arguments mkOut {OutputFile DocSet} outFiles outDocSet outErr.
Arguments outFiles {OutputFile DocSet} t.
Arguments outDocSet {OutputFile DocSet} t.
Arguments outErr {OutputFile DocSet} t.
Arguments serialize {OutputFile DocSet} AsBytesWithPrinter out p.
Arguments Output {OutputFile DocSet} Write AsBytesWithPrinter opts out.

(** ** Wildcard patterns, as sequences of tokens *)

(** A pattern read rune by rune: literal runes and the two wildcards. *)
Inductive token : Type :=
| TLit (r : utf8.rune)
| TSingle
| TMulti.

(** The runes of the multi-level wildcard, [**/*]. *)
Definition multiLevel : list utf8.rune := ["*"; "*"; "/"; "*"].

Fixpoint hasPrefix (n l : list utf8.rune) : bool :=
  match n, l with
  | [], _ => true
  | a :: n', b :: l' => String.eqb a b && hasPrefix n' l'
  | _ :: _, [] => false
  end.

(** The leftmost [**/*] of a pattern becomes the multi-level wildcard. *)
Fixpoint firstMulti (rs : list utf8.rune) : list token :=
  match rs with
  | [] => []
  | r :: rs' =>
      if hasPrefix multiLevel rs then TMulti :: map TLit (drop 4 rs)
      else TLit r :: firstMulti rs'
  end.

(** The leftmost [*] still literal becomes the single-level wildcard. *)
Fixpoint firstSingle (ts : list token) : list token :=
  match ts with
  | [] => []
  | TLit r :: ts' =>
      if String.eqb r "*" then TSingle :: ts' else TLit r :: firstSingle ts'
  | t :: ts' => t :: firstSingle ts'
  end.

(** What [markRegexp] makes of a pattern: at most one wildcard of each
    kind, every other rune literal. *)
Definition firstWildcards (pattern : string) : list token :=
  firstSingle (firstMulti (utf8.runes pattern)).

(** Following the words of the specification: every [**/*] is a
    multi-level wildcard and every other [*] a single-level one.  [skip]
    counts the runes of a [**/*] still to pass over. *)
Fixpoint everyWildcardFrom (skip : nat) (rs : list utf8.rune) : list token :=
  match rs with
  | [] => []
  | r :: rs' =>
      match skip with
      | S k => everyWildcardFrom k rs'
      | O =>
          if hasPrefix multiLevel rs then TMulti :: everyWildcardFrom 3 rs'
          else if String.eqb r "*" then TSingle :: everyWildcardFrom 0 rs'
          else TLit r :: everyWildcardFrom 0 rs'
      end
  end.

Definition everyWildcard (pattern : string) : list token :=
  everyWildcardFrom 0 (utf8.runes pattern).

Definition notSeparator (r : utf8.rune) : bool := negb (String.eqb "/" r).

Definition notNewline (r : utf8.rune) : bool :=
  negb (String.eqb r (utf8.single regexp.newline)).

Definition anyRune (r : utf8.rune) : bool := true.

(** A path, as a sequence of runes, matches a token sequence: a literal
    matches itself, the single-level wildcard one or more runes other
    than the separator, the multi-level wildcard one or more runes of
    [multi]. *)
Inductive GlobMatch (multi : utf8.rune -> bool) : list token -> list utf8.rune -> Prop :=
| GlobNil : GlobMatch multi [] []
| GlobLit r ts s :
    GlobMatch multi ts s -> GlobMatch multi (TLit r :: ts) (r :: s)
| GlobSingle w ts s :
    w <> [] -> forallb notSeparator w = true ->
    GlobMatch multi ts s -> GlobMatch multi (TSingle :: ts) (w ++ s)
| GlobMulti w ts s :
    w <> [] -> forallb multi w = true ->
    GlobMatch multi ts s -> GlobMatch multi (TMulti :: ts) (w ++ s).

(** The runes of the regular expression of a token, and its items. *)
Definition renderToken (t : token) : list utf8.rune :=
  match t with
  | TLit r => if regexp.isSpecialRune r then ["\"; r] else [r]
  | TSingle => ["["; "^"; "/"; "]"; "+"]
  | TMulti => ["."; "+"]
  end.

Definition render (ts : list token) : list utf8.rune := concat (map renderToken ts).

Definition lexemesOf (t : token) : list regexp.lexeme :=
  match t with
  | TLit r => [regexp.LAtom (regexp.CLit r)]
  | TSingle => [regexp.LAtom (regexp.CNeg "/"); regexp.LPlus]
  | TMulti => [regexp.LAtom regexp.CDot; regexp.LPlus]
  end.

Definition itemOf (t : token) : regexp.item :=
  match t with
  | TLit r => regexp.One (regexp.CLit r)
  | TSingle => regexp.Many (regexp.CNeg "/")
  | TMulti => regexp.Many regexp.CDot
  end.

(** Does a lexeme sequence begin with a repetition operator? *)
Definition startsWithPlus (l : list regexp.lexeme) : bool :=
  match l with
  | regexp.LPlus :: _ => true
  | _ => false
  end.

(** *** The same, byte by byte *)

(** The two replacements of [markRegexp] work on the bytes of the quoted
    pattern; [btoken] is a byte of the pattern or what replaced a
    wildcard. *)
Inductive btoken : Type :=
| BLit (c : ascii)
| BSingle
| BMulti.

Fixpoint bliterals (s : string) : list btoken :=
  match s with
  | EmptyString => []
  | String c s' => BLit c :: bliterals s'
  end.

Fixpoint replaceMulti (s : string) : list btoken :=
  if String.prefix "**/*" s then BMulti :: bliterals (strings.drop 4 s)
  else match s with
       | EmptyString => []
       | String c s' => BLit c :: replaceMulti s'
       end.

Fixpoint replaceSingle (ts : list btoken) : list btoken :=
  match ts with
  | [] => []
  | BLit c :: ts' =>
      if Ascii.eqb c "*" then BSingle :: ts' else BLit c :: replaceSingle ts'
  | t :: ts' => t :: replaceSingle ts'
  end.

(** The text of the regular expression of a byte token. *)
Definition brenderToken (t : btoken) : string :=
  match t with
  | BLit c => regexp.QuoteMeta (String c EmptyString)
  | BSingle => "[^/]+"
  | BMulti => ".+"
  end.

Fixpoint brender (ts : list btoken) : string :=
  match ts with
  | [] => EmptyString
  | t :: ts' => brenderToken t +:+ brender ts'
  end.

(** The text of the pattern a byte token stands for. *)
Definition bsourceToken (t : btoken) : string :=
  match t with
  | BLit c => String c EmptyString
  | BSingle => "*"
  | BMulti => "**/*"
  end.

Fixpoint bsource (ts : list btoken) : string :=
  match ts with
  | [] => EmptyString
  | t :: ts' => bsourceToken t +:+ bsource ts'
  end.

(** The bytes of a token. *)
Definition tokenBytes (t : token) : list btoken :=
  match t with
  | TLit r => bliterals r
  | TSingle => [BSingle]
  | TMulti => [BMulti]
  end.

(** The concatenation of the sequences of a list of runes. *)
Fixpoint join (rs : list string) : string :=
  match rs with
  | [] => EmptyString
  | r :: rs' => r +:+ join rs'
  end.

(** Tokens whose literals are runes. *)
Definition runeTokens (ts : list token) : Prop :=
  Forall (fun t => match t with
                   | TLit r => utf8.isRune r = true
                   | _ => True
                   end) ts.

(** ** Well-formed memories *)

(** Every address held in a slot is the address of a file object. *)
Definition validMem (m : Mem) : Prop :=
  forall i a, slots m !! i = Some (Some a) -> a < length (heap m).

(** The file a pointer designates, if any. *)
Definition fileOf (m : Mem) (file : FilePtr) : option File :=
  a ← file; heap m !! a.

(** The six pairs a [type] mark can set. *)
Definition typePairs : list (string * (Type_ * bool)) :=
  [ ("yaml-template", (TypeYAML, true));
    ("yaml-plain", (TypeYAML, false));
    ("text-template", (TypeText, true));
    ("text-plain", (TypeText, false));
    ("starlark", (TypeStarlark, false));
    ("data", (TypeUnknown, false)) ].

Fixpoint assoc {A : Type} (k : string) (l : list (string * A)) : option A :=
  match l with
  | [] => None
  | (k', v) :: l' => if String.eqb k k' then Some v else assoc k l'
  end.

(** Does [MustCompile] accept the expression of a pattern? *)
Definition compiles (path : string) : bool :=
  match regexp.Compile (markRegexp path) with
  | Some _ => true
  | None => false
  end.

(** Does the pattern of a mark match a file?  Where [MustCompile] panics
    there is no match. *)
Definition matchesFile (path : string) (f : File) : bool :=
  match pathMatches path (originalRelativePath f) with
  | Some b => b
  | None => false
  end.

Definition typePair (f : File) : Type_ * bool := (contentType f, templateEnabled f).

(** What the applier may do to a file object: the original path stays,
    and the content type and template flag stay or become one of the six
    pairs. *)
Definition fileStep (f f' : File) : Prop :=
  originalRelativePath f' = originalRelativePath f /\
  (typePair f' = typePair f \/ In (typePair f') (map snd typePairs)).

(** What the applier may do to a slot: leave it or clear it. *)
Definition slotStep (p p' : FilePtr) : Prop := p' = p \/ p' = None.

Definition evolves (m m' : Mem) : Prop :=
  Forall2 fileStep (heap m) (heap m') /\ Forall2 slotStep (slots m) (slots m').

(** Every pointer of a list is the address of a file object. *)
Definition validPtrs (m : Mem) (l : list FilePtr) : Prop :=
  forall p, In p l -> exists a, p = Some a /\ a < length (heap m).

(** No slot is cleared, and the matcher answers false on each file. *)
Definition missesAll (path : string) (m : Mem) : Prop :=
  forall i p, slots m !! i = Some p ->
    exists a f, p = Some a /\ heap m !! a = Some f /\
                pathMatches path (originalRelativePath f) = Some false.

(** The error a mark with this key and value raises on a file it matches,
    if it raises one: the key is none of the five, or the value is not
    legal for the key. *)
Definition validationError (mark key value : string) : option error :=
  if String.eqb key "path" then None
  else if String.eqb key "exclude" || String.eqb key "for-output"
          || String.eqb key "exclusive-for-output" then
    if String.eqb value "true" then None else Some (ErrUnknownValue mark)
  else if String.eqb key "type" then
    match assoc value typePairs with
    | Some _ => None
    | None => Some (ErrUnknownValue mark)
    end
  else Some (ErrUnknownKey mark).

(** The shapes the effect of a mark on a matched file can take. *)
Inductive markEffect (mark key value : string) (i : nat) (file : FilePtr)
    (ex : list FilePtr) (m : Mem) : Mem * outcome (list FilePtr) -> Prop :=
| EffStore a f upd :
    file = Some a -> heap m !! a = Some f -> fileStep f (upd f) ->
    markEffect mark key value i file ex m
      (mkMem (<[a := upd f]> (heap m)) (slots m), Ok ex)
| EffClear p :
    key = "exclude" -> slots m !! i = Some p ->
    markEffect mark key value i file ex m
      (mkMem (heap m) (<[i := None]> (slots m)), Ok ex)
| EffCollect :
    key = "exclusive-for-output" ->
    markEffect mark key value i file ex m (m, Ok (ex ++ [file]))
| EffErr e :
    e = ErrUnknownValue mark \/ e = ErrUnknownKey mark ->
    markEffect mark key value i file ex m (m, Err e)
| EffPanic :
    markEffect mark key value i file ex m (m, Panic).

(** ** The rest of the regular files source *)

(** The fields of [RegularFilesSourceOpts] the input step reads. *)
Record RegularFilesInputOpts : Type := mkInputOpts {
  optFiles : list string;
  optFileMarks : list string
}.

(** [Input]: the collaborator [files.NewSortedFilesFromPaths] is a
    parameter, returning the file objects it creates or an error; its
    slice holds their addresses in order.  The result is the [Files] field
    of the [TemplateInput], which is empty beside an error. *)
Definition Input (NewSortedFilesFromPaths : list string -> list File + error)
    (opts : RegularFilesInputOpts) : Mem * outcome (list FilePtr) :=
  match NewSortedFilesFromPaths (optFiles opts) with
  | inr err => (mkMem [] [], Err err)
  | inl fs => applyFileMarks (optFileMarks opts) (ingest fs)
  end.

(** ** Collections without a cleared slot *)

(** Every slot holds the address of a file object. *)
Definition liveMem (m : Mem) : Prop :=
  forall i p, slots m !! i = Some p -> exists a f, p = Some a /\ heap m !! a = Some f.

(** Does the pattern match the file a pointer designates? *)
Definition hits (path : string) (h : list File) (p : FilePtr) : bool :=
  match p with
  | Some a =>
      match h !! a with
      | Some f => matchesFile path f
      | None => false
      end
  | None => false
  end.

(** The heap in which [upd] has been applied to every file that a slot
    of [sl] designates and the pattern matches. *)
Definition updatedHits (path : string) (upd : File -> File)
    (sl : list FilePtr) (h h' : list File) : Prop :=
  length h' = length h /\
  forall a f, h !! a = Some f ->
    h' !! a = Some (if matchesFile path f && bool_decide (Some a ∈ sl)
                    then upd f else f).

(** The slot array in which the slots of matching files are cleared. *)
Definition clearHits (path : string) (h : list File) (sl : list FilePtr)
    : list FilePtr :=
  map (fun p => if hits path h p then None else p) sl.

(** The setter a mark applies to each file it matches, for the keys that
    write to the file: [path], [type] with one of the six values, and
    [for-output] with [true]. *)
Definition setterOf (key value : string) : option (File -> File) :=
  if String.eqb key "path" then Some (MarkRelativePath value)
  else if String.eqb key "type" then
    match assoc value typePairs with
    | Some (t, b) => Some (fun f => MarkTemplate b (MarkType t f))
    | None => None
    end
  else if String.eqb key "for-output" then
    if String.eqb value "true" then Some (MarkForOutput true) else None
  else None.

(** * Properties *)

(** ** Strings *)

#[local] Arguments String.append !s1 s2 : simpl nomatch.
#[local] Arguments String.prefix : simpl never.
#[local] Arguments strings.Replace1 : simpl never.
#[local] Arguments Ascii.eqb : simpl never.

(** Comparisons of two byte constants are computed away. *)
Ltac eqb_consts :=
  repeat match goal with
  | |- context [Ascii.eqb (Ascii ?a0 ?a1 ?a2 ?a3 ?a4 ?a5 ?a6 ?a7)
                          (Ascii ?b0 ?b1 ?b2 ?b3 ?b4 ?b5 ?b6 ?b7)] =>
      let x := constr:(Ascii.eqb (Ascii a0 a1 a2 a3 a4 a5 a6 a7)
                                 (Ascii b0 b1 b2 b3 b4 b5 b6 b7)) in
      let v := eval vm_compute in x in
      change x with v
  end.

Lemma Replace1_eq (s old new : string) :
  strings.Replace1 s old new =
  if String.prefix old s then new +:+ strings.drop (String.length old) s
  else match s with
       | EmptyString => EmptyString
       | String c s' => String c (strings.Replace1 s' old new)
       end.
Proof. destruct s; reflexivity. Qed.

Lemma append_assoc (a b c : string) : (a +:+ b) +:+ c = a +:+ (b +:+ c).
Proof. induction a as [|x a IH]; simpl; [reflexivity | now rewrite IH]. Qed.

Lemma append_empty_r (a : string) : a +:+ EmptyString = a.
Proof. induction a as [|x a IH]; simpl; [reflexivity | now rewrite IH]. Qed.

Lemma contains_false_neq (c d : ascii) (s : string) :
  strings.contains c s = false -> strings.contains d s = true -> c <> d.
Proof. intros H1 H2 ->. congruence. Qed.

Lemma special_backslash : regexp.isSpecial "\" = true.
Proof. reflexivity. Qed.

Lemma special_star : regexp.isSpecial "*" = true.
Proof. reflexivity. Qed.

(** A byte that is not special differs from each special one. *)
Lemma not_special_neq (c d : ascii) :
  regexp.isSpecial c = false -> regexp.isSpecial d = true -> c <> d.
Proof. apply contains_false_neq. Qed.

Lemma not_special_eqb (c d : ascii) :
  regexp.isSpecial c = false -> regexp.isSpecial d = true -> Ascii.eqb c d = false.
Proof. intros H1 H2. apply Ascii.eqb_neq. eauto using not_special_neq. Qed.

(** ** Quoting commutes with prefixes *)

Lemma prefix_nil (s : string) : String.prefix EmptyString s = true.
Proof. destruct s; reflexivity. Qed.

Lemma prefix_cons (a b : ascii) (s1 s2 : string) :
  String.prefix (String a s1) (String b s2) = Ascii.eqb a b && String.prefix s1 s2.
Proof.
  change (String.prefix (String a s1) (String b s2))
    with (if ascii_dec a b then String.prefix s1 s2 else false).
  destruct (ascii_dec a b) as [->|N].
  - now rewrite Ascii.eqb_refl.
  - apply Ascii.eqb_neq in N. now rewrite N.
Qed.

Lemma prefix_cons_nil (a : ascii) (s1 : string) :
  String.prefix (String a s1) EmptyString = false.
Proof. reflexivity. Qed.

Lemma prefix_QuoteMeta (n s : string) :
  String.prefix (regexp.QuoteMeta n) (regexp.QuoteMeta s) = String.prefix n s.
Proof.
  revert s. induction n as [|a n IH]; intros s.
  { now rewrite !prefix_nil. }
  destruct s as [|b s]; simpl.
  - destruct (regexp.isSpecial a); reflexivity.
  - rewrite (prefix_cons a b).
    destruct (regexp.isSpecial a) eqn:Ha, (regexp.isSpecial b) eqn:Hb;
      rewrite !prefix_cons, ?IH.
    + now rewrite Ascii.eqb_refl.
    + rewrite (Ascii.eqb_sym "\" b), (not_special_eqb b "\") by auto.
      rewrite (Ascii.eqb_sym a b), (not_special_eqb b a) by auto. reflexivity.
    + rewrite (not_special_eqb a "\"), (not_special_eqb a b) by auto. reflexivity.
    + reflexivity.
Qed.

Lemma drop_QuoteMeta (n s : string) :
  String.prefix n s = true ->
  strings.drop (String.length (regexp.QuoteMeta n)) (regexp.QuoteMeta s) =
  regexp.QuoteMeta (strings.drop (String.length n) s).
Proof.
  revert s. induction n as [|a n IH]; intros s H.
  - simpl. destruct (regexp.QuoteMeta s); reflexivity.
  - destruct s as [|b s]; [discriminate|]. rewrite prefix_cons in H.
    apply andb_prop in H as [Hab H]. apply Ascii.eqb_eq in Hab as <-.
    simpl. destruct (regexp.isSpecial a); simpl; auto.
Qed.

(** The text of a byte token sequence never begins with a star. *)
Lemma brender_head (ts : list btoken) (c : ascii) (r : string) :
  brender ts = String c r -> c <> "*"%char.
Proof.
  destruct ts as [|[d| |] ts]; simpl; try discriminate.
  - destruct (regexp.isSpecial d) eqn:Hd; simpl; intros [= <- _].
    + discriminate.
    + apply not_special_neq; auto.
  - intros [= <- _]. discriminate.
  - intros [= <- _]. discriminate.
Qed.

Lemma QuoteMeta_brender (s : string) : regexp.QuoteMeta s = brender (bliterals s).
Proof.
  induction s as [|c s IH]; [reflexivity|]. simpl.
  destruct (regexp.isSpecial c); simpl; now rewrite IH.
Qed.

(** ** The two replacements, on byte token sequences *)

Lemma prefix_quotedMulti (s : string) :
  String.prefix quotedMultiLevel (regexp.QuoteMeta s) = String.prefix "**/*" s.
Proof. apply prefix_QuoteMeta. Qed.

(** A quoted needle that begins with an escaped star is not found one
    byte into an escaped byte. *)
Lemma prefix_star_inside (old : string) (c : ascii) (ts : list btoken) :
  String.prefix (String "\" (String "*" old)) (String c (brender ts)) = false.
Proof.
  rewrite prefix_cons. destruct (Ascii.eqb "\" c); [|reflexivity]. simpl.
  destruct (brender ts) as [|d r] eqn:E; [reflexivity|].
  rewrite prefix_cons. apply brender_head in E.
  apply not_eq_sym, Ascii.eqb_neq in E. now rewrite E.
Qed.

Lemma Replace1_replaceMulti (s : string) :
  strings.Replace1 (regexp.QuoteMeta s) quotedMultiLevel ".+" = brender (replaceMulti s).
Proof.
  induction s as [|c s IH]; [reflexivity|].
  rewrite Replace1_eq, prefix_quotedMulti.
  change (replaceMulti (String c s))
    with (if String.prefix "**/*" (String c s)
          then BMulti :: bliterals (strings.drop 4 (String c s))
          else BLit c :: replaceMulti s).
  destruct (String.prefix "**/*" (String c s)) eqn:P.
  - unfold quotedMultiLevel. rewrite drop_QuoteMeta by exact P.
    simpl brender. now rewrite QuoteMeta_brender.
  - simpl. destruct (regexp.isSpecial c) eqn:Hc; simpl.
    + rewrite (Replace1_eq (String c _)). rewrite (QuoteMeta_brender s).
      change quotedMultiLevel with (String "\" (String "*" "\*/\*")) at 1.
      rewrite prefix_star_inside. rewrite <- QuoteMeta_brender.
      now rewrite IH.
    + now rewrite IH.
Qed.

Lemma Replace1_replaceSingle (ts : list btoken) :
  strings.Replace1 (brender ts) quotedSingleLevel "[^/]+" = brender (replaceSingle ts).
Proof.
  induction ts as [|t ts IH]; [reflexivity|].
  change quotedSingleLevel with (String "\" (String "*" EmptyString)) in *.
  destruct t as [c| |]; simpl.
  - destruct (regexp.isSpecial c) eqn:Hc; simpl.
    + rewrite Replace1_eq, !prefix_cons, prefix_nil, Ascii.eqb_refl.
      rewrite (Ascii.eqb_sym "*" c).
      destruct (Ascii.eqb c "*") eqn:E; simpl.
      * reflexivity.
      * rewrite Hc. simpl. rewrite Replace1_eq, prefix_star_inside. now rewrite IH.
    + rewrite Replace1_eq, prefix_cons.
      rewrite (Ascii.eqb_sym "\" c), (not_special_eqb c "\") by auto. simpl.
      rewrite (not_special_eqb c "*") by auto. simpl. rewrite Hc. simpl.
      now rewrite IH.
  - do 5 (rewrite Replace1_eq, prefix_cons; eqb_consts; simpl). now rewrite IH.
  - do 2 (rewrite Replace1_eq, prefix_cons; eqb_consts; simpl). now rewrite IH.
Qed.

(** The expression handed to the compiler, as a byte token sequence. *)
Lemma markRegexp_brender (path : string) :
  markRegexp path = "^" +:+ brender (replaceSingle (replaceMulti path)) +:+ "$".
Proof.
  unfold markRegexp.
  now rewrite Replace1_replaceMulti, Replace1_replaceSingle.
Qed.

(** ** UTF-8 *)

#[local] Arguments utf8.size : simpl never.
#[local] Arguments utf8.second : simpl never.
#[local] Arguments utf8.isCont : simpl never.
#[local] Arguments utf8.isASCII : simpl never.

Lemma decode_cons (s0 : ascii) (t : string) :
  utf8.decode (String s0 t) =
  match utf8.size s0, t with
  | 1, _ => utf8.Good (utf8.single s0) :: utf8.decode t
  | 2, String s1 t1 =>
      if utf8.second s0 s1
      then utf8.Good (String s0 (String s1 EmptyString)) :: utf8.decode t1
      else utf8.Bad s0 :: utf8.decode t
  | 3, String s1 (String s2 t2) =>
      if utf8.second s0 s1 && utf8.isCont s2
      then utf8.Good (String s0 (String s1 (String s2 EmptyString))) :: utf8.decode t2
      else utf8.Bad s0 :: utf8.decode t
  | 4, String s1 (String s2 (String s3 t3)) =>
      if utf8.second s0 s1 && utf8.isCont s2 && utf8.isCont s3
      then utf8.Good (String s0 (String s1 (String s2 (String s3 EmptyString))))
             :: utf8.decode t3
      else utf8.Bad s0 :: utf8.decode t
  | _, _ => utf8.Bad s0 :: utf8.decode t
  end.
Proof. reflexivity. Qed.

#[local] Opaque utf8.decode.

Lemma decode_nil : utf8.decode EmptyString = [].
Proof. reflexivity. Qed.

Lemma size_ASCII (c : ascii) : utf8.size c = 1 <-> utf8.isASCII c = true.
Proof.
  unfold utf8.size. destruct (utf8.isASCII c); [tauto|].
  destruct (utf8.between 194 223 c); [split; discriminate|].
  destruct (utf8.between 224 239 c); [split; discriminate|].
  destruct (utf8.between 240 244 c); split; discriminate.
Qed.

Lemma between_not_ASCII (lo hi : N) (c : ascii) :
  (128 <= lo)%N -> utf8.between lo hi c = true -> utf8.isASCII c = false.
Proof.
  unfold utf8.between, utf8.isASCII. intros Hlo H.
  apply andb_prop in H as [H _]. apply N.leb_le in H. apply N.ltb_ge. lia.
Qed.

Lemma isCont_not_ASCII (c : ascii) : utf8.isCont c = true -> utf8.isASCII c = false.
Proof. apply between_not_ASCII. lia. Qed.

Lemma second_not_ASCII (s0 c : ascii) : utf8.second s0 c = true -> utf8.isASCII c = false.
Proof.
  unfold utf8.second.
  repeat match goal with
  | |- context [if ?b then _ else _] => destruct b
  end; try apply isCont_not_ASCII; apply between_not_ASCII; lia.
Qed.

Lemma ASCII_not_cont (c : ascii) : utf8.isASCII c = true -> utf8.isCont c = false.
Proof.
  intros H. destruct (utf8.isCont c) eqn:E; [|reflexivity].
  apply isCont_not_ASCII in E. congruence.
Qed.

Lemma ASCII_not_second (s0 c : ascii) : utf8.isASCII c = true -> utf8.second s0 c = false.
Proof.
  intros H. destruct (utf8.second s0 c) eqn:E; [|reflexivity].
  apply second_not_ASCII in E. congruence.
Qed.

(** The decoder reads a rune without looking past it. *)
Lemma decode_good (r s : string) :
  utf8.isRune r = true -> utf8.decode (r +:+ s) = utf8.Good r :: utf8.decode s.
Proof.
  destruct r as [|s0 [|s1 [|s2 [|s3 [|s4 r]]]]]; simpl; try discriminate; intros H;
    rewrite decode_cons;
    repeat (apply andb_prop in H as [H ?]);
    apply Nat.eqb_eq in H; rewrite H;
    repeat match goal with E : _ = true |- _ => rewrite E; clear E end;
    reflexivity.
Qed.

(** At each position the decoder finds a rune, or drops one byte. *)
Lemma decode_head (c : ascii) (t : string) :
  (exists r t', String c t = r +:+ t' /\ r <> EmptyString /\ utf8.isRune r = true /\
                utf8.decode (String c t) = utf8.Good r :: utf8.decode t') \/
  utf8.decode (String c t) = utf8.Bad c :: utf8.decode t.
Proof.
  rewrite decode_cons.
  destruct (utf8.size c) as [|[|[|[|[|k]]]]] eqn:Hs; auto.
  - left. exists (utf8.single c), t. simpl. rewrite Hs. repeat split; auto; discriminate.
  - destruct t as [|s1 t1]; auto.
    destruct (utf8.second c s1) eqn:H1; auto.
    left. exists (String c (String s1 EmptyString)), t1. simpl. rewrite Hs, H1.
    repeat split; auto; discriminate.
  - destruct t as [|s1 [|s2 t2]]; auto.
    destruct (utf8.second c s1) eqn:H1, (utf8.isCont s2) eqn:H2; auto.
    left. exists (String c (String s1 (String s2 EmptyString))), t2. simpl.
    rewrite Hs, H1, H2. repeat split; auto; discriminate.
  - destruct t as [|s1 [|s2 [|s3 t3]]]; auto.
    destruct (utf8.second c s1) eqn:H1, (utf8.isCont s2) eqn:H2,
             (utf8.isCont s3) eqn:H3; auto.
    left. exists (String c (String s1 (String s2 (String s3 EmptyString)))), t3. simpl.
    rewrite Hs, H1, H2, H3. repeat split; auto; discriminate.
Qed.

Lemma length_append (a b : string) :
  String.length (a +:+ b) = String.length a + String.length b.
Proof. induction a as [|c a IH]; simpl; [reflexivity | now rewrite IH]. Qed.

(** Induction along the decoder. *)
Lemma decode_ind (P : string -> list utf8.piece -> Prop) :
  P EmptyString [] ->
  (forall r t, utf8.isRune r = true -> P t (utf8.decode t) ->
     P (r +:+ t) (utf8.Good r :: utf8.decode t)) ->
  (forall c t, utf8.decode (String c t) = utf8.Bad c :: utf8.decode t ->
     P t (utf8.decode t) -> P (String c t) (utf8.Bad c :: utf8.decode t)) ->
  forall s, P s (utf8.decode s).
Proof.
  intros H0 Hg Hb s.
  assert (forall n s, String.length s <= n -> P s (utf8.decode s)) as Str;
    [|now apply (Str (String.length s))].
  clear s. induction n as [|n IH]; intros s Hn.
  - destruct s; [exact H0 | simpl in Hn; lia].
  - destruct s as [|c t]; [exact H0|].
    destruct (decode_head c t) as [(r & t' & E & Hr & R & D)|D]; rewrite D.
    + rewrite E. apply Hg; [exact R|]. apply IH.
      apply (f_equal String.length) in E. rewrite length_append in E.
      destruct r; [congruence|]. simpl in *. lia.
    + apply Hb; [exact D|]. apply IH. simpl in Hn. lia.
Qed.

(** A string is the concatenation of its pieces. *)
Lemma join_decode (s : string) : join (map utf8.bytesOf (utf8.decode s)) = s.
Proof.
  apply (decode_ind (fun s l => join (map utf8.bytesOf l) = s)).
  - reflexivity.
  - intros r t _ IH. simpl. now rewrite IH.
  - intros c t _ IH. simpl. now rewrite IH.
Qed.

Lemma decode_runes (s : string) :
  Forall (fun p => match p with
                   | utf8.Good r => utf8.isRune r = true
                   | utf8.Bad _ => True
                   end) (utf8.decode s).
Proof.
  apply (decode_ind (fun _ l => Forall _ l)); intros; constructor; auto.
Qed.

(** The pieces of a valid string are its runes. *)
Lemma valid_decode (s : string) :
  utf8.ValidString s = true -> utf8.decode s = map utf8.Good (utf8.runes s).
Proof.
  unfold utf8.ValidString, utf8.runes.
  induction (utf8.decode s) as [|[r|b] l IH]; simpl; try discriminate; [reflexivity|].
  intros H. now rewrite <- IH.
Qed.

Lemma valid_runes (s : string) :
  utf8.ValidString s = true -> Forall (fun r => utf8.isRune r = true) (utf8.runes s).
Proof.
  intros V. pose proof (decode_runes s) as F. rewrite (valid_decode s V) in F.
  apply Forall_fmap in F. exact F.
Qed.

Lemma valid_join (s : string) : utf8.ValidString s = true -> join (utf8.runes s) = s.
Proof.
  intros V. rewrite <- (join_decode s) at 2. rewrite (valid_decode s V).
  rewrite map_map. simpl. now rewrite map_id.
Qed.

(** Two valid strings with the same runes are equal. *)
Lemma valid_runes_inj (s1 s2 : string) :
  utf8.ValidString s1 = true -> utf8.ValidString s2 = true ->
  utf8.runes s1 = utf8.runes s2 -> s1 = s2.
Proof.
  intros V1 V2 E. rewrite <- (valid_join s1 V1), <- (valid_join s2 V2). now rewrite E.
Qed.

(** A byte the decoder drops is dropped whatever follows the string, if
    what follows begins with an ASCII byte. *)
Lemma decode_bad_stable (c : ascii) (t b : string) :
  (forall d b', b = String d b' -> utf8.isASCII d = true) ->
  utf8.decode (String c t) = utf8.Bad c :: utf8.decode t ->
  utf8.decode (String c (t +:+ b)) = utf8.Bad c :: utf8.decode (t +:+ b).
Proof.
  intros Hb. rewrite !decode_cons.
  assert (forall d b', b = String d b' ->
            utf8.second c d = false /\ utf8.isCont d = false) as Hd.
  { intros d b' E. apply Hb in E. auto using ASCII_not_second, ASCII_not_cont. }
  destruct (utf8.size c) as [|[|[|[|[|k]]]]] eqn:Hs; auto; try discriminate.
  - destruct t as [|s1 t1]; simpl.
    + destruct b as [|d b']; auto. now rewrite (proj1 (Hd d b' eq_refl)).
    + destruct (utf8.second c s1); [discriminate | auto].
  - destruct t as [|s1 [|s2 t2]]; simpl.
    + destruct b as [|d [|d2 b']]; auto. now rewrite (proj1 (Hd d _ eq_refl)).
    + destruct b as [|d b']; auto.
      rewrite (proj2 (Hd d b' eq_refl)), andb_false_r. auto.
    + destruct (utf8.second c s1 && utf8.isCont s2); [discriminate | auto].
  - destruct t as [|s1 [|s2 [|s3 t3]]]; simpl.
    + destruct b as [|d [|d2 [|d3 b']]]; auto. now rewrite (proj1 (Hd d _ eq_refl)).
    + destruct b as [|d [|d2 b']]; auto.
      rewrite (proj2 (Hd d _ eq_refl)), andb_false_r. auto.
    + destruct b as [|d b']; auto.
      rewrite (proj2 (Hd d b' eq_refl)), andb_false_r. auto.
    + destruct (utf8.second c s1 && utf8.isCont s2 && utf8.isCont s3);
        [discriminate | auto].
Qed.

(** Decoding splits before an ASCII byte. *)
Lemma decode_app_ASCII (a b : string) :
  (forall d b', b = String d b' -> utf8.isASCII d = true) ->
  utf8.decode (a +:+ b) = utf8.decode a ++ utf8.decode b.
Proof.
  intros Hb.
  apply (decode_ind (fun a l => utf8.decode (a +:+ b) = l ++ utf8.decode b)).
  - reflexivity.
  - intros r t R IH. rewrite append_assoc, decode_good by exact R. now rewrite IH.
  - intros c t D IH. simpl. rewrite decode_bad_stable by assumption. now rewrite IH.
Qed.

Lemma decode_ASCII (c : ascii) (s : string) :
  utf8.isASCII c = true ->
  utf8.decode (String c s) = utf8.Good (utf8.single c) :: utf8.decode s.
Proof. intros H. apply size_ASCII in H. now rewrite decode_cons, H. Qed.

Lemma valid_app_ASCII (a b : string) :
  (forall d b', b = String d b' -> utf8.isASCII d = true) ->
  utf8.ValidString (a +:+ b) = utf8.ValidString a && utf8.ValidString b.
Proof.
  intros Hb. unfold utf8.ValidString. rewrite decode_app_ASCII by exact Hb.
  apply forallb_app.
Qed.

Lemma valid_ASCII (c : ascii) (s : string) :
  utf8.isASCII c = true -> utf8.ValidString (String c s) = utf8.ValidString s.
Proof. intros H. unfold utf8.ValidString. now rewrite decode_ASCII. Qed.

Lemma runes_ASCII (c : ascii) (s : string) :
  utf8.isASCII c = true -> utf8.runes (String c s) = utf8.single c :: utf8.runes s.
Proof. intros H. unfold utf8.runes. now rewrite decode_ASCII. Qed.

Lemma runes_app_ASCII (a b : string) :
  (forall d b', b = String d b' -> utf8.isASCII d = true) ->
  utf8.runes (a +:+ b) = utf8.runes a ++ utf8.runes b.
Proof.
  intros Hb. unfold utf8.runes. rewrite decode_app_ASCII by exact Hb. apply map_app.
Qed.

(** The bytes of a rune: one ASCII byte, or bytes none of which is. *)
Lemma isRune_cases (r : string) :
  utf8.isRune r = true ->
  (exists c, r = utf8.single c /\ utf8.isASCII c = true) \/
  (String.length r <> 1 /\ forall c, strings.contains c r = true -> utf8.isASCII c = false).
Proof.
  assert (forall c n, utf8.size c = S (S n) -> utf8.isASCII c = false) as Lead.
  { intros c n H. destruct (utf8.isASCII c) eqn:E; [|reflexivity].
    apply size_ASCII in E. congruence. }
  destruct r as [|s0 [|s1 [|s2 [|s3 [|s4 r]]]]]; simpl; try discriminate; intros H.
  - left. exists s0. split; [reflexivity|]. apply size_ASCII. now apply Nat.eqb_eq.
  - right. split; [discriminate|]. repeat (apply andb_prop in H as [H ?]).
    apply Nat.eqb_eq in H. intros c Hc.
    repeat (apply orb_prop in Hc as [Hc|Hc]; [apply Ascii.eqb_eq in Hc as <-|]);
      eauto using second_not_ASCII, isCont_not_ASCII; discriminate.
  - right. split; [discriminate|]. repeat (apply andb_prop in H as [H ?]).
    apply Nat.eqb_eq in H. intros c Hc.
    repeat (apply orb_prop in Hc as [Hc|Hc]; [apply Ascii.eqb_eq in Hc as <-|]);
      eauto using second_not_ASCII, isCont_not_ASCII; discriminate.
  - right. split; [discriminate|]. repeat (apply andb_prop in H as [H ?]).
    apply Nat.eqb_eq in H. intros c Hc.
    repeat (apply orb_prop in Hc as [Hc|Hc]; [apply Ascii.eqb_eq in Hc as <-|]);
      eauto using second_not_ASCII, isCont_not_ASCII; discriminate.
Qed.

(** ** Bytes and runes of a pattern *)

Lemma special_ASCII (c : ascii) : regexp.isSpecial c = true -> utf8.isASCII c = true.
Proof.
  unfold regexp.isSpecial, regexp.special. simpl. intros H.
  repeat (apply orb_prop in H as [H|H]; [apply Ascii.eqb_eq in H as <-; reflexivity|]).
  discriminate.
Qed.

Lemma not_ASCII_not_special (c : ascii) :
  utf8.isASCII c = false -> regexp.isSpecial c = false.
Proof.
  intros H. destruct (regexp.isSpecial c) eqn:E; [|reflexivity].
  apply special_ASCII in E. congruence.
Qed.

Lemma bliterals_app (s1 s2 : string) :
  bliterals (s1 +:+ s2) = bliterals s1 ++ bliterals s2.
Proof. induction s1 as [|c s1 IH]; simpl; [reflexivity | now rewrite IH]. Qed.

Lemma brender_app (l1 l2 : list btoken) : brender (l1 ++ l2) = brender l1 +:+ brender l2.
Proof.
  induction l1 as [|t l1 IH]; simpl; [reflexivity|]. now rewrite IH, append_assoc.
Qed.

Lemma bliterals_join (rs : list utf8.rune) :
  bliterals (join rs) = concat (map tokenBytes (map TLit rs)).
Proof.
  induction rs as [|r rs IH]; simpl; [reflexivity|]. now rewrite bliterals_app, IH.
Qed.

Lemma replaceMulti_cons (c : ascii) (s : string) :
  replaceMulti (String c s) =
  if String.prefix "**/*" (String c s)
  then BMulti :: bliterals (strings.drop 4 (String c s))
  else BLit c :: replaceMulti s.
Proof. reflexivity. Qed.

Lemma replaceMulti_no_star (r s : string) :
  strings.contains "*" r = false ->
  replaceMulti (r +:+ s) = bliterals r ++ replaceMulti s.
Proof.
  induction r as [|c r IH]; [reflexivity|]. intros H. simpl in H.
  apply orb_false_elim in H as [Hc H].
  change (String c r +:+ s) with (String c (r +:+ s)).
  rewrite replaceMulti_cons, prefix_cons, (Ascii.eqb_sym "*" c), Hc. simpl.
  now rewrite IH.
Qed.

Lemma replaceSingle_no_star (r : string) (ts : list btoken) :
  strings.contains "*" r = false ->
  replaceSingle (bliterals r ++ ts) = bliterals r ++ replaceSingle ts.
Proof.
  induction r as [|c r IH]; [reflexivity|]. simpl. intros H.
  apply orb_false_elim in H as [Hc H]. rewrite Hc. now rewrite IH.
Qed.

(** A rune other than the star has no star among its bytes. *)
Lemma rune_no_star (r : string) :
  utf8.isRune r = true -> r <> "*" -> strings.contains "*" r = false.
Proof.
  intros R N. destruct (strings.contains "*" r) eqn:E; [|reflexivity].
  destruct (isRune_cases r R) as [(c & -> & _)|[_ H]].
  - simpl in E. rewrite orb_false_r in E. apply Ascii.eqb_eq in E as ->.
    exfalso. now apply N.
  - apply H in E. discriminate.
Qed.

Lemma hasPrefix_true (n l : list utf8.rune) :
  hasPrefix n l = true -> l = n ++ drop (length n) l.
Proof.
  revert l. induction n as [|a n IH]; intros l; [reflexivity|].
  destruct l as [|b l]; simpl; [discriminate|]. intros H.
  apply andb_prop in H as [E H]. apply String.eqb_eq in E as <-.
  f_equal. now apply IH.
Qed.

(** An ASCII needle is found at the head of the bytes exactly when its
    runes are found at the head of the runes. *)
Lemma prefix_join (n : string) (rs : list utf8.rune) :
  (forall c, strings.contains c n = true -> utf8.isASCII c = true) ->
  Forall (fun r => utf8.isRune r = true) rs ->
  String.prefix n (join rs) = hasPrefix (map utf8.single (list_ascii_of_string n)) rs.
Proof.
  revert rs. induction n as [|a n IH]; intros rs Hn F.
  { now rewrite prefix_nil. }
  assert (utf8.isASCII a = true) as Ha.
  { apply Hn. simpl. now rewrite Ascii.eqb_refl. }
  assert (forall c, strings.contains c n = true -> utf8.isASCII c = true) as Hn'.
  { intros c Hc. apply Hn. simpl. rewrite Hc. apply orb_true_r. }
  destruct F as [|r rs R F]; [reflexivity|].
  simpl list_ascii_of_string. simpl map. simpl hasPrefix. simpl join.
  destruct (isRune_cases r R) as [(c & -> & Hc)|[Hl Hr]].
  - simpl. rewrite prefix_cons, IH by assumption.
    unfold utf8.single. simpl String.eqb.
    destruct (Ascii.eqb a c); reflexivity.
  - destruct r as [|b r]; [discriminate|]. simpl. rewrite prefix_cons.
    assert (Ascii.eqb a b = false) as ->.
    { apply Ascii.eqb_neq. intros <-.
      rewrite Hr in Ha; [discriminate|]. simpl. now rewrite Ascii.eqb_refl. }
    reflexivity.
Qed.

Lemma multiLevel_runes : multiLevel = map utf8.single (list_ascii_of_string "**/*").
Proof. reflexivity. Qed.

Lemma prefix_multiLevel (rs : list utf8.rune) :
  Forall (fun r => utf8.isRune r = true) rs ->
  String.prefix "**/*" (join rs) = hasPrefix multiLevel rs.
Proof.
  intros F. rewrite multiLevel_runes. apply prefix_join; [|exact F].
  intros c H. simpl in H.
  repeat (apply orb_prop in H as [H|H]; [apply Ascii.eqb_eq in H as <-; reflexivity|]).
  discriminate.
Qed.

(** The first replacement, on the bytes and on the runes. *)
Lemma replaceMulti_join (rs : list utf8.rune) :
  Forall (fun r => utf8.isRune r = true) rs ->
  replaceMulti (join rs) = concat (map tokenBytes (firstMulti rs)).
Proof.
  induction 1 as [|r rs R F IH]; [reflexivity|].
  pose proof (prefix_multiLevel (r :: rs) (Forall_cons_2 _ _ _ R F)) as P.
  change (firstMulti (r :: rs))
    with (if hasPrefix multiLevel (r :: rs) then TMulti :: map TLit (drop 4 (r :: rs))
          else TLit r :: firstMulti rs).
  destruct (hasPrefix multiLevel (r :: rs)) eqn:H.
  - apply hasPrefix_true in H. simpl length in H. rewrite H.
    change (drop 4 (multiLevel ++ drop 4 (r :: rs))) with (drop 4 (r :: rs)).
    change (join (multiLevel ++ drop 4 (r :: rs)))
      with (String "*" (String "*" (String "/" (String "*" (join (drop 4 (r :: rs))))))).
    rewrite replaceMulti_cons, !prefix_cons, prefix_nil. eqb_consts.
    simpl. now rewrite bliterals_join.
  - simpl map. simpl concat. simpl join. simpl join in P.
    destruct (String.eqb_spec r "*") as [->|N].
    + change ("*" +:+ join rs) with (String "*" (join rs)) in *.
      rewrite replaceMulti_cons, P. simpl. now rewrite IH.
    + rewrite replaceMulti_no_star by (now apply rune_no_star). now rewrite IH.
Qed.

Lemma firstMulti_runeTokens (rs : list utf8.rune) :
  Forall (fun r => utf8.isRune r = true) rs -> runeTokens (firstMulti rs).
Proof.
  induction 1 as [|r rs R F IH]; [constructor|].
  change (firstMulti (r :: rs))
    with (if hasPrefix multiLevel (r :: rs) then TMulti :: map TLit (drop 4 (r :: rs))
          else TLit r :: firstMulti rs).
  destruct (hasPrefix multiLevel (r :: rs)).
  - constructor; [exact I|]. apply Forall_fmap.
    apply Forall_drop. now constructor.
  - now constructor.
Qed.

Lemma firstSingle_runeTokens (ts : list token) :
  runeTokens ts -> runeTokens (firstSingle ts).
Proof.
  induction 1 as [|[r| |] ts R F IH]; simpl; try (now constructor).
  destruct (String.eqb r "*"); now constructor.
Qed.

(** The second replacement, on the bytes and on the runes. *)
Lemma replaceSingle_tokens (ts : list token) :
  runeTokens ts ->
  replaceSingle (concat (map tokenBytes ts)) = concat (map tokenBytes (firstSingle ts)).
Proof.
  induction 1 as [|[r| |] ts R F IH]; simpl; [reflexivity| |now rewrite IH..].
  destruct (String.eqb_spec r "*") as [->|N]; [reflexivity|].
  rewrite replaceSingle_no_star by (now apply rune_no_star). simpl. now rewrite IH.
Qed.

Lemma QuoteMeta_no_special (r : string) :
  (forall c, strings.contains c r = true -> regexp.isSpecial c = false) ->
  regexp.QuoteMeta r = r.
Proof.
  induction r as [|c r IH]; [reflexivity|]. intros H. simpl.
  rewrite (H c) by (simpl; now rewrite Ascii.eqb_refl).
  rewrite IH; [reflexivity|]. intros d Hd. apply H. simpl. rewrite Hd. apply orb_true_r.
Qed.

Lemma QuoteMeta_app (a b : string) :
  regexp.QuoteMeta (a +:+ b) = regexp.QuoteMeta a +:+ regexp.QuoteMeta b.
Proof.
  induction a as [|c a IH]; [reflexivity|]. simpl.
  destruct (regexp.isSpecial c); simpl; now rewrite IH.
Qed.

Lemma brender_bliterals (r : string) (ts : list btoken) :
  brender (bliterals r ++ ts) = regexp.QuoteMeta r +:+ brender ts.
Proof. now rewrite brender_app, <- QuoteMeta_brender. Qed.

(** The pieces of the text of a token sequence are the runes of its
    tokens. *)
Lemma decode_brender (ts : list token) (rest : string) :
  runeTokens ts ->
  utf8.decode (brender (concat (map tokenBytes ts)) +:+ rest) =
  map utf8.Good (render ts) ++ utf8.decode rest.
Proof.
  unfold render.
  induction 1 as [|[r| |] ts R F IH]; [reflexivity| | |].
  - simpl map. simpl concat. simpl tokenBytes.
    rewrite brender_bliterals, append_assoc.
    destruct (isRune_cases r R) as [(c & -> & Hc)|[Hl Hr]].
    + unfold utf8.single. simpl. destruct (regexp.isSpecial c) eqn:Hs; simpl.
      * rewrite (decode_ASCII "\") by reflexivity. rewrite decode_ASCII by exact Hc.
        now rewrite IH.
      * rewrite decode_ASCII by exact Hc. now rewrite IH.
    + rewrite QuoteMeta_no_special by (intros c Hc; apply not_ASCII_not_special; auto).
      rewrite decode_good by exact R. rewrite IH.
      assert (regexp.isSpecialRune r = false) as ->; [|reflexivity].
      destruct r as [|c [|d r]]; simpl in *; congruence.
  - simpl. rewrite !decode_ASCII by reflexivity. now rewrite IH.
  - simpl. rewrite !decode_ASCII by reflexivity. now rewrite IH.
Qed.

(** The runes of the expression handed to the compiler. *)
Lemma decode_markRegexp (path : string) :
  utf8.ValidString path = true ->
  utf8.decode (markRegexp path) =
  map utf8.Good ("^" :: render (firstWildcards path) ++ ["$"]).
Proof.
  intros V. rewrite markRegexp_brender.
  pose proof (valid_runes path V) as R.
  rewrite <- (valid_join path V) at 1.
  rewrite replaceMulti_join by exact R.
  rewrite replaceSingle_tokens by (now apply firstMulti_runeTokens).
  change ("^" +:+ ?x +:+ "$") with (String "^" (x +:+ "$")).
  rewrite decode_ASCII by reflexivity.
  rewrite decode_brender by (now apply firstSingle_runeTokens, firstMulti_runeTokens).
  simpl. rewrite map_app. reflexivity.
Qed.

(** ** The compiler accepts the expression of a valid pattern *)

Lemma lex_cons (c : utf8.rune) (s1 : list utf8.rune) :
  regexp.lex (c :: s1) =
  if String.eqb c "\" then
    match s1 with
    | d :: s2 =>
        if regexp.isSpecialRune d
        then cons (regexp.LAtom (regexp.CLit d)) <$> regexp.lex s2 else None
    | [] => None
    end
  else if String.eqb c "[" then
    match s1 with
    | a :: d :: b :: s4 =>
        if String.eqb a "^" && String.eqb b "]"
           && negb (regexp.isSpecialRune d) && negb (String.eqb d "-")
        then cons (regexp.LAtom (regexp.CNeg d)) <$> regexp.lex s4
        else None
    | _ => None
    end
  else if String.eqb c "." then cons (regexp.LAtom regexp.CDot) <$> regexp.lex s1
  else if String.eqb c "+" then cons regexp.LPlus <$> regexp.lex s1
  else if String.eqb c "^" then cons regexp.LBol <$> regexp.lex s1
  else if String.eqb c "$" then cons regexp.LEol <$> regexp.lex s1
  else if regexp.isSpecialRune c then None
  else cons (regexp.LAtom (regexp.CLit c)) <$> regexp.lex s1.
Proof. reflexivity. Qed.

#[local] Opaque regexp.lex.

(** A rune that is not special differs from each special one. *)
Lemma not_specialRune_eqb (r d : utf8.rune) :
  regexp.isSpecialRune r = false -> regexp.isSpecialRune d = true ->
  String.eqb r d = false.
Proof. intros H1 H2. apply String.eqb_neq. intros ->. congruence. Qed.

Lemma lex_literal (r : utf8.rune) (rest : list utf8.rune) :
  regexp.isSpecialRune r = false ->
  regexp.lex (r :: rest) =
  cons (regexp.LAtom (regexp.CLit r)) <$> regexp.lex rest.
Proof.
  intros Hr. rewrite lex_cons, Hr.
  now rewrite !(not_specialRune_eqb r) by auto.
Qed.

Lemma lex_render (ts : list token) (rest : list utf8.rune) :
  regexp.lex (render ts ++ rest) =
  app (concat (map lexemesOf ts)) <$> regexp.lex rest.
Proof.
  unfold render. induction ts as [|t ts IH]; simpl.
  - now destruct (regexp.lex rest).
  - rewrite <- app_assoc. destruct t as [r| |]; simpl.
    + destruct (regexp.isSpecialRune r) eqn:Hr; simpl.
      * rewrite lex_cons. simpl. rewrite Hr, IH. now destruct (regexp.lex rest).
      * rewrite lex_literal, IH by exact Hr. now destruct (regexp.lex rest).
    + rewrite lex_cons. simpl. rewrite lex_cons. simpl. rewrite IH.
      now destruct (regexp.lex rest).
    + rewrite lex_cons. simpl. rewrite lex_cons. simpl. rewrite IH.
      now destruct (regexp.lex rest).
Qed.

Lemma lexemes_no_plus (ts : list token) (l : list regexp.lexeme) :
  startsWithPlus l = false ->
  startsWithPlus (concat (map lexemesOf ts) ++ l) = false.
Proof. destruct ts as [|[c| |] ts]; simpl; auto. Qed.

Lemma items_tokens (ts : list token) (l : list regexp.lexeme) :
  startsWithPlus l = false ->
  regexp.items (concat (map lexemesOf ts) ++ l) =
  app (map itemOf ts) <$> regexp.items l.
Proof.
  intros Hl. induction ts as [|t ts IH]; simpl.
  - now destruct (regexp.items l).
  - destruct t as [c| |]; simpl.
    + pose proof (lexemes_no_plus ts l Hl) as Hp.
      destruct (concat (map lexemesOf ts) ++ l)%list as [|[k| | |] l'] eqn:E;
        try discriminate; rewrite IH; now destruct (regexp.items l).
    + rewrite IH. now destruct (regexp.items l).
    + rewrite IH. now destruct (regexp.items l).
Qed.

Lemma runes_Good (l : list utf8.rune) : map utf8.runeOf (map utf8.Good l) = l.
Proof. rewrite map_map. apply map_id. Qed.

Lemma forallb_Good (l : list utf8.rune) : forallb utf8.isGood (map utf8.Good l) = true.
Proof. induction l; simpl; auto. Qed.

Lemma Compile_markRegexp (path : string) :
  utf8.ValidString path = true ->
  regexp.Compile (markRegexp path) =
  Some (regexp.Bol :: map itemOf (firstWildcards path) ++ [regexp.Eol]).
Proof.
  intros V. unfold regexp.Compile, utf8.ValidString, utf8.runes.
  rewrite decode_markRegexp by exact V. rewrite forallb_Good, runes_Good.
  rewrite lex_cons. simpl. rewrite lex_render.
  change (regexp.lex ["$"]) with (Some [regexp.LEol]). simpl.
  rewrite items_tokens by reflexivity. reflexivity.
Qed.

(** ** The compiler refuses the expression of any other pattern *)

Lemma bsource_bliterals (s : string) : bsource (bliterals s) = s.
Proof. induction s as [|c s IH]; simpl; [reflexivity | now rewrite IH]. Qed.

Lemma prefix_drop (n s : string) :
  String.prefix n s = true -> s = n +:+ strings.drop (String.length n) s.
Proof.
  revert s. induction n as [|a n IH]; intros s H.
  - destruct s; reflexivity.
  - destruct s as [|b s]; [discriminate|]. rewrite prefix_cons in H.
    apply andb_prop in H as [E H]. apply Ascii.eqb_eq in E as <-.
    simpl. f_equal. now apply IH.
Qed.

(** The byte tokens of a pattern stand for the pattern. *)
Lemma bsource_replaceMulti (s : string) : bsource (replaceMulti s) = s.
Proof.
  induction s as [|c s IH]; [reflexivity|]. rewrite replaceMulti_cons.
  destruct (String.prefix "**/*" (String c s)) eqn:P.
  - apply prefix_drop in P. simpl bsource. rewrite bsource_bliterals.
    symmetry. exact P.
  - simpl. now rewrite IH.
Qed.

Lemma bsource_replaceSingle (ts : list btoken) :
  bsource (replaceSingle ts) = bsource ts.
Proof.
  induction ts as [|[c| |] ts IH]; simpl; try (now rewrite IH).
  - reflexivity.
  - destruct (Ascii.eqb c "*") eqn:E; simpl; [|now rewrite IH].
    apply Ascii.eqb_eq in E as ->. reflexivity.
Qed.

(** The text of a byte token sequence is valid exactly when the pattern
    it stands for is: both have the same bytes outside ASCII, between
    ASCII bytes. *)
Lemma valid_brender (ts : list btoken) (u : string) :
  utf8.ValidString (u +:+ brender ts +:+ "$") = utf8.ValidString (u +:+ bsource ts).
Proof.
  revert u. induction ts as [|t ts IH]; intros u.
  - simpl. rewrite valid_app_ASCII by (now intros d b' [= <- _]).
    rewrite append_empty_r. apply andb_true_r.
  - assert (forall a b x y,
              utf8.isASCII a = true -> utf8.isASCII b = true ->
              utf8.ValidString x = utf8.ValidString y ->
              utf8.ValidString (u +:+ String a x) = utf8.ValidString (u +:+ String b y))
      as Step.
    { intros a b x y Ha Hb E.
      rewrite !valid_app_ASCII by (intros d b' [= <- _]; assumption).
      now rewrite !valid_ASCII, E by assumption. }
    destruct t as [c| |]; simpl.
    + destruct (utf8.isASCII c) eqn:Hc.
      * destruct (regexp.isSpecial c); simpl.
        -- apply Step; auto. rewrite valid_ASCII by exact Hc. apply (IH EmptyString).
        -- apply Step; auto. apply (IH EmptyString).
      * rewrite (not_ASCII_not_special c Hc). simpl.
        specialize (IH (u +:+ String c EmptyString)).
        rewrite !append_assoc in IH. exact IH.
    + apply Step; auto.
      rewrite !valid_ASCII by reflexivity. apply (IH EmptyString).
    + apply Step; auto.
      rewrite !valid_ASCII by reflexivity. apply (IH EmptyString).
Qed.

Lemma valid_markRegexp (path : string) :
  utf8.ValidString (markRegexp path) = utf8.ValidString path.
Proof.
  rewrite markRegexp_brender.
  change ("^" +:+ ?x +:+ "$") with (String "^" (x +:+ "$")).
  rewrite valid_ASCII by reflexivity.
  etransitivity; [apply (valid_brender _ EmptyString)|]. simpl.
  now rewrite bsource_replaceSingle, bsource_replaceMulti.
Qed.

Lemma Compile_invalid (path : string) :
  utf8.ValidString path = false -> regexp.Compile (markRegexp path) = None.
Proof. intros V. unfold regexp.Compile. now rewrite valid_markRegexp, V. Qed.

(** [MustCompile] accepts the expressions of the valid patterns, and no
    other. *)
Lemma compiles_valid (path : string) : compiles path = utf8.ValidString path.
Proof.
  unfold compiles. destruct (utf8.ValidString path) eqn:V.
  - now rewrite Compile_markRegexp.
  - now rewrite Compile_invalid.
Qed.

(** ** The matcher decides [GlobMatch] *)

Lemma matchHere_Many (k : regexp.cls) (r : regexp.Regexp) (b : bool)
    (s : list utf8.rune) :
  regexp.matchHere (regexp.Many k :: r) b s =
  match s with
  | c :: s' =>
      regexp.inClass k c
      && (regexp.matchHere r false s' || regexp.matchHere (regexp.Many k :: r) false s')
  | [] => false
  end.
Proof. destruct s; reflexivity. Qed.

Lemma matchFrom_Bol (r : regexp.Regexp) (s : list utf8.rune) :
  regexp.matchFrom (regexp.Bol :: r) false s = false.
Proof. induction s as [|c s IH]; simpl; auto. Qed.

Lemma MatchString_anchored (r : regexp.Regexp) (s : string) :
  regexp.MatchString (regexp.Bol :: r) s = regexp.matchHere r true (utf8.runes s).
Proof.
  unfold regexp.MatchString. destruct (utf8.runes s) as [|c l]; simpl.
  - apply orb_false_r.
  - rewrite matchFrom_Bol. apply orb_false_r.
Qed.

(** One or more runes of a class, then the rest of the expression. *)
Lemma matchHere_Many_spec (k : regexp.cls) (r : regexp.Regexp) (b : bool)
    (s : list utf8.rune) :
  regexp.matchHere (regexp.Many k :: r) b s = true <->
  exists w s', w <> [] /\ forallb (regexp.inClass k) w = true /\
               s = w ++ s' /\ regexp.matchHere r false s' = true.
Proof.
  revert b. induction s as [|c s IH]; intros b; rewrite matchHere_Many.
  - split; [discriminate|]. intros (w & s' & Hw & _ & E & _).
    destruct w; [congruence | discriminate].
  - split.
    + intros H. apply andb_prop in H as [Hc H]. apply orb_prop in H as [H|H].
      * exists [c], s. simpl. rewrite Hc. repeat split; auto; discriminate.
      * apply IH in H as (w & s' & _ & Hall & -> & Hr).
        exists (c :: w), s'. simpl. rewrite Hc, Hall. repeat split; auto; discriminate.
    + intros (w & s' & Hw & Hall & E & Hr).
      destruct w as [|x w]; [congruence|]. simpl in E, Hall. injection E as -> ->.
      apply andb_prop in Hall as [Hc Hall]. rewrite Hc. simpl.
      destruct w as [|y w].
      * simpl. now rewrite Hr.
      * apply orb_true_intro. right. apply (IH false).
        exists (y :: w), s'. repeat split; auto; discriminate.
Qed.

Lemma matchHere_tokens (ts : list token) (b : bool) (s : list utf8.rune) :
  regexp.matchHere (map itemOf ts ++ [regexp.Eol]) b s = true <->
  GlobMatch notNewline ts s.
Proof.
  revert b s. induction ts as [|t ts IH]; intros b s.
  - destruct s; simpl; split; intros H; try constructor; try discriminate.
    inversion H.
  - destruct t as [c| |]; simpl map; simpl app.
    + destruct s as [|d s]; simpl.
      * split; [discriminate | intros H; inversion H].
      * split.
        -- intros H. apply andb_prop in H as [Hc H].
           apply String.eqb_eq in Hc as ->. constructor. now apply (IH false).
        -- intros H. inversion H; subst. rewrite String.eqb_refl. simpl.
           now apply IH.
    + rewrite matchHere_Many_spec. split.
      * intros (w & s' & Hw & Hall & -> & Hr). constructor; auto. now apply (IH false).
      * intros H. inversion H; subst. eexists _, _. repeat split; eauto. now apply IH.
    + rewrite matchHere_Many_spec. split.
      * intros (w & s' & Hw & Hall & -> & Hr). constructor; auto. now apply (IH false).
      * intros H. inversion H; subst. eexists _, _. repeat split; eauto. now apply IH.
Qed.

(** On a valid pattern the matcher does not panic in [MustCompile], and
    it decides the token reading of the pattern. *)
Lemma pathMatches_spec (path original : string) :
  utf8.ValidString path = true ->
  exists b, pathMatches path original = Some b /\
            (b = true <-> GlobMatch notNewline (firstWildcards path) (utf8.runes original)).
Proof.
  intros V. unfold pathMatches. rewrite Compile_markRegexp by exact V. simpl.
  eexists. split; [reflexivity|].
  rewrite MatchString_anchored. apply matchHere_tokens.
Qed.

(** On any other pattern it panics there. *)
Lemma pathMatches_invalid (path original : string) :
  utf8.ValidString path = false -> pathMatches path original = None.
Proof. intros V. unfold pathMatches. now rewrite Compile_invalid. Qed.

Lemma pathMatches_compiles (path original : string) :
  pathMatches path original = None <-> compiles path = false.
Proof.
  unfold pathMatches, compiles.
  destruct (regexp.Compile (markRegexp path)); simpl; split; congruence.
Qed.

(** Literal token sequences match exactly their own runes. *)
Lemma GlobMatch_literals (multi : utf8.rune -> bool) (p s : list utf8.rune) :
  GlobMatch multi (map TLit p) s <-> p = s.
Proof.
  revert s. induction p as [|c p IH]; intros s; simpl.
  - split; intros H; [now inversion H | subst; constructor].
  - split; intros H.
    + inversion H; subst. f_equal. now apply IH.
    + subst. constructor. now apply IH.
Qed.

Lemma firstMulti_cons (r : utf8.rune) (rs : list utf8.rune) :
  firstMulti (r :: rs) =
  if hasPrefix multiLevel (r :: rs) then TMulti :: map TLit (drop 4 (r :: rs))
  else TLit r :: firstMulti rs.
Proof. reflexivity. Qed.

Lemma hasPrefix_multiLevel_head (r : utf8.rune) (rs : list utf8.rune) :
  r <> "*" -> hasPrefix multiLevel (r :: rs) = false.
Proof.
  intros N.
  change (hasPrefix multiLevel (r :: rs))
    with (String.eqb "*" r && hasPrefix ["*"; "/"; "*"] rs).
  apply not_eq_sym, String.eqb_neq in N. now rewrite N.
Qed.

Lemma firstMulti_no_star (p : list utf8.rune) :
  ~ In "*" p -> firstMulti p = map TLit p.
Proof.
  induction p as [|c p IH]; [reflexivity|]. intros H.
  rewrite firstMulti_cons, hasPrefix_multiLevel_head by (intros ->; apply H; now left).
  simpl. rewrite IH; [reflexivity|]. intros I. apply H. now right.
Qed.

Lemma firstSingle_literals_app (pre : list utf8.rune) (ts : list token) :
  ~ In "*" pre ->
  firstSingle (map TLit pre ++ ts) = map TLit pre ++ firstSingle ts.
Proof.
  induction pre as [|c pre IH]; [reflexivity|]. intros H. simpl.
  destruct (String.eqb_spec c "*") as [->|N]; [exfalso; apply H; now left|].
  rewrite IH; [reflexivity|]. intros I. apply H. now right.
Qed.

Lemma firstSingle_no_star (p : list utf8.rune) :
  ~ In "*" p -> firstSingle (map TLit p) = map TLit p.
Proof.
  intros H. rewrite <- (app_nil_r (map TLit p)) at 1.
  rewrite firstSingle_literals_app by exact H. simpl. apply app_nil_r.
Qed.

Lemma contains_app (c : ascii) (a b : string) :
  strings.contains c (a +:+ b) = strings.contains c a || strings.contains c b.
Proof.
  induction a as [|d a IH]; [reflexivity|]. simpl. rewrite IH. apply orb_assoc.
Qed.

(** A string without the byte of the star has no star among its runes. *)
Lemma runes_no_star (s : string) :
  strings.contains "*" s = false -> ~ In "*" (utf8.runes s).
Proof.
  unfold utf8.runes.
  apply (decode_ind (fun s l => strings.contains "*" s = false ->
                                ~ In "*" (map utf8.runeOf l))).
  - intros _ [].
  - intros r t _ IH H. rewrite contains_app in H. apply orb_false_elim in H as [Hr Ht].
    simpl. intros [->|I]; [discriminate | now apply IH].
  - intros c t _ IH H. simpl in H. apply orb_false_elim in H as [_ Ht].
    simpl. intros [E|I]; [discriminate | now apply IH].
Qed.

Lemma firstWildcards_no_star (p : string) :
  strings.contains "*" p = false -> firstWildcards p = map TLit (utf8.runes p).
Proof.
  intros H. apply runes_no_star in H. unfold firstWildcards.
  now rewrite firstMulti_no_star, firstSingle_no_star.
Qed.
(** ** The memory under the applier *)

Lemma fileStep_refl (f : File) : fileStep f f.
Proof. split; auto. Qed.

Lemma fileStep_trans (f g h : File) : fileStep f g -> fileStep g h -> fileStep f h.
Proof.
  intros [E1 P1] [E2 P2]. split; [congruence|].
  destruct P2 as [P2|P2]; [|now right]. rewrite P2. exact P1.
Qed.

Lemma slotStep_refl (p : FilePtr) : slotStep p p.
Proof. now left. Qed.

Lemma slotStep_trans (p q r : FilePtr) : slotStep p q -> slotStep q r -> slotStep p r.
Proof. unfold slotStep. intros [->| ->] [->| ->]; auto. Qed.

Lemma evolves_refl (m : Mem) : evolves m m.
Proof.
  split; apply Forall2_same_length_lookup_2; auto; intros i x y H1 H2;
    assert (x = y) as -> by congruence;
    [apply fileStep_refl | apply slotStep_refl].
Qed.

Lemma Forall2_trans_rel {A : Type} (R : A -> A -> Prop) (l1 l2 l3 : list A) :
  (forall x y z, R x y -> R y z -> R x z) ->
  Forall2 R l1 l2 -> Forall2 R l2 l3 -> Forall2 R l1 l3.
Proof.
  intros T H. revert l3. induction H; intros l3 H3; inversion H3; subst;
    constructor; eauto.
Qed.

Lemma evolves_trans (m1 m2 m3 : Mem) : evolves m1 m2 -> evolves m2 m3 -> evolves m1 m3.
Proof.
  intros [H1 S1] [H2 S2]. split.
  - eapply Forall2_trans_rel; eauto using fileStep_trans.
  - eapply Forall2_trans_rel; eauto using slotStep_trans.
Qed.

Lemma evolves_store (m : Mem) (a : nat) (f : File) (upd : File -> File) :
  heap m !! a = Some f -> fileStep f (upd f) ->
  evolves m (mkMem (<[a := upd f]> (heap m)) (slots m)).
Proof.
  intros Ha Hs. split; simpl; [|apply evolves_refl].
  rewrite <- (list_insert_id (heap m) a f Ha) at 1.
  apply Forall2_insert; [|exact Hs]. apply evolves_refl.
Qed.

Lemma evolves_clear (m : Mem) (i : nat) :
  evolves m (mkMem (heap m) (<[i := None]> (slots m))).
Proof.
  split; simpl; [apply evolves_refl|].
  destruct (slots m !! i) as [p|] eqn:E.
  - rewrite <- (list_insert_id (slots m) i p E) at 1.
    apply Forall2_insert; [apply evolves_refl | now right].
  - rewrite list_insert_ge by now apply lookup_ge_None. apply evolves_refl.
Qed.

Lemma evolves_heap_length (m m' : Mem) :
  evolves m m' -> length (heap m') = length (heap m).
Proof. intros [H _]. symmetry. eapply Forall2_length, H. Qed.

Lemma evolves_slots_length (m m' : Mem) :
  evolves m m' -> length (slots m') = length (slots m).
Proof. intros [_ H]. symmetry. eapply Forall2_length, H. Qed.

Lemma evolves_slot (m m' : Mem) (i : nat) (p' : FilePtr) :
  evolves m m' -> slots m' !! i = Some p' ->
  exists p, slots m !! i = Some p /\ slotStep p p'.
Proof.
  intros [_ H] Hi. destruct (Forall2_lookup_r _ _ _ _ _ H Hi) as (p & Hp & S).
  eauto.
Qed.

Lemma evolves_file (m m' : Mem) (a : nat) (f' : File) :
  evolves m m' -> heap m' !! a = Some f' ->
  exists f, heap m !! a = Some f /\ fileStep f f'.
Proof.
  intros [H _] Ha. destruct (Forall2_lookup_r _ _ _ _ _ H Ha) as (f & Hf & S).
  eauto.
Qed.

Lemma evolves_validMem (m m' : Mem) : evolves m m' -> validMem m -> validMem m'.
Proof.
  intros E V i a Hi. rewrite (evolves_heap_length _ _ E).
  destruct (evolves_slot _ _ _ _ E Hi) as (p & Hp & [<-|N]); [|discriminate].
  eapply V, Hp.
Qed.

Lemma evolves_validPtrs (m m' : Mem) (l : list FilePtr) :
  evolves m m' -> validPtrs m l -> validPtrs m' l.
Proof.
  intros E V p Hp. destruct (V p Hp) as (a & Ep & L). exists a.
  rewrite (evolves_heap_length _ _ E). auto.
Qed.

(** ** The matcher on a file pointer *)

(** [MustCompile] comes first: on a pattern it refuses the matcher panics
    whatever the pointer. *)
Lemma fileMarkMatches_eq (file : FilePtr) (path : string) (m : Mem) :
  fileMarkMatches file path m =
  if compiles path then
    match fileOf m file with
    | Some f => (m, Ok (matchesFile path f))
    | None => (m, Panic)
    end
  else (m, Panic).
Proof.
  unfold fileMarkMatches, MustCompile, matchesFile, pathMatches, compiles.
  destruct (regexp.Compile (markRegexp path)) as [re|]; [|reflexivity].
  unfold bind, ret, OriginalRelativePath, bind, load, fileOf.
  destruct file as [a|]; simpl; [|reflexivity].
  destruct (heap m !! a); reflexivity.
Qed.

Lemma matchesFile_compiles (path : string) (f : File) :
  matchesFile path f = true -> compiles path = true.
Proof.
  unfold matchesFile, pathMatches, compiles.
  destruct (regexp.Compile (markRegexp path)); [reflexivity | discriminate].
Qed.

Lemma pathMatches_matchesFile (path : string) (f : File) (b : bool) :
  pathMatches path (originalRelativePath f) = Some b ->
  matchesFile path f = b /\ compiles path = true.
Proof.
  unfold matchesFile. intros E. rewrite E. split; [reflexivity|].
  destruct (compiles path) eqn:C; [reflexivity|].
  apply (pathMatches_compiles path (originalRelativePath f)) in C.
  rewrite C in E. discriminate E.
Qed.

(** ** One mark on one file *)

Lemma store_ret {A : Type} (upd : File -> File) (file : FilePtr) (x : A) (m : Mem) :
  (store upd file ;; ret x) m =
  match file with
  | Some a =>
      match heap m !! a with
      | Some f => (mkMem (<[a := upd f]> (heap m)) (slots m), Ok x)
      | None => (m, Panic)
      end
  | None => (m, Panic)
  end.
Proof.
  unfold bind, store, ret. destruct file as [a|]; [|reflexivity].
  destruct (heap m !! a); reflexivity.
Qed.

Lemma store_store_ret {A : Type} (u1 u2 : File -> File) (file : FilePtr) (x : A) (m : Mem) :
  (store u1 file ;; store u2 file ;; ret x) m =
  match file with
  | Some a =>
      match heap m !! a with
      | Some f => (mkMem (<[a := u2 (u1 f)]> (heap m)) (slots m), Ok x)
      | None => (m, Panic)
      end
  | None => (m, Panic)
  end.
Proof.
  unfold bind at 1. unfold store at 1. destruct file as [a|]; [|reflexivity].
  destruct (heap m !! a) as [f|] eqn:Ha; [|reflexivity].
  rewrite store_ret. simpl.
  rewrite list_lookup_insert_eq by (eapply lookup_lt_Some, Ha).
  now rewrite list_insert_insert_eq.
Qed.

Lemma clear_ret {A : Type} (i : nat) (x : A) (m : Mem) :
  (clear i ;; ret x) m =
  match slots m !! i with
  | Some _ => (mkMem (heap m) (<[i := None]> (slots m)), Ok x)
  | None => (m, Panic)
  end.
Proof. unfold bind, clear, ret. destruct (slots m !! i); reflexivity. Qed.

Lemma fileStep_path (v : string) (f : File) : fileStep f (MarkRelativePath v f).
Proof. split; auto. Qed.

Lemma fileStep_forOutput (b : bool) (f : File) : fileStep f (MarkForOutput b f).
Proof. split; auto. Qed.

Lemma fileStep_type (t : Type_) (b : bool) (f : File) :
  In (t, b) (map snd typePairs) -> fileStep f (MarkTemplate b (MarkType t f)).
Proof. intros H. split; auto. Qed.

Lemma applyMark_effect (mark key value : string) (i : nat) (file : FilePtr)
    (ex : list FilePtr) (m : Mem) :
  markEffect mark key value i file ex m (applyMark mark key value i file ex m).
Proof.
  unfold applyMark.
  repeat match goal with
  | |- context [if String.eqb ?a ?b then _ else _] =>
      destruct (String.eqb_spec a b)
  end;
  rewrite ?store_store_ret, ?store_ret, ?clear_ret;
  repeat match goal with
  | |- context [match ?x with _ => _ end] => destruct x eqn:?
  end;
  try (eapply EffStore; eauto using fileStep_path, fileStep_forOutput; fail);
  try (eapply EffStore with (upd := fun g => MarkTemplate _ (MarkType _ g));
       eauto; apply fileStep_type; simpl; tauto);
  try (eapply EffClear; eauto; fail);
  try (apply EffCollect; auto; fail);
  try apply EffPanic;
  try (apply EffErr; auto; fail).
Qed.

Lemma markEffect_evolves mark key value i file ex m m' r :
  markEffect mark key value i file ex m (m', r) -> evolves m m'.
Proof.
  intros H. inversion H; subst;
    eauto using evolves_store, evolves_clear, evolves_refl.
Qed.

Lemma markEffect_validPtrs mark key value i file ex m m' ex' :
  markEffect mark key value i file ex m (m', Ok ex') ->
  is_Some (fileOf m file) -> validPtrs m ex -> validPtrs m' ex'.
Proof.
  intros H [f Hf] V.
  assert (validPtrs m ex') as V'.
  { inversion H; subst; auto.
    intros p Hp. apply in_app_or in Hp as [Hp|[<-|[]]]; auto.
    destruct file as [a|]; [|discriminate]. exists a. split; auto.
    eapply lookup_lt_Some, Hf. }
  eapply evolves_validPtrs; eauto using markEffect_evolves.
Qed.

(** ** The scan of the collection *)

Lemma scanFiles_cons (mark path key value : string) (i : nat) (idx : list nat)
    (matched : bool) (ex : list FilePtr) (m : Mem) :
  compiles path = true ->
  scanFiles mark path key value (i :: idx) matched ex m =
  match slots m !! i with
  | None => (m, Panic)
  | Some file =>
      match fileOf m file with
      | None => (m, Panic)
      | Some f =>
          if matchesFile path f then
            match applyMark mark key value i file ex m with
            | (m1, Ok ex1) => scanFiles mark path key value idx true ex1 m1
            | (m1, Err e) => (m1, Err e)
            | (m1, Panic) => (m1, Panic)
            end
          else scanFiles mark path key value idx matched ex m
      end
  end.
Proof.
  intros C. simpl. unfold bind at 1. unfold index.
  destruct (slots m !! i) as [file|]; [|reflexivity].
  unfold bind at 1. rewrite fileMarkMatches_eq, C.
  destruct (fileOf m file) as [f|]; [|reflexivity].
  destruct (matchesFile path f); reflexivity.
Qed.

(** On a pattern [MustCompile] refuses, the scan panics at the first
    slot, before it writes anything. *)
Lemma scanFiles_panic (mark path key value : string) (i : nat) (idx : list nat)
    (matched : bool) (ex : list FilePtr) (m : Mem) :
  compiles path = false ->
  scanFiles mark path key value (i :: idx) matched ex m = (m, Panic).
Proof.
  intros C. simpl. unfold bind at 1. unfold index.
  destruct (slots m !! i) as [file|]; [|reflexivity].
  unfold bind at 1. now rewrite fileMarkMatches_eq, C.
Qed.

#[local] Opaque scanFiles.

(** A scan that does not compile its pattern ends where it began. *)
Lemma scanFiles_uncompiled (mark path key value : string) (idx : list nat)
    (matched : bool) (ex : list FilePtr) (m : Mem) :
  compiles path = false ->
  scanFiles mark path key value idx matched ex m =
  (m, match idx with
      | [] => Ok (matched, ex)
      | _ :: _ => Panic
      end).
Proof. intros C. destruct idx; [reflexivity | now apply scanFiles_panic]. Qed.

Lemma scanFiles_nil (mark path key value : string) (matched : bool)
    (ex : list FilePtr) (m : Mem) :
  scanFiles mark path key value [] matched ex m = (m, Ok (matched, ex)).
Proof. reflexivity. Qed.

Lemma scanFiles_inv (mark path key value : string) (idx : list nat)
    (matched : bool) (ex : list FilePtr) (m m' : Mem) r :
  scanFiles mark path key value idx matched ex m = (m', r) ->
  evolves m m' /\
  (validPtrs m ex -> forall b ex', r = Ok (b, ex') -> validPtrs m' ex').
Proof.
  destruct (compiles path) eqn:C.
  2:{ rewrite scanFiles_uncompiled by exact C. intros [= <- <-].
      split; [apply evolves_refl|]. destruct idx; [|discriminate].
      intros V b ex' [= _ <-]. exact V. }
  revert matched ex m. induction idx as [|i idx IH]; intros matched ex m.
  - rewrite scanFiles_nil. intros [= <- <-]. split; [apply evolves_refl|].
    intros V b ex' [= _ <-]. exact V.
  - rewrite scanFiles_cons by exact C.
    destruct (slots m !! i) as [file|];
      [|intros [= <- <-]; split; [apply evolves_refl | discriminate]].
    destruct (fileOf m file) as [f|] eqn:Hf;
      [|intros [= <- <-]; split; [apply evolves_refl | discriminate]].
    destruct (matchesFile path f); [|apply IH].
    pose proof (applyMark_effect mark key value i file ex m) as Eff.
    destruct (applyMark mark key value i file ex m) as [m1 [ex1|e|]].
    + intros H. apply IH in H as [E V]. split.
      * eapply evolves_trans; eauto using markEffect_evolves.
      * intros V0. apply V. eapply markEffect_validPtrs; eauto.
    + intros [= <- <-]. split; [eauto using markEffect_evolves | discriminate].
    + intros [= <- <-]. split; [eauto using markEffect_evolves | discriminate].
Qed.

(** ** The loop over the marks *)

Lemma applyOneMark_inv (mark : string) (ex : list FilePtr) (m m' : Mem) r :
  applyOneMark mark ex m = (m', r) ->
  evolves m m' /\
  (validPtrs m ex -> forall ex', r = Ok ex' -> validPtrs m' ex').
Proof.
  unfold applyOneMark.
  destruct (parseMark mark) as [[[path key] value]|e|];
    [|intros [= <- <-]; split; [apply evolves_refl | discriminate]..].
  unfold bind at 1. unfold len. unfold bind at 1.
  destruct (scanFiles mark path key value (seq 0 (length (slots m))) false ex m)
    as [m1 [[b ex1]|e|]] eqn:S; apply scanFiles_inv in S as [E V]; simpl.
  - destruct b; intros [= <- <-]; split; auto; try discriminate.
    intros V0 ex' [= <-]. eauto.
  - intros [= <- <-]. split; [auto | discriminate].
  - intros [= <- <-]. split; [auto | discriminate].
Qed.

Lemma applyMarks_cons (mark : string) (marks : list string) (ex : list FilePtr) (m : Mem) :
  applyMarks (mark :: marks) ex m =
  match applyOneMark mark ex m with
  | (m1, Ok ex1) => applyMarks marks ex1 m1
  | (m1, Err e) => (m1, Err e)
  | (m1, Panic) => (m1, Panic)
  end.
Proof. reflexivity. Qed.

Lemma applyMarks_inv (marks : list string) (ex : list FilePtr) (m m' : Mem) r :
  applyMarks marks ex m = (m', r) ->
  evolves m m' /\
  (validPtrs m ex -> forall ex', r = Ok ex' -> validPtrs m' ex').
Proof.
  revert ex m. induction marks as [|mark marks IH]; intros ex m.
  - intros [= <- <-]. split; [apply evolves_refl|]. intros V ex' [= <-]. exact V.
  - rewrite applyMarks_cons.
    destruct (applyOneMark mark ex m) as [m1 [ex1|e|]] eqn:O;
      apply applyOneMark_inv in O as [E V].
    + intros H. apply IH in H as [E' V']. split; [eapply evolves_trans; eauto|].
      intros V0. apply V'. eauto.
    + intros [= <- <-]. split; [auto | discriminate].
    + intros [= <- <-]. split; [auto | discriminate].
Qed.

(** ** Compaction and the exclusivity override *)

Lemma In_clearNils (p : FilePtr) (l : list FilePtr) :
  In p (clearNils l) <-> In p l /\ p <> None.
Proof.
  induction l as [|[a|] l IH]; simpl.
  - tauto.
  - rewrite IH. split.
    + intros [<-|[H N]]; split; auto; discriminate.
    + intros [[<-|H] N]; auto.
  - rewrite IH. split.
    + intros [H N]. auto.
    + intros [[<-|H] N]; [congruence | auto].
Qed.

Lemma validMem_clearNils (m : Mem) : validMem m -> validPtrs m (clearNils (slots m)).
Proof.
  intros V p Hp. apply In_clearNils in Hp as [Hp N].
  destruct p as [a|]; [|congruence]. exists a. split; [reflexivity|].
  apply (proj2 (list_elem_of_In _ _)) in Hp.
  apply list_elem_of_lookup in Hp as [i Hi]. eapply V, Hi.
Qed.

Lemma markAllForOutput_cons (b : bool) (p : FilePtr) (l : list FilePtr) (m : Mem) :
  markAllForOutput b (p :: l) m =
  match p with
  | Some a =>
      match heap m !! a with
      | Some f =>
          markAllForOutput b l (mkMem (<[a := MarkForOutput b f]> (heap m)) (slots m))
      | None => (m, Panic)
      end
  | None => (m, Panic)
  end.
Proof.
  simpl. unfold bind, store. destruct p as [a|]; [|reflexivity].
  destruct (heap m !! a); reflexivity.
Qed.

#[local] Opaque markAllForOutput.

Lemma markAllForOutput_evolves (b : bool) (l : list FilePtr) (m m' : Mem) r :
  markAllForOutput b l m = (m', r) -> evolves m m'.
Proof.
  revert m. induction l as [|p l IH]; intros m.
  - intros [= <- <-]. apply evolves_refl.
  - rewrite markAllForOutput_cons. destruct p as [a|];
      [|intros [= <- <-]; apply evolves_refl].
    destruct (heap m !! a) as [f|] eqn:Ha; [|intros [= <- <-]; apply evolves_refl].
    intros H. apply IH in H. eapply evolves_trans; [|exact H].
    apply evolves_store; auto using fileStep_forOutput.
Qed.

(** Marking a list of live files: each one gets the flag, the others
    stay as they are. *)
Lemma markAllForOutput_spec (b : bool) (l : list FilePtr) (m : Mem) :
  validPtrs m l ->
  exists h',
    markAllForOutput b l m = (mkMem h' (slots m), Ok tt) /\
    length h' = length (heap m) /\
    forall a,
      (In (Some a) l -> h' !! a = MarkForOutput b <$> heap m !! a) /\
      (~ In (Some a) l -> h' !! a = heap m !! a).
Proof.
  revert m. induction l as [|p l IH]; intros m V.
  - exists (heap m). destruct m. repeat split; auto. intros [].
  - destruct (V p (or_introl eq_refl)) as (a0 & -> & L).
    destruct (lookup_lt_is_Some_2 _ _ L) as [f Hf].
    rewrite markAllForOutput_cons, Hf.
    set (m1 := mkMem (<[a0 := MarkForOutput b f]> (heap m)) (slots m)).
    destruct (IH m1) as (h' & E & Len & Look).
    { intros p Hp. destruct (V p (or_intror Hp)) as (a & -> & La).
      exists a. split; auto. simpl. now rewrite length_insert. }
    exists h'. split; [exact E|]. split; [simpl in Len; now rewrite length_insert in Len|].
    intros a. destruct (Look a) as [Lin Lout]. simpl in Lin, Lout.
    destruct (decide (a = a0)) as [->|Na].
    + split; [|intros N; exfalso; apply N; now left].
      intros _. rewrite Hf. simpl.
      destruct (in_dec (option_eq_dec (A := nat)) (Some a0) l) as [I|I].
      * rewrite Lin by auto. rewrite list_lookup_insert_eq by auto. reflexivity.
      * rewrite Lout by auto. rewrite list_lookup_insert_eq by auto. reflexivity.
    + split.
      * intros [[= E0]|I]; [congruence|].
        rewrite Lin by auto. rewrite list_lookup_insert_ne by auto. reflexivity.
      * intros N. rewrite Lout by (intros I; apply N; now right).
        now rewrite list_lookup_insert_ne by auto.
Qed.

Lemma finish_evolves (ex : list FilePtr) (m m' : Mem) r :
  finish ex m = (m', r) -> evolves m m'.
Proof.
  unfold finish. destruct (Nat.ltb 0 (length ex)); [|intros [= <- <-]; apply evolves_refl].
  unfold bind at 1.
  destruct (markAllForOutput false (clearNils (slots m)) m) as [m1 [[]|e|]] eqn:A;
    apply markAllForOutput_evolves in A;
    [|intros [= <- <-]; auto..].
  unfold bind.
  destruct (markAllForOutput true ex m1) as [m2 [[]|e|]] eqn:B;
    apply markAllForOutput_evolves in B; intros [= <- <-];
    eapply evolves_trans; eauto.
Qed.

Lemma applyFileMarks_evolves (marks : list string) (m m' : Mem) r :
  applyFileMarks marks m = (m', r) -> evolves m m'.
Proof.
  unfold applyFileMarks, bind.
  destruct (applyMarks marks [] m) as [m1 [ex|e|]] eqn:A;
    apply applyMarks_inv in A as [E _].
  - intros H. apply finish_evolves in H. eapply evolves_trans; eauto.
  - now intros [= <- <-].
  - now intros [= <- <-].
Qed.

Lemma finish_spec (ex : list FilePtr) (m : Mem) :
  validMem m -> validPtrs m ex -> ex <> [] ->
  exists h',
    finish ex m = (mkMem h' (slots m), Ok (clearNils (slots m))) /\
    forall a, In (Some a) (clearNils (slots m)) ->
      exists f, h' !! a = Some f /\ (forOutput f = true <-> In (Some a) ex).
Proof.
  intros V Vex Hne. unfold finish.
  destruct ex as [|p0 ex0]; [congruence|]. set (ex := p0 :: ex0) in *.
  change (Nat.ltb 0 (length ex)) with true. cbv iota.
  destruct (markAllForOutput_spec false (clearNils (slots m)) m)
    as (h1 & E1 & L1 & Look1); [now apply validMem_clearNils|].
  set (m1 := mkMem h1 (slots m)) in *.
  destruct (markAllForOutput_spec true ex m1) as (h2 & E2 & L2 & Look2).
  { intros p Hp. destruct (Vex p Hp) as (a & -> & La). exists a. simpl.
    split; auto. lia. }
  exists h2. split.
  { unfold bind. rewrite E1, E2. reflexivity. }
  intros a Ha. destruct (Look1 a) as [In1 _]. destruct (Look2 a) as [In2 Out2].
  destruct (validMem_clearNils m V _ Ha) as (a' & [= <-] & La).
  destruct (lookup_lt_is_Some_2 _ _ La) as [f Hf].
  specialize (In1 Ha). rewrite Hf in In1. simpl in In1, In2, Out2.
  destruct (in_dec (option_eq_dec (A := nat)) (Some a) ex) as [I|I].
  - rewrite In2, In1 by auto. eexists. split; [reflexivity|]. simpl. split; auto.
  - rewrite Out2, In1 by auto. eexists. split; [reflexivity|]. simpl.
    split; [discriminate | intros; contradiction].
Qed.

Lemma validMem_ingest (fs : list File) : validMem (ingest fs).
Proof.
  intros i a H. simpl in *. apply list_lookup_fmap_Some in H as (j & [= ->] & Hj).
  apply lookup_seq in Hj as [-> Hlt]. simpl. exact Hlt.
Qed.

(** The outcome of the matcher on a live file: the answer of
    [pathMatches] on its original relative path, a panic where there is
    none. *)
Lemma fileMarkMatches_live (m : Mem) (a : nat) (F : File) (path : string) :
  heap m !! a = Some F ->
  fileMarkMatches (Some a) path m =
  (m, match pathMatches path (originalRelativePath F) with
      | Some b => Ok b
      | None => Panic
      end).
Proof.
  intros H. unfold fileMarkMatches, MustCompile, pathMatches.
  destruct (regexp.Compile (markRegexp path)) as [re|]; [|reflexivity].
  unfold bind, ret, OriginalRelativePath, bind, load. now rewrite H.
Qed.

Lemma fileMarkMatches_valid (m : Mem) (a : nat) (F : File) (path : string) :
  heap m !! a = Some F -> utf8.ValidString path = true ->
  fileMarkMatches (Some a) path m = (m, Ok (matchesFile path F)).
Proof.
  intros H V. rewrite fileMarkMatches_eq, compiles_valid, V. simpl. now rewrite H.
Qed.

Lemma fileMarkMatches_invalid (file : FilePtr) (path : string) (m : Mem) :
  utf8.ValidString path = false -> fileMarkMatches file path m = (m, Panic).
Proof. intros V. now rewrite fileMarkMatches_eq, compiles_valid, V. Qed.

Lemma matchesFile_spec (path : string) (F : File) :
  utf8.ValidString path = true ->
  (matchesFile path F = true <->
   GlobMatch notNewline (firstWildcards path) (utf8.runes (originalRelativePath F))).
Proof.
  intros V. unfold matchesFile.
  destruct (pathMatches_spec path (originalRelativePath F) V) as (b & -> & H).
  exact H.
Qed.

(** ** Cleared slots *)

(** The scan dereferences every slot it visits, so it does not survive a
    cleared slot: it ends in a panic, or earlier in an error. *)
Lemma scanFiles_cleared (mark path key value : string) (idx : list nat)
    (matched : bool) (ex : list FilePtr) (m m' : Mem) r (i : nat) :
  In i idx -> slots m !! i = Some None ->
  scanFiles mark path key value idx matched ex m = (m', r) ->
  forall x, r <> Ok x.
Proof.
  destruct (compiles path) eqn:C.
  2:{ rewrite scanFiles_uncompiled by exact C. destruct idx; [intros []|].
      intros _ _ [= _ <-]. discriminate. }
  revert matched ex m. induction idx as [|j idx IH]; intros matched ex m; [intros []|].
  intros Hin Hi. rewrite scanFiles_cons by exact C.
  destruct (slots m !! j) as [file|] eqn:Hj; [|intros [= _ <-]; discriminate].
  destruct (fileOf m file) as [f|] eqn:Hf; [|intros [= _ <-]; discriminate].
  destruct Hin as [->|Hin].
  { rewrite Hi in Hj. injection Hj as <-. discriminate. }
  destruct (matchesFile path f); [|now apply IH].
  pose proof (applyMark_effect mark key value j file ex m) as Eff.
  destruct (applyMark mark key value j file ex m) as [m1 [ex1|e|]];
    [|intros [= _ <-]; discriminate..].
  apply IH; [exact Hin|].
  apply markEffect_evolves in Eff as [_ S].
  destruct (Forall2_lookup_l _ _ _ _ _ S Hi) as (p' & Hp' & [->| ->]); exact Hp'.
Qed.

Lemma applyOneMark_cleared (mark : string) (ex : list FilePtr) (m m' : Mem) r (i : nat) :
  slots m !! i = Some None ->
  applyOneMark mark ex m = (m', r) -> forall x, r <> Ok x.
Proof.
  intros Hi. unfold applyOneMark.
  destruct (parseMark mark) as [[[path key] value]|e|];
    [|intros [= _ <-]; discriminate..].
  unfold bind at 1. unfold len. unfold bind.
  destruct (scanFiles mark path key value (seq 0 (length (slots m))) false ex m)
    as [m1 [[b ex1]|e|]] eqn:S; [|intros [= _ <-]; discriminate..].
  exfalso. eapply (scanFiles_cleared mark path key value _ false ex m m1 _ i); eauto.
  apply in_seq. apply lookup_lt_Some in Hi. lia.
Qed.

(** A mark that succeeds found no cleared slot, and a mark that is
    followed by one that succeeds has cleared none. *)
Lemma applyOneMark_Ok_slots (mark : string) (ex ex' : list FilePtr) (m m' : Mem) :
  applyOneMark mark ex m = (m', Ok ex') -> Forall (fun p => is_Some p) (slots m).
Proof.
  intros O. apply Forall_lookup. intros i [a|] Hi; [eauto|].
  exfalso. eapply (applyOneMark_cleared mark ex m m' _ i Hi O). reflexivity.
Qed.

Lemma slotStep_live (sl sl' : list FilePtr) :
  Forall2 slotStep sl sl' -> Forall (fun p => is_Some p) sl' -> sl' = sl.
Proof.
  induction 1 as [|p p' sl sl' [->| ->] _ IH]; intros F; [reflexivity| |].
  - apply Forall_cons in F as [_ F]. f_equal. now apply IH.
  - apply Forall_cons in F as [[x Hx] _]. discriminate.
Qed.

Lemma matchesFile_original (path : string) (f g : File) :
  originalRelativePath g = originalRelativePath f ->
  matchesFile path g = matchesFile path f.
Proof. unfold matchesFile. now intros ->. Qed.

(** ** The accumulator *)

Lemma applyMark_exclusive (mark value : string) (i : nat) (file : FilePtr)
    (ex : list FilePtr) (m : Mem) :
  applyMark mark "exclusive-for-output" value i file ex m =
  if String.eqb value "true" then (m, Ok (ex ++ [file]))
  else (m, Err (ErrUnknownValue mark)).
Proof. unfold applyMark. simpl. destruct (String.eqb value "true"); reflexivity. Qed.

Lemma scanFiles_exclusive (mark path value : string) (idx : list nat)
    (matched : bool) (ex : list FilePtr) (m m' : Mem) r :
  scanFiles mark path "exclusive-for-output" value idx matched ex m = (m', r) ->
  m' = m.
Proof.
  destruct (compiles path) eqn:C.
  2:{ rewrite scanFiles_uncompiled by exact C. now intros [= <- _]. }
  revert matched ex. induction idx as [|i idx IH]; intros matched ex.
  - rewrite scanFiles_nil. now intros [= <- _].
  - rewrite scanFiles_cons by exact C.
    destruct (slots m !! i) as [file|]; [|now intros [= <- _]].
    destruct (fileOf m file) as [f|]; [|now intros [= <- _]].
    destruct (matchesFile path f); [|apply IH].
    rewrite applyMark_exclusive.
    destruct (String.eqb value "true"); [apply IH | now intros [= <- _]].
Qed.

Lemma applyOneMark_exclusive (mark path value : string) (ex : list FilePtr)
    (m m' : Mem) r :
  parseMark mark = Ok (path, "exclusive-for-output", value) ->
  applyOneMark mark ex m = (m', r) -> m' = m.
Proof.
  intros P. unfold applyOneMark. rewrite P. unfold bind at 1. unfold len.
  unfold bind.
  destruct (scanFiles mark path "exclusive-for-output" value
              (seq 0 (length (slots m))) false ex m) as [m1 [[b ex1]|e|]] eqn:S;
    apply scanFiles_exclusive in S as ->.
  - simpl. destruct b; now intros [= <- _].
  - now intros [= <- _].
  - now intros [= <- _].
Qed.

Lemma scanFiles_accumulates (mark path key value : string) (idx : list nat)
    (matched b : bool) (ex ex' : list FilePtr) (m m' : Mem) :
  scanFiles mark path key value idx matched ex m = (m', Ok (b, ex')) ->
  exists added,
    ex' = ex ++ added /\
    (key <> "exclusive-for-output" -> added = []) /\
    Forall (fun p => is_Some p) added.
Proof.
  destruct (compiles path) eqn:C.
  2:{ rewrite scanFiles_uncompiled by exact C. destruct idx; [|discriminate].
      intros [= _ _ <-]. exists []. now rewrite app_nil_r. }
  revert matched ex m. induction idx as [|i idx IH]; intros matched ex m.
  - rewrite scanFiles_nil. intros [= _ _ <-]. exists []. now rewrite app_nil_r.
  - rewrite scanFiles_cons by exact C.
    destruct (slots m !! i) as [file|]; [|discriminate].
    destruct (fileOf m file) as [f|] eqn:Hf; [|discriminate].
    destruct (matchesFile path f); [|apply IH].
    pose proof (applyMark_effect mark key value i file ex m) as Eff.
    destruct (applyMark mark key value i file ex m) as [m1 [ex1|e|]];
      [|discriminate..].
    intros H. apply IH in H as (added & -> & Hk & Hall).
    inversion Eff; subst; try (exists added; auto; fail).
    exists (file :: added). rewrite <- app_assoc. repeat split; auto.
    + congruence.
    + constructor; [|exact Hall]. destruct file; [eauto | discriminate].
Qed.

(** What a scan for the key exclusive-for-output collects: the pointers
    of the files it visits and the pattern matches; and it reports a
    match only if its value is [true]. *)
Lemma scanFiles_collect (mark path value : string) (m m' : Mem) (idx : list nat) :
  forall (matched b : bool) (ex ex' : list FilePtr),
    scanFiles mark path "exclusive-for-output" value idx matched ex m = (m', Ok (b, ex')) ->
    (b = true -> matched = true \/ value = "true") /\
    forall p, In p ex' <->
      In p ex \/
      exists i a f, In i idx /\ slots m !! i = Some (Some a) /\ heap m !! a = Some f /\
                    matchesFile path f = true /\ p = Some a.
Proof.
  destruct (compiles path) eqn:C.
  2:{ intros matched b ex ex'. rewrite scanFiles_uncompiled by exact C.
      destruct idx; [|discriminate]. intros [= _ <- <-]. split; [auto|].
      intros p. split; [auto|]. intros [H|(i & a & f & [] & _)]. exact H. }
  induction idx as [|i idx IH]; intros matched b ex ex'.
  - rewrite scanFiles_nil. intros [= _ <- <-]. split; [auto|].
    intros p. split; [auto|]. intros [H|(i & a & f & [] & _)]. exact H.
  - rewrite scanFiles_cons by exact C.
    destruct (slots m !! i) as [file|] eqn:Hi; [|discriminate].
    destruct (fileOf m file) as [f|] eqn:Hf; [|discriminate].
    destruct file as [a|]; [|discriminate]. simpl in Hf.
    destruct (matchesFile path f) eqn:Hit.
    + rewrite applyMark_exclusive.
      destruct (String.eqb_spec value "true") as [->|N]; [|discriminate].
      intros H. apply IH in H as [_ H]. split; [auto|].
      intros p. rewrite H, in_app_iff. simpl. split.
      * intros [[I|[<-|[]]]|(j & a' & f' & Hj & R)].
        -- now left.
        -- right. exists i, a, f. repeat split; auto.
        -- right. exists j, a', f'. split; [now right | exact R].
      * intros [I|(j & a' & f' & [<-|Hj] & Sj & Hj' & Mj & ->)].
        -- now left; left.
        -- left. right. left. congruence.
        -- right. exists j, a', f'. auto.
    + intros H. apply IH in H as [Hb H]. split; [exact Hb|].
      intros p. rewrite H. split.
      * intros [I|(j & a' & f' & Hj & R)]; [now left|].
        right. exists j, a', f'. split; [now right | exact R].
      * intros [I|(j & a' & f' & [<-|Hj] & Sj & Hj' & Mj & ->)].
        -- now left.
        -- exfalso. rewrite Hi in Sj. injection Sj as <-. congruence.
        -- right. exists j, a', f'. auto.
Qed.

(** What a mark that succeeds leaves in the accumulator: what was there,
    and, for [exclusive-for-output=true], the pointers of the files of
    the collection its pattern matches. *)
Lemma applyOneMark_collect (mark path key value : string) (ex ex' : list FilePtr)
    (m m' : Mem) :
  parseMark mark = Ok (path, key, value) ->
  applyOneMark mark ex m = (m', Ok ex') ->
  forall p, In p ex' <->
    In p ex \/
    (key = "exclusive-for-output" /\ value = "true" /\
     exists a f, In (Some a) (slots m) /\ heap m !! a = Some f /\
                 matchesFile path f = true /\ p = Some a).
Proof.
  intros P. unfold applyOneMark. rewrite P. unfold bind at 1. unfold len. unfold bind.
  destruct (scanFiles mark path key value (seq 0 (length (slots m))) false ex m)
    as [m1 [[b ex1]|e|]] eqn:S; [|discriminate..].
  simpl. destruct b; [|discriminate]. intros [= _ <-].
  destruct (String.eqb_spec key "exclusive-for-output") as [->|N].
  - apply scanFiles_collect in S as [Hb H].
    destruct (Hb eq_refl) as [? | ->]; [discriminate|].
    intros p. rewrite H. split.
    + intros [I|(i & a & f & Hi & Si & R)]; auto.
      right. repeat split; auto. exists a, f. split; [|exact R].
      apply list_elem_of_In, list_elem_of_lookup. eauto.
    + intros [I|(_ & _ & a & f & Ia & R)]; auto.
      right. apply list_elem_of_In, list_elem_of_lookup in Ia as [i Hi].
      exists i, a, f. split; [|auto].
      apply in_seq. apply lookup_lt_Some in Hi. lia.
  - apply scanFiles_accumulates in S as (added & -> & Hk & _).
    rewrite (Hk N), app_nil_r. intros p. split; [auto|].
    intros [I|(E & _)]; [exact I | contradiction].
Qed.

(** The loop over the marks: the accumulator it leaves holds what it was
    given and the pointers of the files of the collection that some
    [exclusive-for-output=true] mark matches. *)
Lemma applyMarks_collect (marks : list string) :
  forall (ex ex' : list FilePtr) (m m' : Mem),
    applyMarks marks ex m = (m', Ok ex') ->
    forall p, In p ex' <->
      In p ex \/
      exists mark path a f,
        In mark marks /\
        parseMark mark = Ok (path, "exclusive-for-output", "true") /\
        In (Some a) (slots m) /\ heap m !! a = Some f /\
        matchesFile path f = true /\ p = Some a.
Proof.
  induction marks as [|mark marks IH]; intros ex ex' m m'.
  - intros [= _ <-] p. split; [auto|].
    intros [H|(mk & pa & a & f & [] & _)]. exact H.
  - rewrite applyMarks_cons.
    destruct (applyOneMark mark ex m) as [m1 [ex1|e|]] eqn:O; [|discriminate..].
    intros Run p.
    assert (exists path key value, parseMark mark = Ok (path, key, value))
      as (path & key & value & P).
    { unfold applyOneMark in O.
      destruct (parseMark mark) as [[[pa k] v]|e|]; [eauto | discriminate..]. }
    rewrite (IH _ _ _ _ Run p), (applyOneMark_collect _ _ _ _ _ _ _ _ P O p).
    (* after the first mark the collection is as it was before it *)
    assert (marks <> [] ->
            slots m1 = slots m /\
            forall a g, heap m1 !! a = Some g ->
              exists f, heap m !! a = Some f /\
                        originalRelativePath g = originalRelativePath f) as Back.
    { intros Hne. pose proof (applyOneMark_inv _ _ _ _ _ O) as [[Hh Hs] _]. split.
      - destruct marks as [|mark2 rest]; [congruence|].
        rewrite applyMarks_cons in Run.
        destruct (applyOneMark mark2 ex1 m1) as [m2 [ex2|e|]] eqn:O2; [|discriminate..].
        apply slotStep_live; [exact Hs|]. eapply applyOneMark_Ok_slots, O2.
      - intros a g Hg.
        destruct (Forall2_lookup_r _ _ _ _ _ Hh Hg) as (f & Hf & E & _). eauto. }
    assert (forall a f, heap m !! a = Some f ->
              exists g, heap m1 !! a = Some g /\
                        originalRelativePath g = originalRelativePath f) as Forth.
    { pose proof (applyOneMark_inv _ _ _ _ _ O) as [[Hh _] _].
      intros a f Hf.
      destruct (Forall2_lookup_l _ _ _ _ _ Hh Hf) as (g & Hg & E & _). eauto. }
    split.
    + intros [[I|(-> & -> & a & f & Ia & Hf & Hm & ->)]|
              (mk & pa & a & g & Imk & Pmk & Ia & Hg & Hm & ->)]; auto.
      * right. exists mark, path, a, f. simpl. auto 8.
      * destruct Back as [Sl Hp]; [intros ->; destruct Imk|].
        destruct (Hp a g Hg) as (f & Hf & E).
        right. exists mk, pa, a, f. rewrite <- Sl, <- (matchesFile_original pa f g E).
        simpl. auto 8.
    + intros [I|(mk & pa & a & f & [<-|Imk] & Pmk & Ia & Hf & Hm & ->)]; auto.
      * rewrite P in Pmk. injection Pmk as <- <- <-.
        left. right. repeat split; auto. exists a, f. auto.
      * destruct Back as [Sl Hp]; [intros ->; destruct Imk|].
        destruct (Forth a f Hf) as (g & Hg & E).
        right. exists mk, pa, a, g. rewrite Sl, (matchesFile_original pa f g E).
        auto 8.
Qed.

Lemma clearNils_filter (input : list FilePtr) :
  clearNils input = filter (fun p => is_Some p) input.
Proof.
  induction input as [|[a|] input IH]; simpl; [reflexivity| |].
  - rewrite filter_cons_True by eauto. now rewrite IH.
  - rewrite filter_cons_False by (intros [x Hx]; discriminate). exact IH.
Qed.
(** * The claims *)

(** ** C4: what the wildcards match *)

(** C4, as the code has it: on a pattern that is valid UTF-8 the matcher
    returns a result, and the result is true exactly when the original
    relative path, read rune by rune, matches the pattern read as
    follows: the leftmost [**/*] stands for one or more runes other than
    a line feed, path separators included; the leftmost [*] left after
    that substitution stands for one or more runes other than the path
    separator; every other rune of the pattern, any further [*]
    included, stands for itself.  The multi-level wildcard is
    substituted first: the reading is [firstSingle] after [firstMulti].
    On a pattern that is not valid UTF-8 the matcher panics, in
    [MustCompile]. *)
Theorem C4_first_wildcards (m : Mem) (a : nat) (F : File) (pattern : string) :
  heap m !! a = Some F ->
  (utf8.ValidString pattern = true ->
   exists b,
     fileMarkMatches (Some a) pattern m = (m, Ok b) /\
     (b = true <->
      GlobMatch notNewline (firstSingle (firstMulti (utf8.runes pattern)))
        (utf8.runes (originalRelativePath F)))) /\
  (utf8.ValidString pattern = false ->
   fileMarkMatches (Some a) pattern m = (m, Panic)).
Proof.
  intros H. split.
  - intros V. exists (matchesFile pattern F). split.
    + now apply fileMarkMatches_valid.
    + now apply matchesFile_spec.
  - apply fileMarkMatches_invalid.
Qed.

Lemma C4_first_wildcards_witness :
  let m := ingest [fileAt "lib/a/b.yml"] in
  heap m !! 0 = Some (fileAt "lib/a/b.yml") /\
  (utf8.ValidString "lib/**/*.yml" = true ->
   exists b,
     fileMarkMatches (Some 0) "lib/**/*.yml" m = (m, Ok b) /\
     (b = true <->
      GlobMatch notNewline (firstSingle (firstMulti (utf8.runes "lib/**/*.yml")))
        (utf8.runes (originalRelativePath (fileAt "lib/a/b.yml"))))) /\
  (utf8.ValidString "lib/**/*.yml" = false ->
   fileMarkMatches (Some 0) "lib/**/*.yml" m = (m, Panic)).
Proof.
  split; [reflexivity|].
  apply (C4_first_wildcards (ingest [fileAt "lib/a/b.yml"]) 0). reflexivity.
Defined.

(** C4 as stated fails, three times.  Read with every [*] as a wildcard,
    the pattern [*/*] matches the path [a/b], but the matcher answers
    false on it: its second [*] only matches a star.  The pattern [**/*]
    is to match any one or more characters, but the matcher answers
    false on a path with a line feed in it.  And a pattern that is not
    valid UTF-8, here the Latin-1 bytes of [café.yml], matches no path,
    not even the same bytes: the matcher panics. *)
Lemma C4_counterexample :
  let broken := "a" +:+ String "010" "b" in
  let latin1 := "caf" +:+ String "233" ".yml" in
  (GlobMatch anyRune (everyWildcard "*/*") (utf8.runes "a/b") /\
   fileMarkMatches (Some 0) "*/*" (ingest [fileAt "a/b"]) =
     (ingest [fileAt "a/b"], Ok false) /\
   fileMarkMatches (Some 0) "*/*" (ingest [fileAt "a/*"]) =
     (ingest [fileAt "a/*"], Ok true)) /\
  (GlobMatch anyRune (everyWildcard "**/*") (utf8.runes broken) /\
   fileMarkMatches (Some 0) "**/*" (ingest [fileAt broken]) =
     (ingest [fileAt broken], Ok false)) /\
  (GlobMatch anyRune (everyWildcard latin1) (utf8.runes latin1) /\
   fileMarkMatches (Some 0) latin1 (ingest [fileAt latin1]) =
     (ingest [fileAt latin1], Panic)).
Proof.
  cbv zeta. repeat split; try (vm_compute; reflexivity).
  - change (everyWildcard "*/*") with [TSingle; TLit "/"; TSingle].
    change (utf8.runes "a/b") with (["a"] ++ "/" :: ["b"] ++ []).
    apply GlobSingle; [discriminate | reflexivity |].
    apply GlobLit.
    apply GlobSingle; [discriminate | reflexivity |].
    apply GlobNil.
  - change (everyWildcard "**/*") with [TMulti].
    apply (GlobMulti anyRune ["a"; utf8.single "010"; "b"] [] []);
      [discriminate | reflexivity | apply GlobNil].
  - assert (everyWildcard ("caf" +:+ String "233" ".yml") =
            map TLit (utf8.runes ("caf" +:+ String "233" ".yml"))) as ->
      by (vm_compute; reflexivity).
    now apply GlobMatch_literals.
Qed.

(** ** C5: patterns without a wildcard *)

(** C5, as the code has it: for every file F and every pattern P that is
    valid UTF-8 and in which no [*] occurs (so neither wildcard token
    does), the matcher returns true if and only if P and the original
    relative path of F are the same sequence of runes, where a byte of
    the path outside a well-formed sequence reads as U+FFFD; so, when
    the path is valid UTF-8, if and only if P is the path.  On a P that
    is not valid UTF-8 the matcher panics, in [MustCompile]. *)
Theorem C5_literal_pattern (m : Mem) (a : nat) (F : File) (P : string) :
  heap m !! a = Some F ->
  strings.contains "*" P = false ->
  (utf8.ValidString P = true ->
   exists b,
     fileMarkMatches (Some a) P m = (m, Ok b) /\
     (b = true <-> utf8.runes P = utf8.runes (originalRelativePath F)) /\
     (utf8.ValidString (originalRelativePath F) = true ->
      (b = true <-> P = originalRelativePath F))) /\
  (utf8.ValidString P = false -> fileMarkMatches (Some a) P m = (m, Panic)).
Proof.
  intros H HP. split; [|apply fileMarkMatches_invalid].
  intros V. exists (matchesFile P F).
  assert (matchesFile P F = true <-> utf8.runes P = utf8.runes (originalRelativePath F))
    as Runes.
  { rewrite matchesFile_spec, firstWildcards_no_star by assumption.
    apply GlobMatch_literals. }
  split; [now apply fileMarkMatches_valid|]. split; [exact Runes|].
  intros VF. rewrite Runes. split; [now apply valid_runes_inj | now intros ->].
Qed.

Lemma C5_literal_pattern_witness :
  let m := ingest [fileAt "a.b/c+d.yml"] in
  heap m !! 0 = Some (fileAt "a.b/c+d.yml") /\
  strings.contains "*" "a.b/c+d.yml" = false /\
  (utf8.ValidString "a.b/c+d.yml" = true ->
   exists b,
     fileMarkMatches (Some 0) "a.b/c+d.yml" m = (m, Ok b) /\
     (b = true <->
      utf8.runes "a.b/c+d.yml" = utf8.runes (originalRelativePath (fileAt "a.b/c+d.yml"))) /\
     (utf8.ValidString (originalRelativePath (fileAt "a.b/c+d.yml")) = true ->
      (b = true <-> "a.b/c+d.yml" = originalRelativePath (fileAt "a.b/c+d.yml")))) /\
  (utf8.ValidString "a.b/c+d.yml" = false ->
   fileMarkMatches (Some 0) "a.b/c+d.yml" m = (m, Panic)).
Proof.
  split; [reflexivity|]. split; [reflexivity|].
  apply (C5_literal_pattern (ingest [fileAt "a.b/c+d.yml"]) 0); reflexivity.
Defined.

(** C5 as stated fails.  The pattern with the Latin-1 bytes of
    [café.yml] has no [*] and is, byte for byte, the original relative
    path of the file, but the matcher does not return true: it panics.
    And the pattern [U+FFFD.yml], which is valid UTF-8, is not the path
    made of the byte 255 and [.yml], but the matcher returns true: it
    reads the byte 255 of the path as U+FFFD. *)
Lemma C5_counterexample :
  let latin1 := "caf" +:+ String "233" ".yml" in
  let P := utf8.RuneError +:+ ".yml" in
  let path := String "255" ".yml" in
  (strings.contains "*" latin1 = false /\
   latin1 = originalRelativePath (fileAt latin1) /\
   fileMarkMatches (Some 0) latin1 (ingest [fileAt latin1]) =
     (ingest [fileAt latin1], Panic)) /\
  (strings.contains "*" P = false /\
   P <> originalRelativePath (fileAt path) /\
   fileMarkMatches (Some 0) P (ingest [fileAt path]) = (ingest [fileAt path], Ok true)).
Proof.
  cbv zeta. repeat split; try (vm_compute; reflexivity). discriminate.
Qed.

(** ** C1: the exclusivity override *)

Lemma In_filter_Some (a : nat) (l : list FilePtr) :
  In (Some a) (filter (fun p => is_Some p) l) <-> In (Some a) l.
Proof.
  rewrite <- !list_elem_of_In, list_elem_of_filter. split; [tauto | eauto].
Qed.

(** C1: when the loop over the marks has succeeded and left a non-empty
    accumulator, the accumulator holds exactly the pointers of the files
    of the collection matched by some [exclusive-for-output=true] mark;
    [applyFileMarks] returns the slots that were not cleared, in order;
    every file whose slot was not cleared ends with forOutput = true if
    its pointer is in the accumulator and with forOutput = false if it
    is not, whatever its flag was before; and a mark with the key
    exclusive-for-output leaves the whole memory, so every forOutput
    flag, as it was. *)
Theorem C1_exclusive_override (fileMarks : list string) (m m1 : Mem)
    (exclusive : list FilePtr) :
  validMem m ->
  applyMarks fileMarks [] m = (m1, Ok exclusive) ->
  exclusive <> [] ->
  (forall p, In p exclusive <->
     exists mark path a f,
       In mark fileMarks /\
       parseMark mark = Ok (path, "exclusive-for-output", "true") /\
       In (Some a) (slots m) /\ heap m !! a = Some f /\
       matchesFile path f = true /\ p = Some a) /\
  Forall2 (fun p p1 => p1 = p \/ p1 = None) (slots m) (slots m1) /\
  (exists h',
     applyFileMarks fileMarks m =
       (mkMem h' (slots m1), Ok (filter (fun p => is_Some p) (slots m1))) /\
     forall a, In (Some a) (slots m1) ->
       exists f, h' !! a = Some f /\
                 (forOutput f = true <-> In (Some a) exclusive)) /\
  (forall mark path value ex m0 m0' r,
     parseMark mark = Ok (path, "exclusive-for-output", value) ->
     applyOneMark mark ex m0 = (m0', r) -> m0' = m0).
Proof.
  intros V A Hne. split; [|split; [|split]].
  - intros p. rewrite (applyMarks_collect _ _ _ _ _ A p). split; [|auto].
    intros [[]|H]. exact H.
  - apply applyMarks_inv in A as [[_ S] _]. exact S.
  - pose proof (applyMarks_inv _ _ _ _ _ A) as [E Vex].
    destruct (finish_spec exclusive m1) as (h' & F & Hout); auto.
    + eapply evolves_validMem; eauto.
    + apply (Vex ltac:(intros p []) exclusive eq_refl).
    + exists h'. split.
      * unfold applyFileMarks, bind. rewrite A, F. now rewrite clearNils_filter.
      * intros a Ha. apply Hout. rewrite clearNils_filter. now apply In_filter_Some.
  - intros; eapply applyOneMark_exclusive; eauto.
Qed.

Lemma C1_exclusive_override_witness :
  let fileMarks := ["*.yml:for-output=true"; "config.yml:exclusive-for-output=true";
                    "b.yml:exclude=true"] in
  let m := ingest [mkFile "a.yml" "a.yml" TypeYAML true false;
                   mkFile "config.yml" "config.yml" TypeYAML true false;
                   mkFile "b.yml" "b.yml" TypeYAML true false] in
  let m1 := mkMem [mkFile "a.yml" "a.yml" TypeYAML true true;
                   mkFile "config.yml" "config.yml" TypeYAML true true;
                   mkFile "b.yml" "b.yml" TypeYAML true true]
                  [Some 0; Some 1; None] in
  let exclusive := [Some 1] in
  validMem m /\
  applyMarks fileMarks [] m = (m1, Ok exclusive) /\
  exclusive <> [] /\
  applyFileMarks fileMarks m =
    (mkMem [mkFile "a.yml" "a.yml" TypeYAML true false;
            mkFile "config.yml" "config.yml" TypeYAML true true;
            mkFile "b.yml" "b.yml" TypeYAML true true]
           [Some 0; Some 1; None], Ok [Some 0; Some 1]) /\
  (forall p, In p exclusive <->
     exists mark path a f,
       In mark fileMarks /\
       parseMark mark = Ok (path, "exclusive-for-output", "true") /\
       In (Some a) (slots m) /\ heap m !! a = Some f /\
       matchesFile path f = true /\ p = Some a) /\
  Forall2 (fun p p1 => p1 = p \/ p1 = None) (slots m) (slots m1) /\
  (exists h',
     applyFileMarks fileMarks m =
       (mkMem h' (slots m1), Ok (filter (fun p => is_Some p) (slots m1))) /\
     forall a, In (Some a) (slots m1) ->
       exists f, h' !! a = Some f /\
                 (forOutput f = true <-> In (Some a) exclusive)) /\
  (forall mark path value ex m0 m0' r,
     parseMark mark = Ok (path, "exclusive-for-output", value) ->
     applyOneMark mark ex m0 = (m0', r) -> m0' = m0).
Proof.
  cbv zeta.
  split; [apply validMem_ingest|].
  split; [vm_compute; reflexivity|].
  split; [discriminate|].
  split; [vm_compute; reflexivity|].
  apply C1_exclusive_override;
    [apply validMem_ingest | vm_compute; reflexivity | discriminate].
Defined.

(** ** C6: the six pairs of a type mark *)

Lemma applyMark_type (mark value : string) (i : nat) (file : FilePtr)
    (ex : list FilePtr) (m : Mem) :
  applyMark mark "type" value i file ex m =
  match assoc value typePairs with
  | Some (t, b) => (store (MarkType t) file ;; store (MarkTemplate b) file ;; ret ex) m
  | None => (m, Err (ErrUnknownValue mark))
  end.
Proof.
  unfold applyMark. simpl.
  repeat match goal with
  | |- context [if String.eqb ?a ?b then _ else _] => destruct (String.eqb a b)
  end; reflexivity.
Qed.

(** C6: applied to a file it matches, a type mark whose value is one of
    the six names sets the content type and the template flag to the pair
    of that name, and touches nothing else; with any other value it fails
    with an InvalidMarkValue error and writes nothing; and no run of
    [applyFileMarks], whatever its outcome, leaves a file with a pair
    that is neither the pair it came with nor one of the six. *)
Theorem C6_type_pairs (fileMarks : list string) (m m' : Mem) r
    (mark value : string) (i a : nat) (f : File) (ex : list FilePtr) :
  heap m !! a = Some f ->
  applyFileMarks fileMarks m = (m', r) ->
  match assoc value typePairs with
  | Some (t, b) =>
      applyMark mark "type" value i (Some a) ex m =
      (mkMem (<[a := mkFile (originalRelativePath f) (markedRelativePath f) t b
                       (forOutput f)]> (heap m)) (slots m), Ok ex)
  | None =>
      applyMark mark "type" value i (Some a) ex m = (m, Err (ErrUnknownValue mark)) /\
      kindOf (ErrUnknownValue mark) = InvalidMarkValue
  end /\
  (forall a' f', heap m' !! a' = Some f' ->
     exists f0, heap m !! a' = Some f0 /\
       (typePair f' = typePair f0 \/ In (typePair f') (map snd typePairs))).
Proof.
  intros Hf Run. split.
  - rewrite applyMark_type. destruct (assoc value typePairs) as [[t b]|]; [|auto].
    rewrite store_store_ret, Hf. reflexivity.
  - intros a' f' H'. apply applyFileMarks_evolves in Run.
    destruct (evolves_file _ _ _ _ Run H') as (f0 & H0 & _ & P). eauto.
Qed.

Lemma C6_type_pairs_witness :
  let m := ingest [fileAt "a.yml"; fileAt "c.txt"] in
  let m' := mkMem [mkFile "a.yml" "a.yml" TypeUnknown false true; fileAt "c.txt"]
                  [Some 0; Some 1] in
  heap m !! 0 = Some (fileAt "a.yml") /\
  applyFileMarks ["*.yml:type=data"] m = (m', Ok [Some 0; Some 1]) /\
  match assoc "starlark" typePairs with
  | Some (t, b) =>
      applyMark "a.yml:type=starlark" "type" "starlark" 0 (Some 0) [] m =
      (mkMem (<[0 := mkFile "a.yml" "a.yml" t b true]> (heap m)) (slots m), Ok [])
  | None =>
      applyMark "a.yml:type=starlark" "type" "starlark" 0 (Some 0) [] m =
      (m, Err (ErrUnknownValue "a.yml:type=starlark")) /\
      kindOf (ErrUnknownValue "a.yml:type=starlark") = InvalidMarkValue
  end /\
  (forall a' f', heap m' !! a' = Some f' ->
     exists f0, heap m !! a' = Some f0 /\
       (typePair f' = typePair f0 \/ In (typePair f') (map snd typePairs))).
Proof.
  cbv zeta. split; [reflexivity|]. split; [vm_compute; reflexivity|].
  apply (C6_type_pairs ["*.yml:type=data"] (ingest [fileAt "a.yml"; fileAt "c.txt"])
           _ (Ok [Some 0; Some 1]) "a.yml:type=starlark" "starlark" 0 0
           (fileAt "a.yml") []);
    [reflexivity | vm_compute; reflexivity].
Defined.

(** ** C7: the original relative path is the matching key *)

Lemma applyMark_path (mark value : string) (i : nat) (file : FilePtr)
    (ex : list FilePtr) (m : Mem) :
  applyMark mark "path" value i file ex m =
  (store (MarkRelativePath value) file ;; ret ex) m.
Proof. reflexivity. Qed.

(** C7: after any sequence of marks, whatever its outcome, every file
    object still has the original relative path it had before, so the
    matcher, which reads that path only, has on it the outcome it had
    before: the answer of [pathMatches] on the original relative path,
    or its panic; on a pattern that is valid UTF-8 that outcome is an
    answer, [matchesFile] on the file as it came; and a path mark
    applied to a file rewrites the marked relative path and nothing
    else. *)
Theorem C7_original_path_is_the_key (fileMarks : list string) (ex : list FilePtr)
    (m m' : Mem) r (a : nat) (f f' : File) (pattern : string) :
  applyMarks fileMarks ex m = (m', r) ->
  heap m !! a = Some f ->
  heap m' !! a = Some f' ->
  originalRelativePath f' = originalRelativePath f /\
  fileMarkMatches (Some a) pattern m =
    (m, match pathMatches pattern (originalRelativePath f) with
        | Some b => Ok b
        | None => Panic
        end) /\
  fileMarkMatches (Some a) pattern m' =
    (m', match pathMatches pattern (originalRelativePath f) with
         | Some b => Ok b
         | None => Panic
         end) /\
  (utf8.ValidString pattern = true ->
   fileMarkMatches (Some a) pattern m = (m, Ok (matchesFile pattern f)) /\
   fileMarkMatches (Some a) pattern m' = (m', Ok (matchesFile pattern f))) /\
  (forall mark value i ex0,
     applyMark mark "path" value i (Some a) ex0 m =
     (mkMem (<[a := mkFile (originalRelativePath f) value (contentType f)
                      (templateEnabled f) (forOutput f)]> (heap m)) (slots m),
      Ok ex0)).
Proof.
  intros Run Hf Hf'. apply applyMarks_inv in Run as [E _].
  destruct (evolves_file _ _ _ _ E Hf') as (f0 & H0 & Eo & _).
  assert (f0 = f) as -> by congruence.
  split; [exact Eo|]. split; [now apply fileMarkMatches_live|].
  split; [|split].
  - rewrite (fileMarkMatches_live m' a f') by exact Hf'. now rewrite Eo.
  - intros V. split; [now apply fileMarkMatches_valid|].
    rewrite (fileMarkMatches_valid m' a f') by assumption.
    now rewrite (matchesFile_original pattern f f').
  - intros. rewrite applyMark_path, store_ret, Hf. reflexivity.
Qed.

Lemma C7_original_path_is_the_key_witness :
  let m := ingest [fileAt "a.yml"] in
  let m' := mkMem [mkFile "a.yml" "b.yml" TypeYAML true true] [Some 0] in
  let f := fileAt "a.yml" in
  let f' := mkFile "a.yml" "b.yml" TypeYAML true true in
  applyMarks ["a.yml:path=b.yml"] [] m = (m', Ok []) /\
  heap m !! 0 = Some f /\
  heap m' !! 0 = Some f' /\
  originalRelativePath f' = originalRelativePath f /\
  fileMarkMatches (Some 0) "a.yml" m =
    (m, match pathMatches "a.yml" (originalRelativePath f) with
        | Some b => Ok b
        | None => Panic
        end) /\
  fileMarkMatches (Some 0) "a.yml" m' =
    (m', match pathMatches "a.yml" (originalRelativePath f) with
         | Some b => Ok b
         | None => Panic
         end) /\
  (utf8.ValidString "a.yml" = true ->
   fileMarkMatches (Some 0) "a.yml" m = (m, Ok (matchesFile "a.yml" f)) /\
   fileMarkMatches (Some 0) "a.yml" m' = (m', Ok (matchesFile "a.yml" f))) /\
  (forall mark value i ex0,
     applyMark mark "path" value i (Some 0) ex0 m =
     (mkMem (<[0 := mkFile (originalRelativePath f) value (contentType f)
                      (templateEnabled f) (forOutput f)]> (heap m)) (slots m),
      Ok ex0)).
Proof.
  cbv zeta. split; [vm_compute; reflexivity|]. split; [reflexivity|].
  split; [reflexivity|].
  apply (C7_original_path_is_the_key ["a.yml:path=b.yml"] [] (ingest [fileAt "a.yml"])
           (mkMem [mkFile "a.yml" "b.yml" TypeYAML true true] [Some 0]) (Ok []));
    [vm_compute; reflexivity | reflexivity | reflexivity].
Defined.

(** ** C2: a mark evaluated after an exclusion *)

(** C2, at a failing input: the first mark excludes [a.yml], clearing its
    slot; the scan for the second mark, whose pattern is the original
    path of the excluded file, calls the matcher on the nil pointer and
    panics.  The claim asks for a crash-free evaluation. *)
Theorem C2_mark_after_exclude_panics :
  applyFileMarks ["a.yml:exclude=true"; "a.yml:path=b.yml"] (ingest [fileAt "a.yml"]) =
  (mkMem [fileAt "a.yml"] [None], Panic).
Proof. vm_compute. reflexivity. Qed.

(** ** C3: marks that match no file *)

Lemma scanFiles_no_hit (mark path key value : string) (idx : list nat)
    (matched : bool) (ex : list FilePtr) (m : Mem) :
  missesAll path m -> (forall i, In i idx -> i < length (slots m)) ->
  scanFiles mark path key value idx matched ex m = (m, Ok (matched, ex)).
Proof.
  intros Miss. induction idx as [|i idx IH]; intros Hidx; [apply scanFiles_nil|].
  destruct (lookup_lt_is_Some_2 (slots m) i (Hidx i (or_introl eq_refl))) as [p Hp].
  destruct (Miss i p Hp) as (a & f & -> & Hf & Hm).
  apply pathMatches_matchesFile in Hm as [Hm C].
  rewrite scanFiles_cons by exact C.
  rewrite Hp. simpl. rewrite Hf, Hm. apply IH. intros j Hj. apply Hidx. now right.
Qed.

(** Where no slot has been cleared and the matcher answers false on
    every file, a mark fails with the unmatched-pattern error, whatever
    its key and value, and writes nothing. *)
Lemma unmatched_mark_fails (mark path key value : string) (ex : list FilePtr) (m : Mem) :
  parseMark mark = Ok (path, key, value) -> missesAll path m ->
  applyOneMark mark ex m = (m, Err (ErrNoMatch mark)).
Proof.
  intros P Miss. unfold applyOneMark. rewrite P. unfold bind at 1. unfold len.
  unfold bind. rewrite scanFiles_no_hit; auto.
  intros i Hi. apply in_seq in Hi. lia.
Qed.

Lemma applyMarks_app (l1 l2 : list string) (ex : list FilePtr) (m : Mem) :
  applyMarks (l1 ++ l2) ex m =
  match applyMarks l1 ex m with
  | (m1, Ok ex1) => applyMarks l2 ex1 m1
  | (m1, Err e) => (m1, Err e)
  | (m1, Panic) => (m1, Panic)
  end.
Proof.
  revert ex m. induction l1 as [|b l1 IH]; intros ex m; [reflexivity|].
  simpl app. rewrite !applyMarks_cons.
  destruct (applyOneMark b ex m) as [m' [ex'|e'|]]; auto.
Qed.

(** The loop over the marks stops at the first mark that fails; the
    memory is the one that mark left, with what earlier marks wrote. *)
Lemma applyMarks_fail_fast (before after : list string) (mark : string)
    (ex ex1 : list FilePtr) (m m1 m2 : Mem) (e : error) :
  applyMarks before ex m = (m1, Ok ex1) ->
  applyOneMark mark ex1 m1 = (m2, Err e) ->
  applyMarks (before ++ mark :: after) ex m = (m2, Err e).
Proof.
  intros B O. now rewrite applyMarks_app, B, applyMarks_cons, O.
Qed.

(** Where no slot has been cleared and the matcher answers false on
    every file, a mark ends the run with the unmatched-pattern error:
    later marks are not applied and the memory is the one the earlier
    marks left. *)
Lemma unmatched_mark_stops_run (before after : list string)
    (mark path key value : string) (ex1 : list FilePtr) (m m1 : Mem) :
  applyMarks before [] m = (m1, Ok ex1) ->
  parseMark mark = Ok (path, key, value) -> missesAll path m1 ->
  applyFileMarks (before ++ mark :: after) m = (m1, Err (ErrNoMatch mark)).
Proof.
  intros B P Miss. unfold applyFileMarks, bind.
  rewrite (applyMarks_fail_fast before after mark [] ex1 m m1 m1 (ErrNoMatch mark));
    [reflexivity | exact B | eauto using unmatched_mark_fails].
Qed.

(** C3, at a failing input: after [a.yml:exclude=true] has cleared a slot,
    the mark [missing.yml:path=x.yml], which matches neither file, makes
    the scan panic on the cleared slot; the run does not fail with the
    unmatched-pattern error the claim promises at every position. *)
Theorem C3_unmatched_after_exclude_panics :
  let m := ingest [fileAt "a.yml"; fileAt "b.yml"] in
  matchesFile "missing.yml" (fileAt "a.yml") = false /\
  matchesFile "missing.yml" (fileAt "b.yml") = false /\
  applyFileMarks ["missing.yml:path=x.yml"] m =
    (m, Err (ErrNoMatch "missing.yml:path=x.yml")) /\
  applyFileMarks ["a.yml:exclude=true"; "missing.yml:path=x.yml"] m =
    (mkMem (heap m) [None; Some 1], Panic).
Proof. repeat split; vm_compute; reflexivity. Qed.

(** ** C10: validation happens on a match *)

Lemma applyMark_invalid (mark key value : string) (e : error) (i : nat)
    (file : FilePtr) (ex : list FilePtr) (m : Mem) :
  validationError mark key value = Some e ->
  applyMark mark key value i file ex m = (m, Err e).
Proof.
  unfold validationError, applyMark.
  destruct (String.eqb_spec key "path") as [->|_]; [discriminate|].
  destruct (String.eqb_spec key "exclude") as [->|_]; simpl.
  { destruct (String.eqb value "true"); [discriminate | now intros [= <-]]. }
  destruct (String.eqb_spec key "type") as [->|_]; simpl.
  { unfold assoc, typePairs.
    repeat match goal with
    | |- context [if String.eqb ?a ?b then _ else _] => destruct (String.eqb a b)
    end; try discriminate; now intros [= <-]. }
  destruct (String.eqb_spec key "for-output") as [->|_]; simpl.
  { destruct (String.eqb value "true"); [discriminate | now intros [= <-]]. }
  destruct (String.eqb_spec key "exclusive-for-output") as [->|_]; simpl.
  { destruct (String.eqb value "true"); [discriminate | now intros [= <-]]. }
  now intros [= <-].
Qed.

Lemma scanFiles_skip (mark path key value : string) (pre idx : list nat)
    (matched : bool) (ex : list FilePtr) (m : Mem) :
  compiles path = true ->
  (forall i, In i pre ->
     exists a f, slots m !! i = Some (Some a) /\ heap m !! a = Some f /\
                 matchesFile path f = false) ->
  scanFiles mark path key value (pre ++ idx) matched ex m =
  scanFiles mark path key value idx matched ex m.
Proof.
  intros C. induction pre as [|i pre IH]; intros H; [reflexivity|].
  simpl app. rewrite scanFiles_cons by exact C.
  destruct (H i (or_introl eq_refl)) as (a & f & Hi & Hf & Hm).
  rewrite Hi. simpl. rewrite Hf, Hm. apply IH. intros j Hj. apply H. now right.
Qed.

(** Where no slot before the first matching file has been cleared, an
    invalid mark raises its error at that file, and writes nothing. *)
Lemma invalid_mark_first_hit (mark path key value : string) (e : error)
    (ex : list FilePtr) (m : Mem) (k a : nat) (f : File) :
  parseMark mark = Ok (path, key, value) ->
  validationError mark key value = Some e ->
  (forall i, i < k ->
     exists a' f', slots m !! i = Some (Some a') /\ heap m !! a' = Some f' /\
                   matchesFile path f' = false) ->
  slots m !! k = Some (Some a) -> heap m !! a = Some f ->
  matchesFile path f = true ->
  applyOneMark mark ex m = (m, Err e).
Proof.
  intros P Ve Pre Hk Hf Hit. unfold applyOneMark. rewrite P.
  pose proof (matchesFile_compiles _ _ Hit) as C.
  unfold bind at 1. unfold len. unfold bind.
  pose proof (lookup_lt_Some _ _ _ Hk) as Lk.
  replace (seq 0 (length (slots m)))
    with (seq 0 k ++ k :: seq (S k) (length (slots m) - S k)).
  2:{ change (k :: seq (S k) (length (slots m) - S k))
        with (seq k (S (length (slots m) - S k))).
      rewrite <- (Nat.add_0_l k) at 2. rewrite <- seq_app. f_equal. lia. }
  rewrite scanFiles_skip; [|exact C|].
  2:{ intros i Hi. apply in_seq in Hi. apply Pre. lia. }
  rewrite scanFiles_cons, Hk by exact C. simpl. rewrite Hf, Hit.
  rewrite (applyMark_invalid _ _ _ e) by exact Ve. reflexivity.
Qed.

(** C10, at a failing input: on two live files the mark [b.yml:bogus=1]
    raises the unknown-key error at [b.yml] and [missing.yml:bogus=1] the
    unmatched-pattern error, as the claim says; after
    [a.yml:exclude=true] has cleared the first slot both runs panic
    instead, on that slot. *)
Theorem C10_invalid_after_exclude_panics :
  let m := ingest [fileAt "a.yml"; fileAt "b.yml"] in
  applyFileMarks ["b.yml:bogus=1"] m = (m, Err (ErrUnknownKey "b.yml:bogus=1")) /\
  applyFileMarks ["missing.yml:bogus=1"] m = (m, Err (ErrNoMatch "missing.yml:bogus=1")) /\
  applyFileMarks ["a.yml:exclude=true"; "b.yml:bogus=1"] m =
    (mkMem (heap m) [None; Some 1], Panic) /\
  applyFileMarks ["a.yml:exclude=true"; "missing.yml:bogus=1"] m =
    (mkMem (heap m) [None; Some 1], Panic).
Proof. repeat split; vm_compute; reflexivity. Qed.

(** ** C8: the shape of a mark *)

Lemma Cut_Some (sep : ascii) (s a b : string) :
  strings.Cut sep s = Some (a, b) <->
  s = a +:+ String sep b /\ strings.contains sep a = false.
Proof.
  revert a b. induction s as [|c s IH]; intros a b; simpl.
  - split; [discriminate|]. intros [E _]. destruct a; discriminate.
  - destruct (Ascii.eqb c sep) eqn:Ec.
    + apply Ascii.eqb_eq in Ec as ->. split.
      * intros [= <- <-]. auto.
      * intros [E N]. destruct a as [|x a]; simpl in *.
        -- now injection E as ->.
        -- injection E as <- _. now rewrite Ascii.eqb_refl in N.
    + split.
      * destruct (strings.Cut sep s) as [[a' b']|] eqn:C; [|discriminate].
        intros [= <- <-]. destruct (proj1 (IH a' b') eq_refl) as [-> N].
        simpl. now rewrite Ec, N.
      * intros [E N]. destruct a as [|x a]; simpl in *.
        -- injection E as -> _. now rewrite Ascii.eqb_refl in Ec.
        -- injection E as <- ->. apply orb_false_elim in N as [_ N].
           now rewrite (proj2 (IH a b) (conj eq_refl N)).
Qed.

Lemma Cut_None (sep : ascii) (s : string) :
  strings.Cut sep s = None <-> strings.contains sep s = false.
Proof.
  induction s as [|c s IH]; simpl; [tauto|].
  destruct (Ascii.eqb c sep); simpl; [split; discriminate|].
  rewrite <- IH. destruct (strings.Cut sep s) as [[a b]|]; split; auto; discriminate.
Qed.

Lemma parseMark_eq (mark : string) :
  parseMark mark =
  match strings.Cut ":" mark with
  | Some (path, rest) =>
      match strings.Cut "=" rest with
      | Some (key, value) => Ok (path, key, value)
      | None => Err (ErrMarkKeyValueFormat mark)
      end
  | None => Err (ErrMarkFormat mark)
  end.
Proof.
  unfold parseMark, strings.SplitN2.
  destruct (strings.Cut ":" mark) as [[p rest]|]; [|reflexivity].
  destruct (strings.Cut "=" rest) as [[k v]|]; reflexivity.
Qed.

Lemma Cut_intro (sep : ascii) (a b : string) :
  strings.contains sep a = false ->
  strings.Cut sep (a +:+ String sep b) = Some (a, b).
Proof. intros N. apply Cut_Some. auto. Qed.

Lemma parseMark_Ok (mark path key value : string) :
  parseMark mark = Ok (path, key, value) <->
  mark = path +:+ ":" +:+ key +:+ "=" +:+ value /\
  strings.contains ":" path = false /\ strings.contains "=" key = false.
Proof.
  rewrite parseMark_eq. split.
  - destruct (strings.Cut ":" mark) as [[p rest]|] eqn:C1; [|discriminate].
    destruct (strings.Cut "=" rest) as [[k v]|] eqn:C2; [|discriminate].
    intros [= <- <- <-]. apply Cut_Some in C1 as [-> Np], C2 as [-> Nk]. auto.
  - intros (-> & Np & Nk).
    change (path +:+ ":" +:+ key +:+ "=" +:+ value)
      with (path +:+ String ":" (key +:+ String "=" value)).
    now rewrite (Cut_intro ":" path), (Cut_intro "=" key).
Qed.

Lemma parseMark_Err (mark : string) :
  (exists e, parseMark mark = Err e) <->
  (strings.contains ":" mark = false \/
   exists path rest, mark = path +:+ ":" +:+ rest /\
     strings.contains ":" path = false /\ strings.contains "=" rest = false).
Proof.
  rewrite parseMark_eq. split.
  - destruct (strings.Cut ":" mark) as [[p rest]|] eqn:C1.
    + destruct (strings.Cut "=" rest) as [[k v]|] eqn:C2; [intros [e He]; discriminate|].
      intros _. right. exists p, rest.
      apply Cut_Some in C1 as [-> Np]. apply Cut_None in C2. auto.
    + intros _. left. now apply Cut_None.
  - intros [N|(path & rest & -> & Np & Nr)].
    + apply Cut_None in N. rewrite N. eauto.
    + change (path +:+ ":" +:+ rest) with (path +:+ String ":" rest).
      rewrite (Cut_intro ":" path) by exact Np.
      apply Cut_None in Nr. rewrite Nr. eauto.
Qed.

(** C8, as the code has it: a mark parses if and only if it has a [:]
    and the text after its first [:] has a [=]; the pattern is then the
    text before the first [:], the key the text between it and the first
    [=] after it, the value the rest, and any of the three may be empty.
    Every failure is a MalformedMarkSyntax error, there is no panic, and
    since every key and every value parse, nothing is validated here. *)
Theorem C8_parse_shape (mark : string) :
  (forall path key value,
     parseMark mark = Ok (path, key, value) <->
     mark = path +:+ ":" +:+ key +:+ "=" +:+ value /\
     strings.contains ":" path = false /\ strings.contains "=" key = false) /\
  ((exists e, parseMark mark = Err e) <->
   (strings.contains ":" mark = false \/
    exists path rest, mark = path +:+ ":" +:+ rest /\
      strings.contains ":" path = false /\ strings.contains "=" rest = false)) /\
  (forall e, parseMark mark = Err e -> kindOf e = MalformedMarkSyntax) /\
  parseMark mark <> Panic.
Proof.
  split; [intros; apply parseMark_Ok|]. split; [apply parseMark_Err|].
  rewrite parseMark_eq.
  destruct (strings.Cut ":" mark) as [[p rest]|];
    [destruct (strings.Cut "=" rest) as [[k v]|]|];
    (split; [intros e [= <-] || discriminate | discriminate]); reflexivity.
Qed.

(** C8 as stated fails: both splits of [a.yml:path=] yield two parts, the
    last of them empty, and all three parts of [:=] are empty; neither
    mark is refused. *)
Lemma C8_counterexample :
  parseMark "a.yml:path=" = Ok ("a.yml", "path", "") /\
  parseMark ":=" = Ok ("", "", "").
Proof. split; reflexivity. Qed.

(** ** C9: the output step *)

Lemma selectPrinter_unknown (token : string) :
  token <> "yaml" -> token <> "json" -> token <> "pos" ->
  selectPrinter token = None.
Proof.
  intros H1 H2 H3. unfold selectPrinter.
  destruct (String.eqb_spec token "yaml"); [contradiction|].
  destruct (String.eqb_spec token "json"); [contradiction|].
  destruct (String.eqb_spec token "pos"); [contradiction|]. reflexivity.
Qed.

Lemma String_length_pos (s : string) :
  s <> EmptyString -> Nat.ltb 0 (String.length s) = true.
Proof. destruct s; [congruence | reflexivity]. Qed.

(** C9, as the code has it: when the template output carries no error,
    then with an output directory configured the step makes one call, to
    the directory writer, and returns what the writer returns, whatever
    the output type; without one, [yaml] serializes with the nil printer,
    [json] with the JSON printer, [pos] with the wrapped file position
    printer, and any other output type returns the UnknownOutputType
    error without a call to a collaborator.  When the template output
    carries an error, the step returns that error and calls no
    collaborator, whatever the output directory and the output type. *)
Theorem C9_output_selection {OutputFile DocSet : Type}
    (Write : string -> list OutputFile -> option error)
    (AsBytesWithPrinter : DocSet -> printerFunc -> string + error)
    (opts : RegularFilesSourceOpts) (out : TemplateOutput OutputFile DocSet) :
  (outErr out = None ->
   (outputDir opts <> EmptyString ->
    Output Write AsBytesWithPrinter opts out =
    ([EvWriteDirectory (outputDir opts) (outFiles out)],
     Write (outputDir opts) (outFiles out))) /\
   (outputDir opts = EmptyString ->
    (outputType opts = "yaml" ->
     Output Write AsBytesWithPrinter opts out =
     serialize AsBytesWithPrinter out PrinterNil) /\
    (outputType opts = "json" ->
     Output Write AsBytesWithPrinter opts out =
     serialize AsBytesWithPrinter out PrinterJSON) /\
    (outputType opts = "pos" ->
     Output Write AsBytesWithPrinter opts out =
     serialize AsBytesWithPrinter out PrinterWrappedFilePosition) /\
    (outputType opts <> "yaml" -> outputType opts <> "json" ->
     outputType opts <> "pos" ->
     Output Write AsBytesWithPrinter opts out =
     ([], Some (ErrUnknownOutputType (outputType opts))) /\
     kindOf (ErrUnknownOutputType (outputType opts)) = UnknownOutputType))) /\
  (forall e, outErr out = Some e ->
     Output Write AsBytesWithPrinter opts out = ([], Some e)).
Proof.
  unfold Output. split.
  - intros He. rewrite He. split.
    + intros Hd. now rewrite String_length_pos.
    + intros ->. simpl. repeat split.
      * now intros ->.
      * now intros ->.
      * now intros ->.
      * now rewrite selectPrinter_unknown.
  - intros e He. now rewrite He.
Qed.

Lemma C9_output_selection_witness :
  let Write := fun (dir : string) (fs : list string) => @None error in
  let AsBytes := fun (docs : string) (p : printerFunc) => @inl string error docs in
  let opts := mkOpts "out" "xml" in
  let out := mkOut ["a.yml"] "a: 1" None in
  let failed := mkOut ["a.yml"] "a: 1" (Some (ErrOther "template failed")) in
  outErr out = None /\
  outputDir opts <> EmptyString /\
  Output Write AsBytes opts out =
    ([EvWriteDirectory (outputDir opts) (outFiles out)],
     Write (outputDir opts) (outFiles out)) /\
  outErr failed = Some (ErrOther "template failed") /\
  Output Write AsBytes opts failed = ([], Some (ErrOther "template failed")).
Proof.
  cbv zeta.
  pose proof (C9_output_selection (fun _ _ => None) (fun docs _ => inl docs)
                (mkOpts "out" "xml") (mkOut ["a.yml"] "a: 1" None)) as [Hok _].
  pose proof (C9_output_selection (fun _ _ => None) (fun docs _ => inl docs)
                (mkOpts "out" "xml")
                (mkOut ["a.yml"] "a: 1" (Some (ErrOther "template failed"))))
    as [_ Herr].
  split; [reflexivity|]. split; [discriminate|].
  split; [apply (Hok eq_refl); discriminate|].
  split; [reflexivity|]. apply Herr. reflexivity.
Defined.

(** C9 as stated fails: when the template output carries an error, the
    step returns that error and calls no collaborator; with an output
    directory configured the directory writer is not called, and with an
    unknown output type the error is not UnknownOutputType. *)
Lemma C9_counterexample :
  let Write := fun (dir : string) (fs : list string) => @None error in
  let AsBytes := fun (docs : string) (p : printerFunc) => @inl string error docs in
  let out := mkOut ["a.yml"] "a: 1" (Some (ErrOther "template failed")) in
  Output Write AsBytes (mkOpts "out" "yaml") out =
    ([], Some (ErrOther "template failed")) /\
  Output Write AsBytes (mkOpts "" "xml") out =
    ([], Some (ErrOther "template failed")).
Proof. split; reflexivity. Qed.

(** * Further properties *)

(** ** [clearNils] *)

Lemma clearNils_app (l1 l2 : list FilePtr) :
  clearNils (l1 ++ l2) = clearNils l1 ++ clearNils l2.
Proof.
  induction l1 as [|[a|] l1 IH]; simpl; auto. now rewrite IH.
Qed.

Lemma clearNils_Forall (input : list FilePtr) :
  Forall (fun p => is_Some p) (clearNils input).
Proof.
  rewrite clearNils_filter. apply Forall_forall. intros p Hp.
  apply list_elem_of_filter in Hp. tauto.
Qed.

(** X1: [clearNils] keeps exactly the non-nil pointers, in their order:
    it is the filter on non-nil; it is the identity on a slice without
    nil, hence idempotent; and it distributes over concatenation. *)
Theorem X1_clearNils_spec (input rest : list FilePtr) :
  clearNils input = filter (fun p => is_Some p) input /\
  Forall (fun p => is_Some p) (clearNils input) /\
  sublist (clearNils input) input /\
  (Forall (fun p => is_Some p) input -> clearNils input = input) /\
  clearNils (clearNils input) = clearNils input /\
  clearNils (input ++ rest) = clearNils input ++ clearNils rest.
Proof.
  assert (forall l : list FilePtr, Forall (fun p => is_Some p) l -> clearNils l = l) as Id.
  { intros l H. induction H as [|p l [a ->] _ IH]; simpl; [reflexivity | now rewrite IH]. }
  pose proof (clearNils_Forall input) as All.
  repeat split; auto using clearNils_filter, clearNils_app.
  rewrite clearNils_filter. apply sublist_filter.
Qed.

(** ** What [applyFileMarks] returns *)

Lemma finish_Ok (ex out : list FilePtr) (m m' : Mem) :
  finish ex m = (m', Ok out) -> out = clearNils (slots m).
Proof.
  unfold finish. destruct (Nat.ltb 0 (length ex)); [|now intros [= _ <-]].
  unfold bind at 1.
  destruct (markAllForOutput false (clearNils (slots m)) m) as [m1 [[]|e|]];
    [|discriminate..].
  unfold bind. destruct (markAllForOutput true ex m1) as [m2 [[]|e|]];
    [|discriminate..].
  now intros [= _ <-].
Qed.

Lemma slotStep_sublist (sl sl1 : list FilePtr) :
  Forall2 slotStep sl sl1 -> sublist (clearNils sl1) sl.
Proof.
  induction 1 as [|p p1 sl sl1 [->| ->] _ IH]; simpl.
  - constructor.
  - destruct p as [a|]; now constructor.
  - now constructor.
Qed.

(** X2: what [applyFileMarks] returns is a subsequence of the slice it
    was given, without a nil: no file is added, duplicated or moved.  It
    allocates nothing: the heap and the slot array keep their lengths. *)
Theorem X2_result_is_subsequence (fileMarks : list string) (m m' : Mem)
    (out : list FilePtr) :
  applyFileMarks fileMarks m = (m', Ok out) ->
  sublist out (slots m) /\
  Forall (fun p => is_Some p) out /\
  length (heap m') = length (heap m) /\
  length (slots m') = length (slots m).
Proof.
  intros Run. pose proof (applyFileMarks_evolves _ _ _ _ Run) as E.
  unfold applyFileMarks, bind in Run.
  destruct (applyMarks fileMarks [] m) as [m1 [ex|e|]] eqn:A; [|discriminate..].
  apply applyMarks_inv in A as [[_ S] _]. apply finish_Ok in Run as ->.
  split; [now apply slotStep_sublist|]. split.
  - apply clearNils_Forall.
  - split; [now apply evolves_heap_length | now apply evolves_slots_length].
Qed.

Lemma X2_result_is_subsequence_witness :
  let m := ingest [fileAt "a.yml"; fileAt "b.yml"; fileAt "c.yml"] in
  let m' := mkMem (heap m) [Some 0; None; Some 2] in
  let out := [Some 0; Some 2] in
  applyFileMarks ["b.yml:exclude=true"] m = (m', Ok out) /\
  sublist out (slots m) /\
  Forall (fun p => is_Some p) out /\
  length (heap m') = length (heap m) /\
  length (slots m') = length (slots m).
Proof.
  cbv zeta. split; [vm_compute; reflexivity|].
  apply (X2_result_is_subsequence ["b.yml:exclude=true"]).
  vm_compute. reflexivity.
Defined.

(** ** Each mark writes only what its key names *)

Section Frame.

Variable R : Mem -> Mem -> Prop.
Hypothesis R_refl : forall m, R m m.
Hypothesis R_trans : forall m1 m2 m3, R m1 m2 -> R m2 m3 -> R m1 m3.

Variables mark key value : string.
Hypothesis R_applyMark :
  forall i file ex m m' r, applyMark mark key value i file ex m = (m', r) -> R m m'.

Lemma scanFiles_frame (path : string) (idx : list nat) (matched : bool)
    (ex : list FilePtr) (m m' : Mem) r :
  scanFiles mark path key value idx matched ex m = (m', r) -> R m m'.
Proof.
  destruct (compiles path) eqn:C.
  2:{ rewrite scanFiles_uncompiled by exact C. now intros [= <- _]. }
  revert matched ex m. induction idx as [|i idx IH]; intros matched ex m.
  - rewrite scanFiles_nil. now intros [= <- _].
  - rewrite scanFiles_cons by exact C.
    destruct (slots m !! i) as [file|]; [|now intros [= <- _]].
    destruct (fileOf m file) as [f|]; [|now intros [= <- _]].
    destruct (matchesFile path f); [|apply IH].
    destruct (applyMark mark key value i file ex m) as [m1 [ex1|e|]] eqn:A;
      apply R_applyMark in A.
    + intros H. apply IH in H. eauto.
    + now intros [= <- _].
    + now intros [= <- _].
Qed.

End Frame.

Lemma applyOneMark_frame (R : Mem -> Mem -> Prop) (mark : string)
    (ex : list FilePtr) (m m' : Mem) r :
  (forall m0, R m0 m0) ->
  (forall m1 m2 m3, R m1 m2 -> R m2 m3 -> R m1 m3) ->
  (forall path key value, parseMark mark = Ok (path, key, value) ->
     forall i file ex0 m0 m0' r0,
       applyMark mark key value i file ex0 m0 = (m0', r0) -> R m0 m0') ->
  applyOneMark mark ex m = (m', r) -> R m m'.
Proof.
  intros Rr Rt Step. unfold applyOneMark.
  destruct (parseMark mark) as [[[path key] value]|e|] eqn:P;
    [|now intros [= <- _]..].
  unfold bind at 1. unfold len. unfold bind.
  destruct (scanFiles mark path key value (seq 0 (length (slots m))) false ex m)
    as [m1 [[b ex1]|e|]] eqn:S;
    apply (scanFiles_frame R Rr Rt mark key value (Step path key value eq_refl)) in S.
  - simpl. destruct b; now intros [= <- _].
  - now intros [= <- _].
  - now intros [= <- _].
Qed.

Lemma map_insert_same {A B : Type} (g : A -> B) (h : list A) (a : nat) (x y : A) :
  h !! a = Some x -> g y = g x -> map g (<[a := y]> h) = map g h.
Proof.
  intros H E. change (map g) with (fmap (M := list) g).
  rewrite list_fmap_insert, E. apply list_insert_id.
  now rewrite list_lookup_fmap, H.
Qed.

(** Solves the frame condition of [applyMark] for a relation on the heap
    that the setters in play preserve. *)
Ltac frame_applyMark :=
  unfold applyMark;
  repeat match goal with
  | |- context [if String.eqb ?a ?b then _ else _] =>
      destruct (String.eqb_spec a b); try congruence
  end;
  rewrite ?store_store_ret, ?store_ret, ?clear_ret;
  repeat match goal with
  | |- context [match ?x with _ => _ end] => destruct x eqn:?
  end;
  intros [= <- _]; simpl; try reflexivity;
  eauto using map_insert_same.

(** X3: a mark whose key is not [path] changes no marked relative path;
    one whose key is not [type] changes no content type and no template
    flag; one whose key is not [for-output] changes no for-output flag;
    whatever the outcome of the mark. *)
Theorem X3_mark_frame (mark path key value : string) (ex : list FilePtr)
    (m m' : Mem) r :
  parseMark mark = Ok (path, key, value) ->
  applyOneMark mark ex m = (m', r) ->
  (key <> "path" ->
   map markedRelativePath (heap m') = map markedRelativePath (heap m)) /\
  (key <> "type" -> map typePair (heap m') = map typePair (heap m)) /\
  (key <> "for-output" -> map forOutput (heap m') = map forOutput (heap m)).
Proof.
  intros P Run. repeat split; intros Hk.
  - apply (applyOneMark_frame
             (fun m0 m1 => map markedRelativePath (heap m1) = map markedRelativePath (heap m0))
             mark ex m m' r); auto; [congruence|].
    intros path' key' value' P'. rewrite P in P'. injection P' as <- <- <-.
    intros i file ex0 m0 m0' r0. frame_applyMark.
  - apply (applyOneMark_frame
             (fun m0 m1 => map typePair (heap m1) = map typePair (heap m0))
             mark ex m m' r); auto; [congruence|].
    intros path' key' value' P'. rewrite P in P'. injection P' as <- <- <-.
    intros i file ex0 m0 m0' r0. frame_applyMark.
  - apply (applyOneMark_frame
             (fun m0 m1 => map forOutput (heap m1) = map forOutput (heap m0))
             mark ex m m' r); auto; [congruence|].
    intros path' key' value' P'. rewrite P in P'. injection P' as <- <- <-.
    intros i file ex0 m0 m0' r0. frame_applyMark.
Qed.

(** X4: only an [exclude] mark clears slots, and an [exclude] mark writes
    to no file object; whatever the outcome of the mark. *)
Theorem X4_exclude_frame (mark path key value : string) (ex : list FilePtr)
    (m m' : Mem) r :
  parseMark mark = Ok (path, key, value) ->
  applyOneMark mark ex m = (m', r) ->
  (key <> "exclude" -> slots m' = slots m) /\
  (key = "exclude" -> heap m' = heap m).
Proof.
  intros P Run. split; intros Hk.
  - apply (applyOneMark_frame (fun m0 m1 => slots m1 = slots m0) mark ex m m' r);
      auto; [congruence|].
    intros path' key' value' P'. rewrite P in P'. injection P' as <- <- <-.
    intros i file ex0 m0 m0' r0. frame_applyMark.
  - apply (applyOneMark_frame (fun m0 m1 => heap m1 = heap m0) mark ex m m' r);
      auto; [congruence|].
    intros path' key' value' P'. rewrite P in P'. injection P' as <- <- <-.
    intros i file ex0 m0 m0' r0. subst key. frame_applyMark.
Qed.

Lemma X3_mark_frame_witness :
  let m := ingest [fileAt "a.yml"; fileAt "c.txt"] in
  let m' := mkMem [mkFile "a.yml" "a.yml" TypeUnknown false true; fileAt "c.txt"]
                  [Some 0; Some 1] in
  parseMark "*.yml:type=data" = Ok ("*.yml", "type", "data") /\
  applyOneMark "*.yml:type=data" [] m = (m', Ok []) /\
  ("type" <> "path" ->
   map markedRelativePath (heap m') = map markedRelativePath (heap m)) /\
  ("type" <> "type" -> map typePair (heap m') = map typePair (heap m)) /\
  ("type" <> "for-output" -> map forOutput (heap m') = map forOutput (heap m)).
Proof.
  cbv zeta. split; [reflexivity|]. split; [vm_compute; reflexivity|].
  apply (X3_mark_frame "*.yml:type=data" "*.yml" "type" "data" []
           (ingest [fileAt "a.yml"; fileAt "c.txt"]) _ (Ok []));
    [reflexivity | vm_compute; reflexivity].
Defined.

Lemma X4_exclude_frame_witness :
  let m := ingest [fileAt "a.yml"; fileAt "c.txt"] in
  let m' := mkMem (heap m) [None; Some 1] in
  parseMark "*.yml:exclude=true" = Ok ("*.yml", "exclude", "true") /\
  applyOneMark "*.yml:exclude=true" [] m = (m', Ok []) /\
  ("exclude" <> "exclude" -> slots m' = slots m) /\
  ("exclude" = "exclude" -> heap m' = heap m).
Proof.
  cbv zeta. split; [reflexivity|]. split; [vm_compute; reflexivity|].
  apply (X4_exclude_frame "*.yml:exclude=true" "*.yml" "exclude" "true" []
           (ingest [fileAt "a.yml"; fileAt "c.txt"]) _ (Ok []));
    [reflexivity | vm_compute; reflexivity].
Defined.

(** ** Marks that write to the files they match *)

Lemma applyMark_setter (mark key value : string) (upd : File -> File) (i : nat)
    (file : FilePtr) (ex : list FilePtr) (m : Mem) :
  setterOf key value = Some upd ->
  applyMark mark key value i file ex m = (store upd file ;; ret ex) m.
Proof.
  unfold setterOf.
  destruct (String.eqb_spec key "path") as [->|_].
  { now intros [= <-]. }
  destruct (String.eqb_spec key "type") as [->|_].
  { rewrite applyMark_type. destruct (assoc value typePairs) as [[t b]|]; [|discriminate].
    intros [= <-]. now rewrite store_store_ret, store_ret. }
  destruct (String.eqb_spec key "for-output") as [->|_]; [|discriminate].
  unfold applyMark. simpl. destruct (String.eqb value "true"); [|discriminate].
  now intros [= <-].
Qed.

Lemma setterOf_sound (key value : string) (upd : File -> File) :
  setterOf key value = Some upd ->
  forall f, originalRelativePath (upd f) = originalRelativePath f /\
            upd (upd f) = upd f.
Proof.
  unfold setterOf.
  destruct (String.eqb key "path"); [now intros [= <-]|].
  destruct (String.eqb key "type").
  { destruct (assoc value typePairs) as [[t b]|]; [|discriminate]. now intros [= <-]. }
  destruct (String.eqb key "for-output"); [|discriminate].
  destruct (String.eqb value "true"); [|discriminate]. now intros [= <-].
Qed.

Lemma updatedHits_snoc (path : string) (upd : File -> File) (pre : list FilePtr)
    (a : nat) (f : File) (h0 h : list File) :
  (forall x, upd (upd x) = upd x) ->
  h0 !! a = Some f ->
  updatedHits path upd pre h0 h ->
  updatedHits path upd (pre ++ [Some a]) h0
    (if matchesFile path f
     then <[a := upd (if matchesFile path f && bool_decide (Some a ∈ pre)
                      then upd f else f)]> h
     else h).
Proof.
  intros Idem Ha [Len Look]. split.
  { destruct (matchesFile path f); [now rewrite length_insert | exact Len]. }
  intros b fb Hb. specialize (Look b fb Hb).
  destruct (decide (b = a)) as [->|Nb].
  - assert (fb = f) as -> by congruence.
    rewrite (bool_decide_eq_true_2 (Some a ∈ pre ++ [Some a]))
      by (apply elem_of_app; right; now apply list_elem_of_singleton).
    destruct (matchesFile path f) eqn:Hit; simpl.
    + rewrite list_lookup_insert_eq by (rewrite Len; eapply lookup_lt_Some, Ha).
      destruct (bool_decide (Some a ∈ pre)); now rewrite ?Idem.
    + rewrite Look, ?Hit. reflexivity.
  - assert (bool_decide (Some b ∈ pre ++ [Some a]) = bool_decide (Some b ∈ pre)) as ->.
    { apply bool_decide_ext. rewrite elem_of_app, list_elem_of_singleton.
      split; [intros [H|[= H]]; [exact H | congruence] | auto]. }
    destruct (matchesFile path f); [rewrite list_lookup_insert_ne by auto|]; exact Look.
Qed.

Lemma scanFiles_setter (mark path key value : string) (upd : File -> File)
    (h0 : list File) (ex : list FilePtr) :
  compiles path = true ->
  setterOf key value = Some upd ->
  forall (post pre : list FilePtr) (h : list File) (matched : bool),
    (forall p, In p post -> exists a f, p = Some a /\ h0 !! a = Some f) ->
    updatedHits path upd pre h0 h ->
    exists h',
      scanFiles mark path key value (seq (length pre) (length post)) matched ex
        (mkMem h (pre ++ post)) =
      (mkMem h' (pre ++ post), Ok (matched || existsb (hits path h0) post, ex)) /\
      updatedHits path upd (pre ++ post) h0 h'.
Proof.
  intros C HS. pose proof (setterOf_sound _ _ _ HS) as Snd.
  induction post as [|p post IH]; intros pre h matched Live Upd.
  - exists h. rewrite app_nil_r, orb_false_r. split; [apply scanFiles_nil | exact Upd].
  - destruct (Live p (or_introl eq_refl)) as (a & f & -> & Ha).
    simpl length. simpl seq. rewrite scanFiles_cons by exact C. simpl slots.
    rewrite list_lookup_middle by reflexivity. simpl fileOf.
    destruct Upd as [Len Look]. rewrite (Look a f Ha). simpl.
    set (g := if matchesFile path f && bool_decide (Some a ∈ pre) then upd f else f).
    assert (matchesFile path g = matchesFile path f) as ->.
    { apply matchesFile_original. unfold g.
      destruct (matchesFile path f && bool_decide (Some a ∈ pre)); [apply Snd | reflexivity]. }
    pose proof (updatedHits_snoc path upd pre a f h0 h (fun x => proj2 (Snd x)) Ha
                  (conj Len Look)) as Upd'.
    rewrite Ha. destruct (matchesFile path f) eqn:Hit.
    + rewrite (applyMark_setter _ _ _ upd) by exact HS.
      rewrite store_ret. simpl heap. rewrite (Look a f Ha). simpl slots.
      destruct (IH (pre ++ [Some a]) _ true
                  (fun p Hp => Live p (or_intror Hp)) Upd') as (h' & E & U).
      rewrite length_app, Nat.add_comm in E. simpl in E.
      rewrite <- app_assoc in E, U. simpl in E, U.
      exists h'. rewrite orb_true_r, ?Hit. simpl. split; [exact E | exact U].
    + destruct (IH (pre ++ [Some a]) _ matched
                  (fun p Hp => Live p (or_intror Hp)) Upd') as (h' & E & U).
      rewrite length_app, Nat.add_comm in E. simpl in E.
      rewrite <- app_assoc in E, U. simpl in E, U.
      exists h'. split; [exact E | exact U].
Qed.

Lemma liveMem_In (m : Mem) :
  liveMem m -> forall p, In p (slots m) -> exists a f, p = Some a /\ heap m !! a = Some f.
Proof.
  intros L p Hp. apply (proj2 (list_elem_of_In _ _)) in Hp.
  apply list_elem_of_lookup in Hp as [i Hi]. eauto.
Qed.

(** A pattern that matches a file of the collection is one
    [MustCompile] accepts. *)
Lemma hits_compiles (path : string) (h : list File) (sl : list FilePtr) :
  existsb (hits path h) sl = true -> compiles path = true.
Proof.
  intros H. apply existsb_exists in H as ([a|] & _ & H); [|discriminate].
  simpl in H. destruct (h !! a) as [f|]; [|discriminate].
  eapply matchesFile_compiles, H.
Qed.

Lemma liveMem_missesAll (path : string) (m : Mem) :
  compiles path = true ->
  liveMem m -> existsb (hits path (heap m)) (slots m) = false -> missesAll path m.
Proof.
  intros C L E i p Hi. destruct (L i p Hi) as (a & f & -> & Hf).
  exists a, f. repeat split; auto.
  assert (In (Some a) (slots m)) as HIn.
  { apply list_elem_of_In, list_elem_of_lookup. eauto. }
  destruct (pathMatches path (originalRelativePath f)) as [[|]|] eqn:Hit;
    [|reflexivity|].
  - assert (existsb (hits path (heap m)) (slots m) = true); [|congruence].
    apply existsb_exists. exists (Some a). split; auto. simpl. rewrite Hf.
    unfold matchesFile. now rewrite Hit.
  - apply pathMatches_compiles in Hit. congruence.
Qed.

Lemma updatedHits_nil (path : string) (upd : File -> File) (h : list File) :
  updatedHits path upd [] h h.
Proof.
  split; [reflexivity|]. intros a f Ha. rewrite Ha.
  rewrite (bool_decide_eq_false_2 (Some a ∈ [])) by apply not_elem_of_nil.
  now rewrite andb_false_r.
Qed.

Lemma setter_mark_spec (mark path key value : string) (upd : File -> File)
    (ex : list FilePtr) (m : Mem) :
  liveMem m ->
  parseMark mark = Ok (path, key, value) ->
  setterOf key value = Some upd ->
  existsb (hits path (heap m)) (slots m) = true ->
  exists h',
    applyOneMark mark ex m = (mkMem h' (slots m), Ok ex) /\
    updatedHits path upd (slots m) (heap m) h'.
Proof.
  intros L P HS Hit. unfold applyOneMark. rewrite P. unfold bind at 1. unfold len.
  unfold bind.
  destruct (scanFiles_setter mark path key value upd (heap m) ex
              (hits_compiles _ _ _ Hit) HS (slots m) []
              (heap m) false (liveMem_In m L) (updatedHits_nil _ _ _))
    as (h' & E & U).
  simpl in E, U. destruct m as [h sl]. simpl in *. rewrite E, Hit. simpl. eauto.
Qed.

(** X5: on a collection without a cleared slot, a [path] mark, a [type]
    mark with one of the six values, or a [for-output=true] mark that
    matches some file succeeds and applies its setter to exactly the files
    that a slot designates and the pattern matches; every other file
    object, and every slot, is left as it was. *)
Theorem X5_setter_mark (mark path key value : string) (upd : File -> File)
    (ex : list FilePtr) (m : Mem) :
  liveMem m ->
  parseMark mark = Ok (path, key, value) ->
  setterOf key value = Some upd ->
  existsb (hits path (heap m)) (slots m) = true ->
  exists h',
    applyOneMark mark ex m = (mkMem h' (slots m), Ok ex) /\
    length h' = length (heap m) /\
    forall a f, heap m !! a = Some f ->
      h' !! a = Some (if matchesFile path f && bool_decide (Some a ∈ slots m)
                      then upd f else f).
Proof.
  intros L P HS Hit.
  destruct (setter_mark_spec mark path key value upd ex m L P HS Hit)
    as (h' & E & Len & Look).
  exists h'. auto.
Qed.

Lemma liveMem_ingest (fs : list File) : liveMem (ingest fs).
Proof.
  intros i p H. simpl in *. apply list_lookup_fmap_Some in H as (j & -> & Hj).
  apply lookup_seq in Hj as [-> Hlt]. simpl in *.
  destruct (lookup_lt_is_Some_2 fs i Hlt) as [f Hf]. eauto.
Qed.

Lemma X5_setter_mark_witness :
  let m := ingest [fileAt "a.yml"; fileAt "c.txt"; fileAt "b.yml"] in
  liveMem m /\
  parseMark "*.yml:type=data" = Ok ("*.yml", "type", "data") /\
  setterOf "type" "data" = Some (fun f => MarkTemplate false (MarkType TypeUnknown f)) /\
  existsb (hits "*.yml" (heap m)) (slots m) = true /\
  exists h',
    applyOneMark "*.yml:type=data" [] m = (mkMem h' (slots m), Ok []) /\
    length h' = length (heap m) /\
    forall a f, heap m !! a = Some f ->
      h' !! a = Some (if matchesFile "*.yml" f && bool_decide (Some a ∈ slots m)
                      then MarkTemplate false (MarkType TypeUnknown f) else f).
Proof.
  cbv zeta. split; [apply liveMem_ingest|]. split; [reflexivity|].
  split; [reflexivity|]. split; [vm_compute; reflexivity|].
  apply (X5_setter_mark "*.yml:type=data" "*.yml" "type" "data");
    [apply liveMem_ingest | reflexivity | reflexivity | vm_compute; reflexivity].
Defined.

Lemma existsb_pointwise {A : Type} (p q : A -> bool) (l : list A) :
  (forall x, p x = q x) -> existsb p l = existsb q l.
Proof. intros H. induction l as [|x l IH]; simpl; [reflexivity | now rewrite H, IH]. Qed.

Lemma hits_updated (path : string) (upd : File -> File) (sl : list FilePtr)
    (h h' : list File) (p : FilePtr) :
  (forall f, originalRelativePath (upd f) = originalRelativePath f) ->
  updatedHits path upd sl h h' -> hits path h' p = hits path h p.
Proof.
  intros Orig [Len Look]. destruct p as [a|]; [|reflexivity]. simpl.
  destruct (h !! a) as [f|] eqn:Ha.
  - rewrite (Look a f Ha). apply matchesFile_original.
    destruct (matchesFile path f && bool_decide (Some a ∈ sl)); auto.
  - apply lookup_ge_None in Ha. rewrite <- Len in Ha.
    apply lookup_ge_None in Ha. now rewrite Ha.
Qed.

(** X6: on a collection without a cleared slot, applying a [path],
    [type] or [for-output=true] mark twice in a row has the outcome and
    leaves the memory of applying it once. *)
Theorem X6_setter_mark_idempotent (mark path key value : string)
    (upd : File -> File) (ex : list FilePtr) (m : Mem) :
  liveMem m ->
  parseMark mark = Ok (path, key, value) ->
  setterOf key value = Some upd ->
  applyMarks [mark; mark] ex m = applyMarks [mark] ex m.
Proof.
  intros L P HS. pose proof (setterOf_sound _ _ _ HS) as Snd.
  rewrite !applyMarks_cons.
  destruct (compiles path) eqn:C.
  2:{ assert (exists r, applyOneMark mark ex m = (m, r) /\ forall x, r <> Ok x)
        as (r & -> & Hr).
      { unfold applyOneMark. rewrite P. unfold bind at 1. unfold len. unfold bind.
        rewrite scanFiles_uncompiled by exact C.
        destruct (seq 0 (length (slots m))); simpl; eexists;
          (split; [reflexivity|]); discriminate. }
      destruct r as [x|e|]; [now destruct (Hr x) | reflexivity..]. }
  destruct (existsb (hits path (heap m)) (slots m)) eqn:Hit.
  - destruct (setter_mark_spec mark path key value upd ex m L P HS Hit)
      as (h' & E & U).
    rewrite E. rewrite applyMarks_cons.
    assert (liveMem (mkMem h' (slots m))) as L'.
    { intros i p Hi. simpl in *. destruct (L i p Hi) as (a & f & -> & Hf).
      destruct U as [_ Look]. exists a. eexists. split; [reflexivity|].
      apply (Look a f Hf). }
    assert (existsb (hits path h') (slots m) = true) as Hit'.
    { rewrite <- Hit. apply existsb_pointwise. intros p.
      apply (hits_updated path upd (slots m)); auto. intros f. apply Snd. }
    destruct (setter_mark_spec mark path key value upd ex _ L' P HS Hit')
      as (h'' & E' & U').
    simpl in E', U'. rewrite E'. simpl. f_equal. f_equal.
    destruct U as [Len Look], U' as [Len' Look'].
    apply list_eq. intros a. destruct (heap m !! a) as [f|] eqn:Ha.
    + pose proof (Look a f Ha) as Hg.
      set (g := if matchesFile path f && bool_decide (Some a ∈ slots m)
                then upd f else f) in *.
      rewrite (Look' a g Hg), Hg. f_equal.
      assert (matchesFile path g = matchesFile path f) as ->.
      { apply matchesFile_original. unfold g.
        destruct (matchesFile path f && bool_decide (Some a ∈ slots m)); auto.
        apply Snd. }
      unfold g. destruct (matchesFile path f && bool_decide (Some a ∈ slots m)); auto.
      apply Snd.
    + apply lookup_ge_None in Ha.
      rewrite (proj2 (lookup_ge_None h'' a)), (proj2 (lookup_ge_None h' a)); auto; lia.
  - rewrite (unmatched_mark_fails mark path key value ex m P); auto.
    now apply liveMem_missesAll.
Qed.

Lemma X6_setter_mark_idempotent_witness :
  let m := ingest [fileAt "a.yml"; fileAt "c.txt"] in
  liveMem m /\
  parseMark "a.yml:path=b.yml" = Ok ("a.yml", "path", "b.yml") /\
  setterOf "path" "b.yml" = Some (MarkRelativePath "b.yml") /\
  applyMarks ["a.yml:path=b.yml"; "a.yml:path=b.yml"] [] m =
  applyMarks ["a.yml:path=b.yml"] [] m.
Proof.
  cbv zeta. split; [apply liveMem_ingest|]. split; [reflexivity|].
  split; [reflexivity|].
  apply (X6_setter_mark_idempotent "a.yml:path=b.yml" "a.yml" "path" "b.yml"
           (MarkRelativePath "b.yml"));
    [apply liveMem_ingest | reflexivity | reflexivity].
Defined.

(** ** The [exclude] mark *)

Lemma applyMark_exclude (mark : string) (i : nat) (file : FilePtr)
    (ex : list FilePtr) (m : Mem) :
  applyMark mark "exclude" "true" i file ex m = (clear i ;; ret ex) m.
Proof. reflexivity. Qed.

Lemma scanFiles_exclude (mark path : string) (h : list File) (ex : list FilePtr) :
  compiles path = true ->
  forall (post pre : list FilePtr) (matched : bool),
    (forall p, In p post -> exists a f, p = Some a /\ h !! a = Some f) ->
    scanFiles mark path "exclude" "true" (seq (length pre) (length post)) matched ex
      (mkMem h (pre ++ post)) =
    (mkMem h (pre ++ clearHits path h post),
     Ok (matched || existsb (hits path h) post, ex)).
Proof.
  intros C. induction post as [|p post IH]; intros pre matched Live.
  - simpl. rewrite orb_false_r. apply scanFiles_nil.
  - destruct (Live p (or_introl eq_refl)) as (a & f & -> & Ha).
    simpl length. simpl seq. rewrite scanFiles_cons by exact C. simpl slots.
    rewrite list_lookup_middle by reflexivity. simpl fileOf. rewrite Ha.
    simpl clearHits. simpl existsb. simpl hits. rewrite Ha.
    specialize (IH (pre ++ [if matchesFile path f then None else Some a])).
    rewrite length_app, Nat.add_comm in IH. simpl in IH.
    destruct (matchesFile path f) eqn:Hit.
    + rewrite applyMark_exclude, clear_ret. simpl slots. simpl heap.
      rewrite list_lookup_middle by reflexivity.
      replace (<[length pre := None]> (pre ++ Some a :: post))
        with ((pre ++ [None]) ++ post).
      2:{ rewrite <- (Nat.add_0_r (length pre)), insert_app_r.
          simpl. now rewrite <- app_assoc. }
      rewrite IH by (intros p Hp; apply Live; now right).
      rewrite <- app_assoc. simpl. now rewrite orb_true_r.
    + replace (pre ++ Some a :: post) with ((pre ++ [Some a]) ++ post)
        by (now rewrite <- app_assoc).
      rewrite IH by (intros p Hp; apply Live; now right).
      now rewrite <- !app_assoc.
Qed.

Lemma clearNils_clearHits (path : string) (h : list File) (sl : list FilePtr) :
  Forall (fun p => is_Some p) sl ->
  clearNils (clearHits path h sl) = filter (fun p => hits path h p = false) sl.
Proof.
  induction 1 as [|p sl [a ->] _ IH]; [reflexivity|].
  change (clearHits path h (Some a :: sl))
    with ((if hits path h (Some a) then None else Some a) :: clearHits path h sl).
  destruct (hits path h (Some a)) eqn:Hit.
  - rewrite filter_cons_False by congruence. exact IH.
  - rewrite filter_cons_True by exact Hit. simpl. now rewrite IH.
Qed.

(** X7: on a collection without a cleared slot, an [exclude=true] mark
    that matches some file succeeds, writes to no file object, clears
    exactly the slots of the files it matches, and the compaction of what
    it leaves is the files it does not match, in their order. *)
Theorem X7_exclude_mark (mark path : string) (ex : list FilePtr) (m : Mem) :
  liveMem m ->
  parseMark mark = Ok (path, "exclude", "true") ->
  existsb (hits path (heap m)) (slots m) = true ->
  applyOneMark mark ex m =
    (mkMem (heap m) (map (fun p => if hits path (heap m) p then None else p) (slots m)),
     Ok ex) /\
  clearNils (map (fun p => if hits path (heap m) p then None else p) (slots m)) =
    filter (fun p => hits path (heap m) p = false) (slots m).
Proof.
  intros L P Hit. split.
  - unfold applyOneMark. rewrite P. unfold bind at 1. unfold len. unfold bind.
    pose proof (scanFiles_exclude mark path (heap m) ex (hits_compiles _ _ _ Hit)
                  (slots m) [] false (liveMem_In m L)) as E.
    simpl in E. destruct m as [h sl]. simpl in *. now rewrite E, Hit.
  - apply (clearNils_clearHits path (heap m) (slots m)).
    apply Forall_forall. intros p Hp. apply list_elem_of_In in Hp.
    destruct (liveMem_In m L p Hp) as (a & f & -> & _). eauto.
Qed.

Lemma X7_exclude_mark_witness :
  let m := ingest [fileAt "a.yml"; fileAt "c.txt"; fileAt "b.yml"] in
  liveMem m /\
  parseMark "*.yml:exclude=true" = Ok ("*.yml", "exclude", "true") /\
  existsb (hits "*.yml" (heap m)) (slots m) = true /\
  applyOneMark "*.yml:exclude=true" [] m =
    (mkMem (heap m) (map (fun p => if hits "*.yml" (heap m) p then None else p) (slots m)),
     Ok []) /\
  clearNils (map (fun p => if hits "*.yml" (heap m) p then None else p) (slots m)) =
    filter (fun p => hits "*.yml" (heap m) p = false) (slots m).
Proof.
  cbv zeta. split; [apply liveMem_ingest|]. split; [reflexivity|].
  split; [vm_compute; reflexivity|].
  apply (X7_exclude_mark "*.yml:exclude=true" "*.yml");
    [apply liveMem_ingest | reflexivity | vm_compute; reflexivity].
Defined.

(** ** The [exclusive-for-output] mark *)

Lemma scanFiles_exclusive_spec (mark path : string) (m : Mem) :
  compiles path = true ->
  forall (idx : list nat) (ps : list FilePtr) (matched : bool) (ex : list FilePtr),
    Forall2 (fun i p => slots m !! i = Some p) idx ps ->
    (forall p, In p ps -> exists a f, p = Some a /\ heap m !! a = Some f) ->
    scanFiles mark path "exclusive-for-output" "true" idx matched ex m =
    (m, Ok (matched || existsb (hits path (heap m)) ps,
            ex ++ filter (fun p => hits path (heap m) p = true) ps)).
Proof.
  intros C. induction idx as [|i idx IH]; intros ps matched ex F Live.
  - inversion F; subst. simpl. rewrite orb_false_r, app_nil_r. apply scanFiles_nil.
  - inversion F as [|i' p idx' ps' Hi F']; subst.
    destruct (Live p (or_introl eq_refl)) as (a & f & -> & Ha).
    rewrite scanFiles_cons, Hi by exact C. simpl fileOf. rewrite Ha.
    simpl existsb. simpl hits at 1. rewrite Ha.
    destruct (matchesFile path f) eqn:Hit.
    + rewrite applyMark_exclusive. simpl.
      rewrite IH with (ps := ps') by (auto; intros p Hp; apply Live; now right).
      rewrite filter_cons_True by (simpl; now rewrite Ha).
      rewrite <- app_assoc. simpl. now rewrite orb_true_r.
    + rewrite IH with (ps := ps') by (auto; intros p Hp; apply Live; now right).
      rewrite filter_cons_False by (simpl; rewrite Ha; congruence).
      reflexivity.
Qed.

Lemma Forall2_seq_lookup {A : Type} (l : list A) :
  Forall2 (fun i p => l !! i = Some p) (seq 0 (length l)) l.
Proof.
  apply Forall2_same_length_lookup_2; [now rewrite length_seq|].
  intros i j p Hj Hp. apply lookup_seq in Hj as [-> _]. exact Hp.
Qed.

Lemma exclusive_mark_spec (mark path : string) (ex : list FilePtr) (m : Mem) :
  liveMem m ->
  parseMark mark = Ok (path, "exclusive-for-output", "true") ->
  existsb (hits path (heap m)) (slots m) = true ->
  applyOneMark mark ex m =
    (m, Ok (ex ++ filter (fun p => hits path (heap m) p = true) (slots m))).
Proof.
  intros L P Hit. unfold applyOneMark. rewrite P. unfold bind at 1. unfold len.
  unfold bind.
  rewrite (scanFiles_exclusive_spec mark path m (hits_compiles _ _ _ Hit) _ (slots m))
    by (auto using Forall2_seq_lookup, liveMem_In).
  simpl. now rewrite Hit.
Qed.

(** X8: on a collection without a cleared slot, an
    [exclusive-for-output=true] mark that matches some file succeeds,
    writes nothing, and appends to the accumulator the pointers of the
    files it matches, in the order of the collection. *)
Theorem X8_exclusive_mark (mark path : string) (ex : list FilePtr) (m : Mem) :
  liveMem m ->
  parseMark mark = Ok (path, "exclusive-for-output", "true") ->
  existsb (hits path (heap m)) (slots m) = true ->
  applyOneMark mark ex m =
    (m, Ok (ex ++ filter (fun p => hits path (heap m) p = true) (slots m))).
Proof. apply exclusive_mark_spec. Qed.

Lemma X8_exclusive_mark_witness :
  let m := ingest [fileAt "a.yml"; fileAt "c.txt"; fileAt "b.yml"] in
  liveMem m /\
  parseMark "*.yml:exclusive-for-output=true" =
    Ok ("*.yml", "exclusive-for-output", "true") /\
  existsb (hits "*.yml" (heap m)) (slots m) = true /\
  applyOneMark "*.yml:exclusive-for-output=true" [Some 1] m =
    (m, Ok ([Some 1] ++ filter (fun p => hits "*.yml" (heap m) p = true) (slots m))).
Proof.
  cbv zeta. split; [apply liveMem_ingest|]. split; [reflexivity|].
  split; [vm_compute; reflexivity|].
  apply (X8_exclusive_mark "*.yml:exclusive-for-output=true" "*.yml");
    [apply liveMem_ingest | reflexivity | vm_compute; reflexivity].
Defined.

(** ** The final phase *)

Lemma markAllForOutput_frame {B : Type} (g : File -> B) (b : bool)
    (l : list FilePtr) (m m' : Mem) r :
  (forall f, g (MarkForOutput b f) = g f) ->
  markAllForOutput b l m = (m', r) ->
  slots m' = slots m /\ map g (heap m') = map g (heap m).
Proof.
  intros Hg. revert m. induction l as [|p l IH]; intros m.
  - now intros [= <- _].
  - rewrite markAllForOutput_cons. destruct p as [a|]; [|now intros [= <- _]].
    destruct (heap m !! a) as [f|] eqn:Ha; [|now intros [= <- _]].
    intros H. apply IH in H as [S H]. simpl in S, H. split; [exact S|].
    rewrite H. eapply map_insert_same; eauto.
Qed.

Lemma finish_frame {B : Type} (g : File -> B) (ex : list FilePtr) (m m' : Mem) r :
  (forall b f, g (MarkForOutput b f) = g f) ->
  finish ex m = (m', r) ->
  slots m' = slots m /\ map g (heap m') = map g (heap m).
Proof.
  intros Hg. unfold finish.
  destruct (Nat.ltb 0 (length ex)); [|now intros [= <- _]].
  unfold bind at 1.
  destruct (markAllForOutput false (clearNils (slots m)) m) as [m1 [[]|e|]] eqn:A;
    apply (markAllForOutput_frame g) in A as [S1 H1]; auto;
    [|now intros [= <- _]..].
  unfold bind.
  destruct (markAllForOutput true ex m1) as [m2 [[]|e|]] eqn:A2;
    apply (markAllForOutput_frame g) in A2 as [S2 H2]; auto;
    intros [= <- _]; split; congruence.
Qed.

(** X9: the final phase of [applyFileMarks] clears no slot and writes no
    field but the for-output flag: marked paths, content types and
    template flags are as the loop over the marks left them, whatever the
    outcome; and with an empty accumulator it writes nothing at all and
    returns the slots that are not cleared. *)
Theorem X9_finish_frame (exclusive : list FilePtr) (m m' : Mem) r :
  finish exclusive m = (m', r) ->
  slots m' = slots m /\
  map markedRelativePath (heap m') = map markedRelativePath (heap m) /\
  map typePair (heap m') = map typePair (heap m) /\
  (exclusive = [] -> m' = m /\ r = Ok (clearNils (slots m))).
Proof.
  intros F.
  destruct (finish_frame markedRelativePath _ _ _ _ ltac:(reflexivity) F) as [S H1].
  destruct (finish_frame typePair _ _ _ _ ltac:(reflexivity) F) as [_ H2].
  repeat split; auto; subst exclusive; now injection F as <- <-.
Qed.

Lemma X9_finish_frame_witness :
  let m := ingest [fileAt "a.yml"; fileAt "b.yml"] in
  let m' := mkMem [mkFile "a.yml" "a.yml" TypeYAML true false; fileAt "b.yml"]
                  [Some 0; Some 1] in
  finish [Some 1] m = (m', Ok [Some 0; Some 1]) /\
  slots m' = slots m /\
  map markedRelativePath (heap m') = map markedRelativePath (heap m) /\
  map typePair (heap m') = map typePair (heap m) /\
  ([Some 1] = [] -> m' = m /\ Ok [Some 0; Some 1] = Ok (clearNils (slots m))).
Proof.
  cbv zeta. split; [vm_compute; reflexivity|].
  apply (X9_finish_frame [Some 1] (ingest [fileAt "a.yml"; fileAt "b.yml"])).
  vm_compute. reflexivity.
Defined.

Lemma clearNils_id (l : list FilePtr) :
  Forall (fun p => is_Some p) l -> clearNils l = l.
Proof. induction 1 as [|p l [a ->] _ IH]; simpl; [reflexivity | now rewrite IH]. Qed.

Lemma liveMem_Forall (m : Mem) : liveMem m -> Forall (fun p => is_Some p) (slots m).
Proof.
  intros L. apply Forall_forall. intros p Hp. apply list_elem_of_In in Hp.
  destruct (liveMem_In m L p Hp) as (a & f & -> & _). eauto.
Qed.

Lemma liveMem_validPtrs (m : Mem) (l : list FilePtr) :
  liveMem m -> (forall p, In p l -> In p (slots m)) -> validPtrs m l.
Proof.
  intros L Sub p Hp. destruct (liveMem_In m L p (Sub p Hp)) as (a & f & -> & Hf).
  exists a. split; [reflexivity|]. eapply lookup_lt_Some, Hf.
Qed.

(** X10: on a collection without a cleared slot, a run of the single mark
    [pattern:exclusive-for-output=true] that matches some file returns the
    whole collection, and leaves each file of the collection with
    for-output set to whether the pattern matches it; nothing else is
    written. *)
Theorem X10_single_exclusive_run (mark path : string) (m : Mem) :
  liveMem m ->
  parseMark mark = Ok (path, "exclusive-for-output", "true") ->
  existsb (hits path (heap m)) (slots m) = true ->
  exists h',
    applyFileMarks [mark] m = (mkMem h' (slots m), Ok (slots m)) /\
    forall a f, heap m !! a = Some f ->
      h' !! a = Some (if bool_decide (Some a ∈ slots m)
                      then MarkForOutput (matchesFile path f) f else f).
Proof.
  intros L P Hit.
  set (ex := filter (fun p => hits path (heap m) p = true) (slots m)).
  assert (forall p, In p ex <-> In p (slots m) /\ hits path (heap m) p = true) as InEx.
  { intros p. unfold ex. rewrite <- !list_elem_of_In, list_elem_of_filter. tauto. }
  assert (ex <> []) as Hne.
  { apply existsb_exists in Hit as (p & Hp & Hh). intros E.
    assert (In p ex) as I by (apply InEx; auto). rewrite E in I. destruct I. }
  unfold applyFileMarks, bind. rewrite applyMarks_cons.
  rewrite (exclusive_mark_spec mark path [] m L P Hit). simpl app. fold ex.
  simpl applyMarks. unfold ret. unfold finish.
  destruct ex as [|p0 ex0] eqn:Eex; [congruence|]. rewrite <- Eex in *.
  replace (Nat.ltb 0 (length ex)) with true by (now rewrite Eex).
  rewrite (clearNils_id (slots m)) by now apply liveMem_Forall.
  destruct (markAllForOutput_spec false (slots m) m) as (h1 & E1 & L1 & Look1).
  { apply liveMem_validPtrs; auto. }
  destruct (markAllForOutput_spec true ex (mkMem h1 (slots m))) as (h2 & E2 & L2 & Look2).
  { intros p Hp. apply InEx in Hp as [Hp _].
    destruct (liveMem_In m L p Hp) as (a & f & -> & Hf). exists a. split; auto.
    simpl. rewrite L1. eapply lookup_lt_Some, Hf. }
  exists h2. split.
  { unfold bind. rewrite E1, E2. reflexivity. }
  intros a f Ha. destruct (Look1 a) as [In1 Out1], (Look2 a) as [In2 Out2].
  simpl in In2, Out2. rewrite Ha in In1, Out1.
  destruct (decide (Some a ∈ slots m)) as [I|I].
  - rewrite (bool_decide_eq_true_2 _ I). apply list_elem_of_In in I.
    destruct (matchesFile path f) eqn:Hm.
    + rewrite In2, In1 by (auto; apply InEx; simpl; rewrite Ha; auto). reflexivity.
    + rewrite Out2, In1; auto.
      intros Hx. apply InEx in Hx as [_ Hx]. simpl in Hx. rewrite Ha in Hx. congruence.
  - rewrite (bool_decide_eq_false_2 _ I).
    assert (~ In (Some a) (slots m)) as NI by (now rewrite <- list_elem_of_In).
    rewrite Out2, Out1; auto. intros Hx. apply InEx in Hx as [Hx _]. auto.
Qed.

Lemma X10_single_exclusive_run_witness :
  let m := ingest [fileAt "a.yml"; fileAt "config.yml"; fileAt "b.yml"] in
  let mark := "config.yml:exclusive-for-output=true" in
  liveMem m /\
  parseMark mark = Ok ("config.yml", "exclusive-for-output", "true") /\
  existsb (hits "config.yml" (heap m)) (slots m) = true /\
  exists h',
    applyFileMarks [mark] m = (mkMem h' (slots m), Ok (slots m)) /\
    forall a f, heap m !! a = Some f ->
      h' !! a = Some (if bool_decide (Some a ∈ slots m)
                      then MarkForOutput (matchesFile "config.yml" f) f else f).
Proof.
  cbv zeta. split; [apply liveMem_ingest|]. split; [reflexivity|].
  split; [vm_compute; reflexivity|].
  apply (X10_single_exclusive_run "config.yml:exclusive-for-output=true" "config.yml");
    [apply liveMem_ingest | reflexivity | vm_compute; reflexivity].
Defined.

(** ** Failures of the run *)

Lemma applyOneMark_malformed (mark : string) (e : error) (ex : list FilePtr) (m : Mem) :
  parseMark mark = Err e -> applyOneMark mark ex m = (m, Err e).
Proof. intros P. unfold applyOneMark. now rewrite P. Qed.

(** X11: a malformed mark fails the run when the loop reaches it, without
    a scan of the collection, so even after a slot has been cleared: the
    marks before it have been applied and their writes stay, the marks
    after it are not looked at, and the error is a MalformedMarkSyntax
    one. *)
Theorem X11_malformed_mark_fails_when_reached (before after : list string)
    (mark : string) (e : error) (ex1 : list FilePtr) (m m1 : Mem) :
  applyMarks before [] m = (m1, Ok ex1) ->
  parseMark mark = Err e ->
  applyFileMarks (before ++ mark :: after) m = (m1, Err e) /\
  kindOf e = MalformedMarkSyntax.
Proof.
  intros B P. split.
  - unfold applyFileMarks, bind.
    now rewrite (applyMarks_fail_fast before after mark [] ex1 m m1 m1 e B
                   (applyOneMark_malformed mark e ex1 m1 P)).
  - rewrite parseMark_eq in P.
    destruct (strings.Cut ":" mark) as [[p rest]|];
      [destruct (strings.Cut "=" rest) as [[k v]|]|];
      try discriminate; now injection P as <-.
Qed.

Lemma X11_malformed_mark_fails_when_reached_witness :
  let m := ingest [fileAt "a.yml"; fileAt "b.yml"] in
  let m1 := mkMem (heap m) [None; Some 1] in
  applyMarks ["a.yml:exclude=true"] [] m = (m1, Ok []) /\
  parseMark "b.yml=path" = Err (ErrMarkFormat "b.yml=path") /\
  applyFileMarks (["a.yml:exclude=true"] ++ "b.yml=path" :: ["b.yml:type=data"]) m =
    (m1, Err (ErrMarkFormat "b.yml=path")) /\
  kindOf (ErrMarkFormat "b.yml=path") = MalformedMarkSyntax.
Proof.
  cbv zeta. split; [vm_compute; reflexivity|]. split; [reflexivity|].
  apply (X11_malformed_mark_fails_when_reached ["a.yml:exclude=true"]
           ["b.yml:type=data"] "b.yml=path" _ []);
    [vm_compute; reflexivity | reflexivity].
Defined.

(** X12: with an empty collection every well-formed first mark fails the
    run with the unmatched-pattern error, whatever its pattern, key and
    value, and nothing is written. *)
Theorem X12_empty_collection (mark path key value : string) (rest : list string)
    (m : Mem) :
  slots m = [] ->
  parseMark mark = Ok (path, key, value) ->
  applyFileMarks (mark :: rest) m = (m, Err (ErrNoMatch mark)).
Proof.
  intros S P. unfold applyFileMarks, bind. rewrite applyMarks_cons.
  rewrite (unmatched_mark_fails mark path key value [] m P); [reflexivity|].
  intros i p Hi. rewrite S in Hi. discriminate.
Qed.

Lemma X12_empty_collection_witness :
  slots (ingest []) = [] /\
  parseMark "**/*:bogus=1" = Ok ("**/*", "bogus", "1") /\
  applyFileMarks ("**/*:bogus=1" :: ["a.yml:path=b.yml"]) (ingest []) =
    (ingest [], Err (ErrNoMatch "**/*:bogus=1")).
Proof.
  split; [reflexivity|]. split; [reflexivity|].
  apply (X12_empty_collection "**/*:bogus=1" "**/*" "bogus" "1"); reflexivity.
Defined.

(** X13: once a slot is cleared, no further mark succeeds: from a
    collection with a cleared slot, a run of one or more marks never
    returns a collection. *)
Theorem X13_no_mark_after_cleared_slot (fileMarks : list string) (m m' : Mem)
    (i : nat) (out : list FilePtr) :
  slots m !! i = Some None ->
  fileMarks <> [] ->
  applyFileMarks fileMarks m <> (m', Ok out).
Proof.
  intros Hi Hne Run. destruct fileMarks as [|mark rest]; [congruence|].
  unfold applyFileMarks, bind in Run. rewrite applyMarks_cons in Run.
  destruct (applyOneMark mark [] m) as [m1 [ex1|e|]] eqn:O; try discriminate.
  eapply applyOneMark_cleared in O; eauto.
Qed.

Lemma X13_no_mark_after_cleared_slot_witness :
  let m := mkMem [fileAt "a.yml"; fileAt "b.yml"] [None; Some 1] in
  slots m !! 0 = Some None /\
  ["b.yml:path=c.yml"] <> [] /\
  applyFileMarks ["b.yml:path=c.yml"] m <> (m, Ok [Some 1]).
Proof.
  cbv zeta. split; [reflexivity|]. split; [discriminate|].
  apply (X13_no_mark_after_cleared_slot ["b.yml:path=c.yml"]
           (mkMem [fileAt "a.yml"; fileAt "b.yml"] [None; Some 1])
           (mkMem [fileAt "a.yml"; fileAt "b.yml"] [None; Some 1]) 0 [Some 1]);
    [reflexivity | discriminate].
Defined.

(** X14: in a run that succeeds on a collection without a cleared slot,
    no mark but the last clears a slot: before the last mark the slots
    are those the run was given. *)
Theorem X14_only_last_mark_excludes (before : list string) (last : string)
    (m m' : Mem) (out : list FilePtr) :
  liveMem m ->
  applyFileMarks (before ++ [last]) m = (m', Ok out) ->
  exists m1 ex1,
    applyMarks before [] m = (m1, Ok ex1) /\ slots m1 = slots m.
Proof.
  intros L Run. unfold applyFileMarks, bind in Run.
  rewrite applyMarks_app in Run.
  destruct (applyMarks before [] m) as [m1 [ex1|e|]] eqn:B; try discriminate.
  exists m1, ex1. split; [reflexivity|].
  rewrite applyMarks_cons in Run.
  destruct (applyOneMark last ex1 m1) as [m2 [ex2|e|]] eqn:O; try discriminate.
  apply applyMarks_inv in B as [[_ S] _].
  apply list_eq_same_length with (length (slots m));
    [reflexivity | symmetry; eapply Forall2_length, S |].
  intros j p1 p Hj H1 H0.
  destruct (Forall2_lookup_lr _ _ _ _ _ _ S H0 H1) as [->| ->]; [reflexivity|].
  exfalso. eapply (applyOneMark_cleared last ex1 m1 m2 _ j H1 O). reflexivity.
Qed.

Lemma X14_only_last_mark_excludes_witness :
  let m := ingest [fileAt "a.yml"; fileAt "b.yml"] in
  let m' := mkMem [fileAt "a.yml"; mkFile "b.yml" "c.yml" TypeYAML true true]
                  [None; Some 1] in
  liveMem m /\
  applyFileMarks (["b.yml:path=c.yml"] ++ ["a.yml:exclude=true"]) m = (m', Ok [Some 1]) /\
  exists m1 ex1,
    applyMarks ["b.yml:path=c.yml"] [] m = (m1, Ok ex1) /\ slots m1 = slots m.
Proof.
  cbv zeta. split; [apply liveMem_ingest|]. split; [vm_compute; reflexivity|].
  apply (X14_only_last_mark_excludes ["b.yml:path=c.yml"] "a.yml:exclude=true"
           (ingest [fileAt "a.yml"; fileAt "b.yml"])
           (mkMem [fileAt "a.yml"; mkFile "b.yml" "c.yml" TypeYAML true true]
                  [None; Some 1]) [Some 1]);
    [apply liveMem_ingest | vm_compute; reflexivity].
Defined.

(** ** How setter marks compose *)

Lemma liveMem_updated (path : string) (upd : File -> File) (m : Mem) (h' : list File) :
  liveMem m -> updatedHits path upd (slots m) (heap m) h' ->
  liveMem (mkMem h' (slots m)).
Proof.
  intros L [_ Look] i p Hi. simpl in *. destruct (L i p Hi) as (a & f & -> & Hf).
  exists a. eexists. split; [reflexivity|]. apply (Look a f Hf).
Qed.

Lemma hits_updated_other (path1 path2 : string) (upd : File -> File)
    (sl : list FilePtr) (h h' : list File) (p : FilePtr) :
  (forall f, originalRelativePath (upd f) = originalRelativePath f) ->
  updatedHits path1 upd sl h h' -> hits path2 h' p = hits path2 h p.
Proof.
  intros Orig [Len Look]. destruct p as [a|]; [|reflexivity]. simpl.
  destruct (h !! a) as [f|] eqn:Ha.
  - rewrite (Look a f Ha). apply matchesFile_original.
    destruct (matchesFile path1 f && bool_decide (Some a ∈ sl)); auto.
  - apply lookup_ge_None in Ha. rewrite <- Len in Ha.
    apply lookup_ge_None in Ha. now rewrite Ha.
Qed.

(** Two setter marks in a row, on a collection without a cleared slot. *)
Lemma two_setter_marks (mark1 path1 key1 value1 mark2 path2 key2 value2 : string)
    (upd1 upd2 : File -> File) (ex : list FilePtr) (m : Mem) :
  liveMem m ->
  parseMark mark1 = Ok (path1, key1, value1) -> setterOf key1 value1 = Some upd1 ->
  parseMark mark2 = Ok (path2, key2, value2) -> setterOf key2 value2 = Some upd2 ->
  existsb (hits path1 (heap m)) (slots m) = true ->
  existsb (hits path2 (heap m)) (slots m) = true ->
  exists h',
    applyMarks [mark1; mark2] ex m = (mkMem h' (slots m), Ok ex) /\
    length h' = length (heap m) /\
    forall a f, heap m !! a = Some f ->
      h' !! a =
      Some (if matchesFile path2 f && bool_decide (Some a ∈ slots m)
            then upd2 (if matchesFile path1 f && bool_decide (Some a ∈ slots m)
                       then upd1 f else f)
            else if matchesFile path1 f && bool_decide (Some a ∈ slots m)
                 then upd1 f else f).
Proof.
  intros L P1 S1 P2 S2 H1 H2.
  pose proof (setterOf_sound _ _ _ S1) as Snd1.
  destruct (setter_mark_spec mark1 path1 key1 value1 upd1 ex m L P1 S1 H1)
    as (h1 & E1 & U1).
  pose proof (liveMem_updated _ _ _ _ L U1) as L1.
  assert (existsb (hits path2 h1) (slots m) = true) as H2'.
  { rewrite <- H2. apply existsb_pointwise. intros p.
    apply (hits_updated_other path1 path2 upd1 (slots m)); auto.
    intros f. apply Snd1. }
  destruct (setter_mark_spec mark2 path2 key2 value2 upd2 ex _ L1 P2 S2 H2')
    as (h2 & E2 & U2).
  simpl in E2, U2. exists h2. split.
  { rewrite applyMarks_cons, E1, applyMarks_cons, E2. reflexivity. }
  destruct U1 as [Len1 Look1], U2 as [Len2 Look2]. split; [congruence|].
  intros a f Ha. pose proof (Look1 a f Ha) as Hg.
  set (g := if matchesFile path1 f && bool_decide (Some a ∈ slots m)
            then upd1 f else f) in *.
  rewrite (Look2 a g Hg). f_equal.
  rewrite (matchesFile_original path2 f g); [reflexivity|].
  unfold g. destruct (matchesFile path1 f && bool_decide (Some a ∈ slots m)); auto.
  apply Snd1.
Qed.

Lemma heap_ext (h1 h2 h : list File) (F1 F2 : nat -> File -> File) :
  length h1 = length h -> length h2 = length h ->
  (forall a f, h !! a = Some f -> h1 !! a = Some (F1 a f)) ->
  (forall a f, h !! a = Some f -> h2 !! a = Some (F2 a f)) ->
  (forall a f, h !! a = Some f -> F1 a f = F2 a f) ->
  h1 = h2.
Proof.
  intros L1 L2 H1 H2 E. apply list_eq. intros a.
  destruct (h !! a) as [f|] eqn:Ha.
  - rewrite (H1 a f Ha), (H2 a f Ha), (E a f Ha). reflexivity.
  - apply lookup_ge_None in Ha.
    rewrite (proj2 (lookup_ge_None h1 a)), (proj2 (lookup_ge_None h2 a)); auto; lia.
Qed.

Lemma setterOf_overwrite (key v1 v2 : string) (upd1 upd2 : File -> File) :
  setterOf key v1 = Some upd1 -> setterOf key v2 = Some upd2 ->
  forall f, upd2 (upd1 f) = upd2 f.
Proof.
  unfold setterOf.
  destruct (String.eqb key "path"); [now intros [= <-] [= <-]|].
  destruct (String.eqb key "type").
  { destruct (assoc v1 typePairs) as [[t1 b1]|]; [|discriminate].
    destruct (assoc v2 typePairs) as [[t2 b2]|]; [|discriminate].
    now intros [= <-] [= <-]. }
  destruct (String.eqb key "for-output"); [|discriminate].
  destruct (String.eqb v1 "true"); [|discriminate].
  destruct (String.eqb v2 "true"); [|discriminate].
  now intros [= <-] [= <-].
Qed.

Lemma setterOf_commute (key1 v1 key2 v2 : string) (upd1 upd2 : File -> File) :
  key1 <> key2 ->
  setterOf key1 v1 = Some upd1 -> setterOf key2 v2 = Some upd2 ->
  forall f, upd2 (upd1 f) = upd1 (upd2 f).
Proof.
  unfold setterOf. intros Hne.
  destruct (String.eqb_spec key1 "path") as [->|_];
    [|destruct (String.eqb_spec key1 "type") as [->|_];
      [|destruct (String.eqb_spec key1 "for-output") as [->|_]; [|discriminate]]];
  (destruct (String.eqb_spec key2 "path") as [->|_];
    [|destruct (String.eqb_spec key2 "type") as [->|_];
      [|destruct (String.eqb_spec key2 "for-output") as [->|_]; [|discriminate]]]);
  try congruence;
  repeat match goal with
  | |- context [assoc ?v typePairs] => destruct (assoc v typePairs) as [[? ?]|]
  | |- context [String.eqb ?v "true"] => destruct (String.eqb v "true")
  end; try discriminate; now intros [= <-] [= <-].
Qed.

(** X15: on a collection without a cleared slot, of two marks in a row
    with the same pattern and the same key among [path], [type] and
    [for-output], the later one wins: when the pattern matches some file
    the run of both is the run of the second alone. *)
Theorem X15_later_setter_mark_wins (mark1 mark2 path key value1 value2 : string)
    (upd1 upd2 : File -> File) (ex : list FilePtr) (m : Mem) :
  liveMem m ->
  parseMark mark1 = Ok (path, key, value1) -> setterOf key value1 = Some upd1 ->
  parseMark mark2 = Ok (path, key, value2) -> setterOf key value2 = Some upd2 ->
  existsb (hits path (heap m)) (slots m) = true ->
  applyMarks [mark1; mark2] ex m = applyMarks [mark2] ex m.
Proof.
  intros L P1 S1 P2 S2 Hit.
  destruct (two_setter_marks mark1 path key value1 mark2 path key value2
              upd1 upd2 ex m L P1 S1 P2 S2 Hit Hit) as (h12 & E12 & Len12 & Look12).
  destruct (setter_mark_spec mark2 path key value2 upd2 ex m L P2 S2 Hit)
    as (h2 & E2 & Len2 & Look2).
  rewrite E12, applyMarks_cons, E2. simpl applyMarks. unfold ret. f_equal. f_equal.
  apply (heap_ext h12 h2 (heap m)
           (fun a f =>
              if matchesFile path f && bool_decide (Some a ∈ slots m)
              then upd2 (if matchesFile path f && bool_decide (Some a ∈ slots m)
                         then upd1 f else f)
              else if matchesFile path f && bool_decide (Some a ∈ slots m)
                   then upd1 f else f)
           (fun a f =>
              if matchesFile path f && bool_decide (Some a ∈ slots m)
              then upd2 f else f)); auto.
  intros a f Ha.
  destruct (matchesFile path f && bool_decide (Some a ∈ slots m)); auto.
  eapply setterOf_overwrite; eauto.
Qed.

Lemma X15_later_setter_mark_wins_witness :
  let m := ingest [fileAt "a.yml"; fileAt "c.txt"] in
  liveMem m /\
  parseMark "*.yml:type=data" = Ok ("*.yml", "type", "data") /\
  setterOf "type" "data" = Some (fun f => MarkTemplate false (MarkType TypeUnknown f)) /\
  parseMark "*.yml:type=text-template" = Ok ("*.yml", "type", "text-template") /\
  setterOf "type" "text-template" = Some (fun f => MarkTemplate true (MarkType TypeText f)) /\
  existsb (hits "*.yml" (heap m)) (slots m) = true /\
  applyMarks ["*.yml:type=data"; "*.yml:type=text-template"] [] m =
  applyMarks ["*.yml:type=text-template"] [] m.
Proof.
  cbv zeta. split; [apply liveMem_ingest|]. split; [reflexivity|].
  split; [reflexivity|]. split; [reflexivity|]. split; [reflexivity|].
  split; [vm_compute; reflexivity|].
  apply (X15_later_setter_mark_wins "*.yml:type=data" "*.yml:type=text-template"
           "*.yml" "type" "data" "text-template"
           (fun f => MarkTemplate false (MarkType TypeUnknown f))
           (fun f => MarkTemplate true (MarkType TypeText f)));
    [apply liveMem_ingest | reflexivity | reflexivity | reflexivity | reflexivity
    | vm_compute; reflexivity].
Defined.

(** X16: on a collection without a cleared slot, two marks with different
    keys among [path], [type] and [for-output], each matching some file,
    commute: the run has the same outcome and leaves the same memory in
    either order, whatever the two patterns. *)
Theorem X16_setter_marks_commute
    (mark1 path1 key1 value1 mark2 path2 key2 value2 : string)
    (upd1 upd2 : File -> File) (ex : list FilePtr) (m : Mem) :
  liveMem m ->
  key1 <> key2 ->
  parseMark mark1 = Ok (path1, key1, value1) -> setterOf key1 value1 = Some upd1 ->
  parseMark mark2 = Ok (path2, key2, value2) -> setterOf key2 value2 = Some upd2 ->
  existsb (hits path1 (heap m)) (slots m) = true ->
  existsb (hits path2 (heap m)) (slots m) = true ->
  applyMarks [mark1; mark2] ex m = applyMarks [mark2; mark1] ex m.
Proof.
  intros L Hne P1 S1 P2 S2 H1 H2.
  destruct (two_setter_marks mark1 path1 key1 value1 mark2 path2 key2 value2
              upd1 upd2 ex m L P1 S1 P2 S2 H1 H2) as (h12 & E12 & Len12 & Look12).
  destruct (two_setter_marks mark2 path2 key2 value2 mark1 path1 key1 value1
              upd2 upd1 ex m L P2 S2 P1 S1 H2 H1) as (h21 & E21 & Len21 & Look21).
  rewrite E12, E21. f_equal. f_equal.
  apply (heap_ext h12 h21 (heap m)
           (fun a f =>
              if matchesFile path2 f && bool_decide (Some a ∈ slots m)
              then upd2 (if matchesFile path1 f && bool_decide (Some a ∈ slots m)
                         then upd1 f else f)
              else if matchesFile path1 f && bool_decide (Some a ∈ slots m)
                   then upd1 f else f)
           (fun a f =>
              if matchesFile path1 f && bool_decide (Some a ∈ slots m)
              then upd1 (if matchesFile path2 f && bool_decide (Some a ∈ slots m)
                         then upd2 f else f)
              else if matchesFile path2 f && bool_decide (Some a ∈ slots m)
                   then upd2 f else f)); auto.
  intros a f Ha.
  destruct (matchesFile path1 f && bool_decide (Some a ∈ slots m)),
           (matchesFile path2 f && bool_decide (Some a ∈ slots m)); auto.
  eapply setterOf_commute; eauto.
Qed.

Lemma X16_setter_marks_commute_witness :
  let m := ingest [fileAt "a.yml"; fileAt "c.txt"] in
  liveMem m /\
  "path" <> "type" /\
  parseMark "a.yml:path=b.yml" = Ok ("a.yml", "path", "b.yml") /\
  setterOf "path" "b.yml" = Some (MarkRelativePath "b.yml") /\
  parseMark "*.yml:type=data" = Ok ("*.yml", "type", "data") /\
  setterOf "type" "data" = Some (fun f => MarkTemplate false (MarkType TypeUnknown f)) /\
  existsb (hits "a.yml" (heap m)) (slots m) = true /\
  existsb (hits "*.yml" (heap m)) (slots m) = true /\
  applyMarks ["a.yml:path=b.yml"; "*.yml:type=data"] [] m =
  applyMarks ["*.yml:type=data"; "a.yml:path=b.yml"] [] m.
Proof.
  cbv zeta. split; [apply liveMem_ingest|]. split; [discriminate|].
  split; [reflexivity|]. split; [reflexivity|]. split; [reflexivity|].
  split; [reflexivity|]. split; [vm_compute; reflexivity|].
  split; [vm_compute; reflexivity|].
  apply (X16_setter_marks_commute "a.yml:path=b.yml" "a.yml" "path" "b.yml"
           "*.yml:type=data" "*.yml" "type" "data"
           (MarkRelativePath "b.yml")
           (fun f => MarkTemplate false (MarkType TypeUnknown f)));
    [apply liveMem_ingest | discriminate | reflexivity | reflexivity | reflexivity
    | reflexivity | vm_compute; reflexivity | vm_compute; reflexivity].
Defined.

(** ** Patterns with one wildcard *)

Lemma GlobMatch_literals_app (multi : utf8.rune -> bool) (p : list utf8.rune)
    (ts : list token) (s : list utf8.rune) :
  GlobMatch multi (map TLit p ++ ts) s <->
  exists s', s = p ++ s' /\ GlobMatch multi ts s'.
Proof.
  revert s. induction p as [|c p IH]; intros s; simpl.
  - split; [eauto | now intros (s' & -> & H)].
  - split.
    + intros H. inversion H; subst.
      match goal with
      | Hm : GlobMatch _ (map TLit p ++ ts) _ |- _ => apply IH in Hm as (s' & -> & H')
      end.
      eauto.
    + intros (s' & -> & H'). constructor. apply IH. eauto.
Qed.

Lemma firstMulti_app_no_star (pre l : list utf8.rune) :
  ~ In "*" pre -> firstMulti (pre ++ l) = map TLit pre ++ firstMulti l.
Proof.
  induction pre as [|c pre IH]; [reflexivity|]. intros H. simpl app.
  rewrite firstMulti_cons, hasPrefix_multiLevel_head by (intros ->; apply H; now left).
  simpl. rewrite IH; [reflexivity|]. intros I. apply H. now right.
Qed.

Lemma hasPrefix_no_star (n l : list utf8.rune) :
  ~ In "*" l -> hasPrefix ("*" :: n) l = false.
Proof.
  destruct l as [|r l]; [reflexivity|]. intros H.
  change (hasPrefix ("*" :: n) (r :: l)) with (String.eqb "*" r && hasPrefix n l).
  destruct (String.eqb_spec "*" r) as [<-|N]; [|reflexivity].
  exfalso. apply H. now left.
Qed.

Lemma runes_single (pre post : string) :
  utf8.runes (pre +:+ "*" +:+ post) = utf8.runes pre ++ "*" :: utf8.runes post.
Proof.
  rewrite runes_app_ASCII by (now intros d b' [= <- _]).
  change ("*" +:+ post) with (String "*" post). now rewrite runes_ASCII.
Qed.

Lemma valid_single (pre post : string) :
  utf8.ValidString (pre +:+ "*" +:+ post) = utf8.ValidString pre && utf8.ValidString post.
Proof.
  rewrite valid_app_ASCII by (now intros d b' [= <- _]).
  change ("*" +:+ post) with (String "*" post). now rewrite valid_ASCII.
Qed.

Lemma runes_multi (pre post : string) :
  utf8.runes (pre +:+ "**/*" +:+ post) = utf8.runes pre ++ multiLevel ++ utf8.runes post.
Proof.
  rewrite runes_app_ASCII by (now intros d b' [= <- _]).
  change ("**/*" +:+ post) with (String "*" (String "*" (String "/" (String "*" post)))).
  now rewrite !runes_ASCII.
Qed.

Lemma valid_multi (pre post : string) :
  utf8.ValidString (pre +:+ "**/*" +:+ post) = utf8.ValidString pre && utf8.ValidString post.
Proof.
  rewrite valid_app_ASCII by (now intros d b' [= <- _]).
  change ("**/*" +:+ post) with (String "*" (String "*" (String "/" (String "*" post)))).
  now rewrite !valid_ASCII.
Qed.

Lemma firstWildcards_single (pre post : string) :
  strings.contains "*" pre = false -> strings.contains "*" post = false ->
  firstWildcards (pre +:+ "*" +:+ post) =
  map TLit (utf8.runes pre) ++ TSingle :: map TLit (utf8.runes post).
Proof.
  intros Hpre Hpost. apply runes_no_star in Hpre, Hpost.
  unfold firstWildcards. rewrite runes_single.
  rewrite firstMulti_app_no_star by exact Hpre.
  assert (firstMulti ("*" :: utf8.runes post) = TLit "*" :: map TLit (utf8.runes post))
    as ->.
  { rewrite firstMulti_cons.
    change (hasPrefix multiLevel ("*" :: utf8.runes post))
      with (hasPrefix ["*"; "/"; "*"] (utf8.runes post)).
    rewrite hasPrefix_no_star, firstMulti_no_star by exact Hpost. reflexivity. }
  rewrite firstSingle_literals_app by exact Hpre. reflexivity.
Qed.

Lemma firstWildcards_multi (pre post : string) :
  strings.contains "*" pre = false -> strings.contains "*" post = false ->
  firstWildcards (pre +:+ "**/*" +:+ post) =
  map TLit (utf8.runes pre) ++ TMulti :: map TLit (utf8.runes post).
Proof.
  intros Hpre Hpost. apply runes_no_star in Hpre, Hpost.
  unfold firstWildcards. rewrite runes_multi.
  rewrite firstMulti_app_no_star by exact Hpre.
  change (firstMulti (multiLevel ++ utf8.runes post))
    with (TMulti :: map TLit (utf8.runes post)).
  rewrite firstSingle_literals_app by exact Hpre. simpl.
  now rewrite firstSingle_no_star.
Qed.

Lemma GlobMatch_wildcard (multi : utf8.rune -> bool) (t : token)
    (cls : utf8.rune -> bool) (pre post s : list utf8.rune) :
  (t = TSingle /\ cls = notSeparator) \/ (t = TMulti /\ cls = multi) ->
  GlobMatch multi (map TLit pre ++ t :: map TLit post) s <->
  exists w, w <> [] /\ forallb cls w = true /\ s = pre ++ w ++ post.
Proof.
  intros Ht. rewrite GlobMatch_literals_app. split.
  - intros (s' & -> & H).
    destruct Ht as [[-> ->]|[-> ->]]; inversion H; subst;
      match goal with
      | Hm : GlobMatch _ (map TLit _) _ |- _ => apply GlobMatch_literals in Hm as <-
      end; eauto.
  - intros (w & Hw & Hall & ->). exists (w ++ post). split; [reflexivity|].
    destruct Ht as [[-> ->]|[-> ->]]; constructor; auto; now apply GlobMatch_literals.
Qed.

(** X17: a pattern with one [*] and no other star, [pre*post], valid
    UTF-8, matches a file exactly when its original relative path, read
    rune by rune, is [pre], then one or more runes none of which is the
    path separator, then [post]. *)
Theorem X17_single_level_wildcard (m : Mem) (a : nat) (F : File) (pre post : string) :
  heap m !! a = Some F ->
  utf8.ValidString pre = true ->
  utf8.ValidString post = true ->
  strings.contains "*" pre = false ->
  strings.contains "*" post = false ->
  exists b,
    fileMarkMatches (Some a) (pre +:+ "*" +:+ post) m = (m, Ok b) /\
    (b = true <->
     exists w, w <> [] /\ forallb notSeparator w = true /\
               utf8.runes (originalRelativePath F) =
               utf8.runes pre ++ w ++ utf8.runes post).
Proof.
  intros H Vpre Vpost Hpre Hpost.
  assert (utf8.ValidString (pre +:+ "*" +:+ post) = true) as V
    by (now rewrite valid_single, Vpre, Vpost).
  exists (matchesFile (pre +:+ "*" +:+ post) F). split.
  - now apply fileMarkMatches_valid.
  - rewrite matchesFile_spec, firstWildcards_single by assumption.
    apply GlobMatch_wildcard. now left.
Qed.

Lemma X17_single_level_wildcard_witness :
  let m := ingest [fileAt "cfg/a.yml"] in
  heap m !! 0 = Some (fileAt "cfg/a.yml") /\
  utf8.ValidString "cfg/" = true /\
  utf8.ValidString ".yml" = true /\
  strings.contains "*" "cfg/" = false /\
  strings.contains "*" ".yml" = false /\
  exists b,
    fileMarkMatches (Some 0) ("cfg/" +:+ "*" +:+ ".yml") m = (m, Ok b) /\
    (b = true <->
     exists w, w <> [] /\ forallb notSeparator w = true /\
               utf8.runes (originalRelativePath (fileAt "cfg/a.yml")) =
               utf8.runes "cfg/" ++ w ++ utf8.runes ".yml").
Proof.
  cbv zeta. split; [reflexivity|]. split; [reflexivity|]. split; [reflexivity|].
  split; [reflexivity|]. split; [reflexivity|].
  apply (X17_single_level_wildcard (ingest [fileAt "cfg/a.yml"]) 0); reflexivity.
Defined.

(** X18: a pattern with one [**/*] and no other star, [pre**/*post],
    valid UTF-8, matches a file exactly when its original relative path,
    read rune by rune, is [pre], then one or more runes none of which is
    a line feed (path separators are allowed), then [post]. *)
Theorem X18_multi_level_wildcard (m : Mem) (a : nat) (F : File) (pre post : string) :
  heap m !! a = Some F ->
  utf8.ValidString pre = true ->
  utf8.ValidString post = true ->
  strings.contains "*" pre = false ->
  strings.contains "*" post = false ->
  exists b,
    fileMarkMatches (Some a) (pre +:+ "**/*" +:+ post) m = (m, Ok b) /\
    (b = true <->
     exists w, w <> [] /\ forallb notNewline w = true /\
               utf8.runes (originalRelativePath F) =
               utf8.runes pre ++ w ++ utf8.runes post).
Proof.
  intros H Vpre Vpost Hpre Hpost.
  assert (utf8.ValidString (pre +:+ "**/*" +:+ post) = true) as V
    by (now rewrite valid_multi, Vpre, Vpost).
  exists (matchesFile (pre +:+ "**/*" +:+ post) F). split.
  - now apply fileMarkMatches_valid.
  - rewrite matchesFile_spec, firstWildcards_multi by assumption.
    apply GlobMatch_wildcard. now right.
Qed.

Lemma X18_multi_level_wildcard_witness :
  let m := ingest [fileAt "lib/x/y/a.yml"] in
  heap m !! 0 = Some (fileAt "lib/x/y/a.yml") /\
  utf8.ValidString "lib/" = true /\
  utf8.ValidString ".yml" = true /\
  strings.contains "*" "lib/" = false /\
  strings.contains "*" ".yml" = false /\
  exists b,
    fileMarkMatches (Some 0) ("lib/" +:+ "**/*" +:+ ".yml") m = (m, Ok b) /\
    (b = true <->
     exists w, w <> [] /\ forallb notNewline w = true /\
               utf8.runes (originalRelativePath (fileAt "lib/x/y/a.yml")) =
               utf8.runes "lib/" ++ w ++ utf8.runes ".yml").
Proof.
  cbv zeta. split; [reflexivity|]. split; [reflexivity|]. split; [reflexivity|].
  split; [reflexivity|]. split; [reflexivity|].
  apply (X18_multi_level_wildcard (ingest [fileAt "lib/x/y/a.yml"]) 0); reflexivity.
Defined.

(** ** The output step, on its error paths *)

(** X19: [Output] prints only when it succeeds, and it uses one
    collaborator at most: if it prints, it returns no error and has
    serialized with the printer of a recognized output type, no output
    directory being configured; if it calls the directory writer, that is
    its only call and the writer's result is what it returns; and when
    the serializer fails it returns the marshaling error around the cause
    and prints nothing. *)
Theorem X19_output_error_paths {OutputFile DocSet : Type}
    (Write : string -> list OutputFile -> option error)
    (AsBytesWithPrinter : DocSet -> printerFunc -> string + error)
    (opts : RegularFilesSourceOpts) (out : TemplateOutput OutputFile DocSet) :
  let r := Output Write AsBytesWithPrinter opts out in
  (forall bytes, In (EvPrintf bytes) (fst r) ->
     snd r = None /\ outErr out = None /\ outputDir opts = EmptyString /\
     exists p, selectPrinter (outputType opts) = Some p /\
               AsBytesWithPrinter (outDocSet out) p = inl bytes) /\
  (forall dir fs, In (EvWriteDirectory dir fs) (fst r) ->
     r = ([EvWriteDirectory dir fs], Write dir fs) /\
     dir = outputDir opts /\ fs = outFiles out) /\
  (forall p err,
     outErr out = None -> outputDir opts = EmptyString ->
     selectPrinter (outputType opts) = Some p ->
     AsBytesWithPrinter (outDocSet out) p = inr err ->
     r = ([EvAsBytesWithPrinter p], Some (ErrMarshaling err))).
Proof.
  cbv zeta. unfold Output, serialize. split; [|split].
  - intros bytes.
    destruct (outErr out); [intros []|].
    destruct (outputDir opts); simpl.
    + destruct (selectPrinter (outputType opts)) as [p|]; [|intros []].
      destruct (AsBytesWithPrinter (outDocSet out) p) as [b|err] eqn:Hb; simpl.
      * intros [H|[H|[H|[]]]]; try discriminate. injection H as <-. eauto 7.
      * intros [H|[]]. discriminate.
    + intros [H|[]]. discriminate.
  - intros dir fs.
    destruct (outErr out); [intros []|].
    destruct (outputDir opts); simpl.
    + destruct (selectPrinter (outputType opts)) as [p|]; [|intros []].
      destruct (AsBytesWithPrinter (outDocSet out) p) as [b|err]; simpl.
      * intros [H|[H|[H|[]]]]; discriminate.
      * intros [H|[]]. discriminate.
    + intros [H|[]]. now injection H as <- <-.
  - intros p err -> -> -> ->. reflexivity.
Qed.

(** ** The accumulator *)

(** X20: a mark that succeeds keeps the accumulator it was given and only
    appends to it: nothing if its key is not [exclusive-for-output], and
    never a nil pointer. *)
Theorem X20_accumulator_grows (mark path key value : string)
    (ex ex' : list FilePtr) (m m' : Mem) :
  parseMark mark = Ok (path, key, value) ->
  applyOneMark mark ex m = (m', Ok ex') ->
  exists added,
    ex' = ex ++ added /\
    (key <> "exclusive-for-output" -> added = []) /\
    Forall (fun p => is_Some p) added.
Proof.
  intros P. unfold applyOneMark. rewrite P. unfold bind at 1. unfold len. unfold bind.
  destruct (scanFiles mark path key value (seq 0 (length (slots m))) false ex m)
    as [m1 [[b ex1]|e|]] eqn:S; [|discriminate..].
  apply scanFiles_accumulates in S. simpl. destruct b; [|discriminate].
  now intros [= _ <-].
Qed.

Lemma X20_accumulator_grows_witness :
  let m := ingest [fileAt "a.yml"; fileAt "b.yml"] in
  parseMark "b.yml:exclusive-for-output=true" =
    Ok ("b.yml", "exclusive-for-output", "true") /\
  applyOneMark "b.yml:exclusive-for-output=true" [Some 0] m = (m, Ok [Some 0; Some 1]) /\
  exists added,
    [Some 0; Some 1] = [Some 0] ++ added /\
    ("exclusive-for-output" <> "exclusive-for-output" -> added = []) /\
    Forall (fun p => is_Some p) added.
Proof.
  cbv zeta. split; [reflexivity|]. split; [vm_compute; reflexivity|].
  apply (X20_accumulator_grows "b.yml:exclusive-for-output=true" "b.yml"
           "exclusive-for-output" "true" [Some 0] [Some 0; Some 1]
           (ingest [fileAt "a.yml"; fileAt "b.yml"])
           (ingest [fileAt "a.yml"; fileAt "b.yml"]));
    [reflexivity | vm_compute; reflexivity].
Defined.

(** ** The input step *)

Lemma fileStep_originals (h h' : list File) :
  Forall2 fileStep h h' ->
  map originalRelativePath h' = map originalRelativePath h.
Proof. induction 1 as [|f f' h h' [E _] _ IH]; simpl; [reflexivity | now rewrite E, IH]. Qed.

(** X21: [Input] returns the error of the ingestion without looking at a
    mark; when it succeeds, it returns a subsequence of the pointers to
    the ingested files, and the file objects still have their original
    relative paths, in the order of ingestion; with no file mark it
    returns all of them and has written nothing. *)
Theorem X21_Input (NewSortedFilesFromPaths : list string -> list File + error)
    (opts : RegularFilesInputOpts) :
  (forall err, NewSortedFilesFromPaths (optFiles opts) = inr err ->
     Input NewSortedFilesFromPaths opts = (mkMem [] [], Err err)) /\
  (forall m' out, Input NewSortedFilesFromPaths opts = (m', Ok out) ->
     exists fs,
       NewSortedFilesFromPaths (optFiles opts) = inl fs /\
       sublist out (map Some (seq 0 (length fs))) /\
       map originalRelativePath (heap m') = map originalRelativePath fs) /\
  (forall fs, NewSortedFilesFromPaths (optFiles opts) = inl fs ->
     optFileMarks opts = [] ->
     Input NewSortedFilesFromPaths opts =
     (ingest fs, Ok (map Some (seq 0 (length fs))))).
Proof.
  unfold Input. split; [|split].
  - now intros err ->.
  - intros m' out.
    destruct (NewSortedFilesFromPaths (optFiles opts)) as [fs|err]; [|discriminate].
    intros Run. exists fs. split; [reflexivity|].
    pose proof (applyFileMarks_evolves _ _ _ _ Run) as [Hh _].
    split; [|now apply fileStep_originals].
    unfold applyFileMarks, bind in Run.
    destruct (applyMarks (optFileMarks opts) [] (ingest fs)) as [m1 [ex|e|]] eqn:A;
      [|discriminate..].
    apply applyMarks_inv in A as [[_ S] _]. apply finish_Ok in Run as ->.
    now apply slotStep_sublist.
  - intros fs -> ->. unfold applyFileMarks, bind, finish. simpl.
    unfold ret. f_equal. f_equal. apply clearNils_id.
    apply Forall_forall. intros p Hp.
    apply list_elem_of_fmap in Hp as (i & -> & _). eauto.
Qed.
